(** * Mastic VDAF and its VIDPF: a shallow embedding of [poc/vidpf.py] and
    [poc/mastic.py], with the properties of the specification proved on it.

    Python integers are [Z]; byte strings are lists of integers; dictionaries
    are [gmap]s; Python exceptions are the [Raise] branch of [result]. *)

From Stdlib Require Import ZArith Ring Zmod.
From stdpp Require Import base strings list gmap.

Local Open Scope Z_scope.

(** ** Shared helpers (the [common] module and Python's exceptions) *)

Module Common.

(** The exceptions the two source files can raise. *)
Inductive exn : Type :=
  | ValueError (msg : string)
  | Exception (msg : string)
  | AssertionError
  | KeyError
  | IndexError
  | TypeError
  | OverflowError.

Inductive result (A : Type) : Type :=
  | Ok (a : A)
  | Raise (e : exn).

Arguments Ok {A} a.
Arguments Raise {A} e.

#[global] Instance result_ret : MRet result := fun A a => Ok a.

#[global] Instance result_bind : MBind result := fun A B f m =>
  match m with
  | Ok a => f a
  | Raise e => Raise e
  end.

#[global] Instance exn_eq_dec : EqDecision exn.
Proof. solve_decision. Defined.

(** [assert cond] *)
Definition assert (cond : bool) : result unit :=
  if cond then Ok tt else Raise AssertionError.

(** [l[i]] on a Python list. *)
Definition index {A} (l : list A) (i : nat) : result A :=
  match l !! i with
  | Some a => Ok a
  | None => Raise IndexError
  end.

Abbreviation bytes := (list Z).

(** [xor(left, right)]: bytewise, over [zip(left, right)]. *)
Definition xor (left right : bytes) : bytes := zip_with Z.lxor left right.

(** [zeros(length)] *)
Definition zeros (length : nat) : bytes := replicate length 0.

(** [concat(parts)] *)
Definition concat (parts : list bytes) : bytes := mjoin parts.

(** [front(length, vec)] is [(vec[:length], vec[length:])]. *)
Definition front {A} (length : nat) (vec : list A) : list A * list A :=
  (take length vec, drop length vec).

(** [to_le_bytes(val, length)]; Python raises [OverflowError] when [val]
    does not fit. *)
Fixpoint le_digits (val : Z) (length : nat) : bytes :=
  match length with
  | O => []
  | S n => (val mod 256) :: le_digits (val / 256) n
  end.

Definition fits (val : Z) (length : nat) : bool :=
  (0 <=? val) && (val <? 256 ^ Z.of_nat length).

Definition to_le_bytes (val : Z) (length : nat) : result bytes :=
  if fits val length then Ok (le_digits val length) else Raise OverflowError.

Definition to_be_bytes (val : Z) (length : nat) : result bytes :=
  if fits val length then Ok (rev (le_digits val length)) else Raise OverflowError.

(** The operations of a field class ([Field64], [Field128], ...). *)
Class FieldOps (F : Type) : Type := {
  fzero : F;
  fone : F;
  fadd : F → F → F;
  fmul : F → F → F;
  fsub : F → F → F;
  fopp : F → F;
}.

Section Vectors.
Context {F : Type} `{FieldOps F}.

(** [vec_add], [vec_sub], [vec_neg]: componentwise, over [zip]. *)
Definition vec_add (left right : list F) : list F := zip_with fadd left right.
Definition vec_sub (left right : list F) : list F := zip_with fsub left right.
Definition vec_neg (vec : list F) : list F := fopp <$> vec.

(** [Field.zeros(length)] *)
Definition fzeros (length : nat) : list F := replicate length fzero.
End Vectors.

End Common.

Import Common.

(** ** GF(2): the [Field2] class, one bit per element *)

Module Field2.
Definition t : Type := bool.

(** [Field2(val)] keeps [val] modulo 2. *)
Definition of_int (val : Z) : t := Z.odd val.
Definition add (a b : t) : t := xorb a b.
Definition mul (a b : t) : t := andb a b.
Definition as_unsigned (a : t) : Z := if a then 1 else 0.

(** [ctrl.conditional_select(inp)]: [inp] when [ctrl] is one, else as
    many zero bytes. *)
Definition conditional_select (ctrl : t) (inp : bytes) : bytes :=
  if ctrl then inp else zeros (length inp).
End Field2.

(** [for x in xs: body], where the body may raise. *)
Fixpoint for_each {A S} (body : A → S → result S) (xs : list A) (st : S)
    : result S :=
  match xs with
  | [] => Ok st
  | x :: xs' => st' ← body x st; for_each body xs' st'
  end.

(** *** Loops and exceptions *)

Lemma bind_Ok {A B} (m : result A) (k : A → result B) (b : B) :
  m ≫= k = Ok b ↔ ∃ a, m = Ok a ∧ k a = Ok b.
Proof.
  destruct m as [a|e]; simpl; split.
  - intros Hk. by exists a.
  - intros (a' & Ha & Hk). by simplify_eq.
  - discriminate.
  - by intros (a' & Ha & _).
Qed.

Lemma bind_Raise {A B} (m : result A) (k : A → result B) (e : exn) :
  m ≫= k = Raise e ↔ m = Raise e ∨ ∃ a, m = Ok a ∧ k a = Raise e.
Proof.
  destruct m as [a|e']; simpl; split.
  - intros Hk. right. by exists a.
  - intros [Hm | (a' & Ha & Hk)]; [discriminate | by simplify_eq].
  - intros [= <-]. by left.
  - intros [Hm | (a' & Ha & _)]; [by simplify_eq | discriminate].
Qed.

Lemma Ok_inj {A} (a b : A) : Ok a = Ok b → a = b.
Proof. by intros [= ->]. Qed.

Lemma for_each_app {A S} (body : A → S → result S) xs ys st :
  for_each body (xs ++ ys) st = for_each body xs st ≫= for_each body ys.
Proof.
  revert st. induction xs as [|x xs IH]; intros st; simpl; [done|].
  destruct (body x st) as [st'|e]; simpl; [apply IH | done].
Qed.

Lemma for_each_snoc {A S} (body : A → S → result S) xs x st :
  for_each body (xs ++ [x]) st = for_each body xs st ≫= body x.
Proof.
  rewrite for_each_app. destruct (for_each body xs st) as [st'|e]; simpl; [|done].
  by destruct (body x st').
Qed.

(** A loop raises only what one of its iterations raises. *)
Lemma for_each_Raise {A S} (body : A → S → result S) xs st e :
  for_each body xs st = Raise e → ∃ x s, x ∈ xs ∧ body x s = Raise e.
Proof.
  revert st. induction xs as [|x xs IH]; intros st; simpl; [discriminate|].
  intros [Hx | (st' & _ & Hrest)]%bind_Raise.
  - exists x, st. split; [left | done].
  - destruct (IH _ Hrest) as (y & s & Hy & Hbody).
    exists y, s. split; [by right | done].
Qed.

(** An invariant kept by every iteration that returns holds when the loop
    returns. *)
Lemma for_each_invariant {A S} (body : A → S → result S) (P : S → Prop)
    xs st st' :
  (∀ x s s', x ∈ xs → P s → body x s = Ok s' → P s') →
  P st → for_each body xs st = Ok st' → P st'.
Proof.
  revert st. induction xs as [|x xs IH]; intros st Hbody HP; simpl.
  - by intros [= <-].
  - intros (s & Hs & Hrest)%bind_Ok. eapply IH; [| |exact Hrest].
    + intros y s1 s2 Hy. apply Hbody. by right.
    + eapply Hbody; [left | exact HP | exact Hs].
Qed.

(** A loop whose iterations all return, under an invariant, returns. *)
Lemma for_each_returns {A S} (body : A → S → result S) (P : S → Prop) xs st :
  (∀ x s, x ∈ xs → P s → ∃ s', body x s = Ok s' ∧ P s') →
  P st → ∃ st', for_each body xs st = Ok st' ∧ P st'.
Proof.
  revert st. induction xs as [|x xs IH]; intros st Hbody HP; simpl.
  - by exists st.
  - destruct (Hbody x st) as (s & -> & Hs); [left | done |]. simpl.
    apply IH; [|done]. intros y s1 Hy. apply Hbody. by right.
Qed.

Lemma mapM_Ok {A B} (f : A → result B) (g : A → B) (l : list A) :
  (∀ x, x ∈ l → f x = Ok (g x)) → mapM f l = Ok (g <$> l).
Proof.
  induction l as [|x l IH]; intros Hf; [done|].
  cbn. rewrite Hf by left. cbn. rewrite IH; [done|].
  intros y Hy. apply Hf. by right.
Qed.

Lemma mapM_Raise {A B} (f : A → result B) (l : list A) e :
  mapM f l = Raise e → ∃ x, x ∈ l ∧ f x = Raise e.
Proof.
  induction l as [|x l IH]; [discriminate|]. cbn.
  intros [Hx | (y & _ & [Hl | (k & _ & [=])]%bind_Raise)]%bind_Raise.
  - exists x. split; [left | done].
  - destruct (IH Hl) as (z & Hz & Hfz). exists z. split; [by right | done].
Qed.

Lemma index_Ok {A} (l : list A) i a : l !! i = Some a → index l i = Ok a.
Proof. unfold index. by intros ->. Qed.

Lemma index_returns {A} (l : list A) (i : nat) :
  (i < length l)%nat → ∃ a, l !! i = Some a ∧ index l i = Ok a.
Proof.
  intros Hi. destruct (lookup_lt_is_Some_2 l i Hi) as [a Ha].
  exists a. split; [done | by apply index_Ok].
Qed.

Lemma index_not_ValueError {A} (l : list A) i msg :
  index l i ≠ Raise (ValueError msg).
Proof. unfold index. by destruct (l !! i). Qed.

(** *** Byte strings under [xor] *)

Lemma length_xor a b : length (xor a b) = (length a `min` length b)%nat.
Proof. apply length_zip_with. Qed.

Lemma xor_zeros_r a n : (length a ≤ n)%nat → xor a (zeros n) = a.
Proof.
  revert n. induction a as [|x a IH]; intros [|n] Hn; simpl in *; try done; try lia.
  f_equal; [apply Z.lxor_0_r | apply IH; lia].
Qed.

Lemma xor_cancel_l a b : length a = length b → xor a (xor a b) = b.
Proof.
  revert b. induction a as [|x a IH]; intros [|y b] Hl; simpl in *; try done.
  f_equal; [|apply IH; lia].
  by rewrite <- Z.lxor_assoc, Z.lxor_nilpotent, Z.lxor_0_l.
Qed.

Lemma xor_cancel_r a b : length a = length b → xor b (xor a b) = a.
Proof.
  revert b. induction a as [|x a IH]; intros [|y b] Hl; simpl in *; try done.
  f_equal; [|apply IH; lia].
  by rewrite (Z.lxor_comm x y), <- Z.lxor_assoc, Z.lxor_nilpotent, Z.lxor_0_l.
Qed.

(** *** Bits of a node number *)

Lemma land_1_mod n : Z.land n 1 = n mod 2.
Proof. change 1 with (Z.ones 1). by rewrite Z.land_ones by lia. Qed.

Lemma land_1_cases n : Z.land n 1 = 0 ∨ Z.land n 1 = 1.
Proof. rewrite land_1_mod. pose proof (Z.mod_pos_bound n 2). lia. Qed.

Lemma shiftr_1_div n : Z.shiftr n 1 = n / 2.
Proof. by rewrite Z.shiftr_div_pow2 by lia. Qed.

(** A node is its parent doubled plus its last bit. *)
Lemma node_parent_bit n : n = 2 * Z.shiftr n 1 + Z.land n 1.
Proof. rewrite shiftr_1_div, land_1_mod. apply Z.div_mod. lia. Qed.

Lemma lxor_1_parent n : Z.shiftr (Z.lxor n 1) 1 = Z.shiftr n 1.
Proof. rewrite Z.shiftr_lxor. change (Z.shiftr 1 1) with 0. apply Z.lxor_0_r. Qed.

Lemma land_1_testbit n : Z.land n 1 = Z.b2z (Z.testbit n 0).
Proof. by rewrite land_1_mod, Z.bit0_mod. Qed.

Lemma lxor_1_bit n : Z.land (Z.lxor n 1) 1 = 1 - Z.land n 1.
Proof.
  rewrite !land_1_testbit, Z.lxor_spec.
  change (Z.testbit 1 0) with true. by destruct (Z.testbit n 0).
Qed.

(** Two nodes with the same parent and the same last bit are the same. *)
Lemma node_eq_parent_bit n m :
  Z.shiftr n 1 = Z.shiftr m 1 → Z.land n 1 = Z.land m 1 → n = m.
Proof.
  intros Hp Hb. rewrite (node_parent_bit n), (node_parent_bit m). lia.
Qed.

Lemma shiftl_1_parent x : Z.shiftr (Z.shiftl x 1) 1 = x.
Proof. rewrite Z.shiftr_shiftl_l by lia. apply Z.shiftl_0_r. Qed.

Lemma shiftl_1_bit x : Z.land (Z.shiftl x 1) 1 = 0.
Proof. by rewrite land_1_testbit, Z.shiftl_spec_low by lia. Qed.

Lemma lor_1_parent x : Z.shiftr (Z.lor (Z.shiftl x 1) 1) 1 = x.
Proof.
  rewrite Z.shiftr_lor, shiftl_1_parent. change (Z.shiftr 1 1) with 0.
  apply Z.lor_0_r.
Qed.

Lemma lor_1_bit x : Z.land (Z.lor (Z.shiftl x 1) 1) 1 = 1.
Proof.
  rewrite land_1_testbit, Z.lor_spec. change (Z.testbit 1 0) with true.
  by rewrite orb_true_r.
Qed.

(** The two children of a node's parent are the node and its sibling. *)
Lemma children_cases m :
  (Z.shiftl (Z.shiftr m 1) 1 = m ∧
   Z.lor (Z.shiftl (Z.shiftr m 1) 1) 1 = Z.lxor m 1) ∨
  (Z.shiftl (Z.shiftr m 1) 1 = Z.lxor m 1 ∧
   Z.lor (Z.shiftl (Z.shiftr m 1) 1) 1 = m).
Proof.
  destruct (land_1_cases m) as [Hm|Hm]; [left|right]; split;
    apply node_eq_parent_bit;
    rewrite ?shiftl_1_parent, ?lor_1_parent, ?lxor_1_parent,
      ?shiftl_1_bit, ?lor_1_bit, ?lxor_1_bit; lia.
Qed.

(** A node of level 0 on the way to a prefix of [level + 1] bits. *)
Lemma root_node_cases prefix level :
  0 ≤ prefix < 2 ^ Z.of_nat (level + 1) →
  (Z.shiftr prefix (Z.of_nat level) = 0 ∧
   Z.lxor (Z.shiftr prefix (Z.of_nat level)) 1 = 1) ∨
  (Z.shiftr prefix (Z.of_nat level) = 1 ∧
   Z.lxor (Z.shiftr prefix (Z.of_nat level)) 1 = 0).
Proof.
  intros Hp. rewrite Z.shiftr_div_pow2 by lia.
  rewrite Nat2Z.inj_add, Z.pow_add_r in Hp by lia. change (2 ^ Z.of_nat 1) with 2 in Hp.
  assert (0 ≤ prefix / 2 ^ Z.of_nat level < 2) as Hq.
  { split; [apply Z.div_pos; lia|]. apply Z.div_lt_upper_bound; lia. }
  assert (prefix / 2 ^ Z.of_nat level = 0 ∨ prefix / 2 ^ Z.of_nat level = 1)
    as [->| ->] by lia; [by left | by right].
Qed.
Lemma child_range c l :
  0 ≤ Z.shiftr c 1 < 2 ^ Z.of_nat l → 0 ≤ c < 2 ^ Z.of_nat (S l).
Proof.
  intros Hp. rewrite Nat2Z.inj_succ, Z.pow_succ_r by lia.
  pose proof (node_parent_bit c). pose proof (land_1_cases c). lia.
Qed.

(** The node of level [cl] on the way to a prefix of [level + 1] bits. *)
Lemma prefix_node_range prefix level cl :
  (cl ≤ level)%nat → 0 ≤ prefix < 2 ^ Z.of_nat (level + 1) →
  0 ≤ Z.shiftr prefix (Z.of_nat (level - cl)) < 2 ^ Z.of_nat (S cl).
Proof.
  intros Hcl Hp. rewrite Z.shiftr_div_pow2 by lia.
  split; [apply Z.div_pos; lia|].
  apply Z.div_lt_upper_bound; [lia|].
  rewrite <- Z.pow_add_r by lia.
  replace (Z.of_nat (level - cl) + Z.of_nat (S cl)) with (Z.of_nat (level + 1))
    by lia.
  lia.
Qed.
(** *** Duplicates, as [len(set(l)) != len(l)] finds them *)

Lemma size_list_to_set_le (l : list Z) :
  (size (list_to_set (C:=gset Z) l) ≤ length l)%nat.
Proof.
  induction l as [|x l IH]; [done|]. cbn [list_to_set length].
  rewrite size_union_alt, size_singleton.
  pose proof (subseteq_size (list_to_set l ∖ {[x]}) (list_to_set (C:=gset Z) l)
                ltac:(set_solver)).
  lia.
Qed.

Lemma size_list_to_set_NoDup (l : list Z) :
  size (list_to_set (C:=gset Z) l) = length l ↔ NoDup l.
Proof.
  split; [|apply size_list_to_set].
  induction l as [|x l IH]; [constructor|]. cbn [list_to_set length].
  intros Hsize. destruct (decide (x ∈ l)) as [Hin|Hnin].
  - exfalso.
    replace ({[x]} ∪ list_to_set l) with (list_to_set (C:=gset Z) l) in Hsize
      by (apply set_eq; set_solver).
    pose proof (size_list_to_set_le l). lia.
  - rewrite size_union, size_singleton in Hsize by set_solver.
    constructor; [done|]. apply IH. lia.
Qed.

(** *** Big-endian integers *)

Lemma le_digits_length val n : length (le_digits val n) = n.
Proof. revert val. induction n as [|n IH]; intros val; simpl; [done|]. by rewrite IH. Qed.

Lemma le_digits_inj n val val' :
  0 ≤ val < 256 ^ Z.of_nat n → 0 ≤ val' < 256 ^ Z.of_nat n →
  le_digits val n = le_digits val' n → val = val'.
Proof.
  revert val val'. induction n as [|n IH]; intros val val'.
  - simpl. lia.
  - rewrite Nat2Z.inj_succ, Z.pow_succ_r by lia. intros Hv Hv'.
    cbn [le_digits]. intros [= Hmod Hdiv].
    apply IH in Hdiv.
    + rewrite (Z.div_mod val 256), (Z.div_mod val' 256) by lia. lia.
    + split; [apply Z.div_pos; lia | apply Z.div_lt_upper_bound; lia].
    + split; [apply Z.div_pos; lia | apply Z.div_lt_upper_bound; lia].
Qed.

Lemma to_be_bytes_Ok val n :
  0 ≤ val < 256 ^ Z.of_nat n →
  to_be_bytes val n = Ok (rev (le_digits val n)).
Proof.
  intros Hv. unfold to_be_bytes, fits.
  rewrite (proj2 (Z.leb_le 0 val)), (proj2 (Z.ltb_lt val _)) by lia. done.
Qed.

Lemma cons_eq_both {A} (a b : A) (l k : list A) :
  a :: l = b :: k → a = b ∧ l = k.
Proof. by intros [= -> ->]. Qed.

Lemma mjoin_cons {A} (x : list A) (l : list (list A)) :
  mjoin (x :: l) = x ++ mjoin l.
Proof. done. Qed.

(** Lists of blocks of the same lengths are the same when their
    concatenations are. *)
Lemma mjoin_inj {A} (xs ys : list (list A)) :
  Forall2 (λ x y, length x = length y) xs ys →
  mjoin xs = mjoin ys → xs = ys.
Proof.
  induction 1 as [|x y xs ys Hlen _ IH]; [done|]. simpl.
  intros [-> Hrest]%app_inj_1; [|done]. f_equal. by apply IH.
Qed.
(** Decide a comparison of integers that stands as a boolean. *)
Ltac bool_lia :=
  first [ symmetry | idtac ];
  first [ apply Z.leb_le | apply Z.leb_gt | apply Z.ltb_lt | apply Z.ltb_ge
        | apply Z.eqb_eq | apply Z.eqb_neq ];
  lia.

(** *** Vectors, componentwise *)

(** Reduce an equation between vectors built by [zip_with] and [fmap] to
    its components. *)
Ltac pointwise :=
  apply list_eq; intros ?i; unfold vec_add, vec_sub, vec_neg, fzeros;
  repeat first
    [ rewrite lookup_zip_with | rewrite list_lookup_fmap ];
  repeat match goal with
    | |- context [replicate ?n ?x !! ?i] =>
        let E := fresh "E" in
        destruct (replicate n x !! i) eqn:E;
        [apply lookup_replicate in E as [-> E]
        |apply lookup_replicate_None in E]
    | |- context [?l !! ?i] =>
        let E := fresh "E" in
        destruct (l !! i) eqn:E;
        [pose proof (lookup_lt_Some _ _ _ E)
        |apply lookup_ge_None in E]
    end;
  simpl; try done; try lia; try (f_equal; ring).

(** *** More on loops *)

(** When [mapM] returns, every element returned. *)
Lemma mapM_Ok_inv {A B} (f : A → result B) (l : list A) (ys : list B) :
  mapM f l = Ok ys → ∀ x, x ∈ l → ∃ y, f x = Ok y.
Proof.
  revert ys. induction l as [|x l IH]; intros ys Hl z Hz.
  - by apply elem_of_nil in Hz.
  - cbn in Hl. apply bind_Ok in Hl as (y & Hy & Hrest).
    apply bind_Ok in Hrest as (ys' & Hys & _).
    apply elem_of_cons in Hz as [->|Hz]; [eauto | by eapply IH].
Qed.

(** A loop stops at the first iteration that raises. *)
Lemma for_each_raises_at {A S} (body : A → S → result S) xs x ys st e :
  (∀ y s, y ∈ xs → ∃ s', body y s = Ok s') →
  (∀ s, body x s = Raise e) →
  for_each body (xs ++ x :: ys) st = Raise e.
Proof.
  intros Hxs Hx. rewrite for_each_app.
  destruct (for_each_returns body (λ _, True) xs st) as (st' & -> & _);
    [|done|].
  - intros y s Hy _. destruct (Hxs y s Hy) as [s' ->]. eauto.
  - simpl. by rewrite Hx.
Qed.
Lemma index_Ok_inv {A} (l : list A) i a : index l i = Ok a → l !! i = Some a.
Proof. unfold index. destruct (l !! i); [by intros [= ->] | done]. Qed.
(** A loop that returns ran every one of its iterations to the end. *)
Lemma for_each_Ok_inv {A S} (body : A → S → result S) xs st st' :
  for_each body xs st = Ok st' → ∀ x, x ∈ xs → ∃ s s', body x s = Ok s'.
Proof.
  revert st. induction xs as [|x xs IH]; intros st Hrun y Hy.
  - by apply elem_of_nil in Hy.
  - simpl in Hrun. apply bind_Ok in Hrun as (s & Hs & Hrest).
    apply elem_of_cons in Hy as [->|Hy]; [eauto | by eapply IH].
Qed.
(** ** [poc/vidpf.py]: class [Vidpf] *)

Module Vidpf.

(** [XofFixedKeyAes128.SEED_SIZE] *)
Definition SEED_SIZE : nat := 16.
Definition SHARES : Z := 2.
Definition KEY_SIZE : nat := SEED_SIZE.
Definition RAND_SIZE : nat := 2 * SEED_SIZE.

(** [list[i]] for a two-element list and an index that is 0 or 1. *)
Definition pick {A} (p : A * A) (i : Z) : A := if i =? 0 then p.1 else p.2.

(** A correction word [(seed_cw, ctrl_cw, w_cw)]. *)
Abbreviation CorrectionWord F :=
  (bytes * (Field2.t * Field2.t) * list F)%type.

(** A node of the prefix tree share: [(seed, ctrl, y, pi_proof)]. *)
Abbreviation Node F := (bytes * Field2.t * list F * bytes)%type.

(** [correct(k_0, k_1, ctrl)] on byte strings and on ring elements. *)
Definition correct (k_0 k_1 : bytes) (ctrl : Field2.t) : bytes :=
  xor k_0 (Field2.conditional_select ctrl k_1).

Definition correct_ctrl (k_0 k_1 ctrl : Field2.t) : Field2.t :=
  Field2.add k_0 (Field2.mul ctrl k_1).

Section WithParams.
Context {F : Type} `{FieldOps F}.

(** Set by [with_params()]. *)
Variable BITS : nat.
Variable VALUE_LEN : nat.

(** The external primitives: the output stream of
    [XofFixedKeyAes128(seed, dst, binder)] and its [next_vec], SHA3-256,
    [format_dst], [str(n).encode('ascii')] and [Field.encode_vec]. *)
Variable xof_stream : bytes → bytes → bytes → nat → Z.
Variable xof_vec : bytes → bytes → bytes → nat → nat → list F.
Variable format_dst : Z → Z → Z → bytes.
Variable sha3_256 : bytes → bytes.
Variable str : Z → bytes.
Variable encode_vec : list F → bytes.

(** The XOF object: what it was built from and how much was read. *)
Record Xof : Type := {
  xof_seed : bytes;
  xof_dst : bytes;
  xof_binder : bytes;
  xof_pos : nat;
}.

Definition XofFixedKeyAes128 (seed dst binder : bytes) : Xof :=
  {| xof_seed := seed; xof_dst := dst; xof_binder := binder; xof_pos := 0 |}.

(** [xof.next(length)] *)
Definition next (xof : Xof) (length : nat) : bytes * Xof :=
  (xof_stream (xof_seed xof) (xof_dst xof) (xof_binder xof)
     <$> seq (xof_pos xof) length,
   {| xof_seed := xof_seed xof; xof_dst := xof_dst xof;
      xof_binder := xof_binder xof; xof_pos := xof_pos xof + length |}).

(** [xof.next_vec(cls.Field, length)] *)
Definition next_vec (xof : Xof) (length : nat) : list F :=
  xof_vec (xof_seed xof) (xof_dst xof) (xof_binder xof) (xof_pos xof) length.

Definition ROOT_PROOF : bytes := sha3_256 [].

(** [cls.Field(ctrl.as_unsigned())] *)
Definition Field_of_ctrl (ctrl : Field2.t) : F :=
  if ctrl then fone else fzero.

Definition extend (seed binder : bytes)
    : (bytes * bytes) * (Field2.t * Field2.t) :=
  let xof := XofFixedKeyAes128 seed (format_dst 1 0 0) binder in
  let '(seed_l, xof) := next xof SEED_SIZE in
  let '(seed_r, xof) := next xof SEED_SIZE in
  let bit := default 0 (head (next xof 1).1) in
  ((seed_l, seed_r),
   (Field2.of_int (Z.land bit 1),
    Field2.of_int (Z.land (Z.shiftr bit 1) 1))).

Definition convert (seed : bytes) (level : nat) (binder : bytes)
    : bytes * list F :=
  let xof := XofFixedKeyAes128 seed (format_dst 1 0 1) binder in
  let '(next_seed, xof) := next xof SEED_SIZE in
  (next_seed, next_vec xof VALUE_LEN).

(** The hash [H(str(node) || to_le_bytes(level, 2) || seed)]. *)
Definition node_hash (node : Z) (level : nat) (seed : bytes) : result bytes :=
  le ← to_le_bytes (Z.of_nat level) 2;
  mret (sha3_256 (str node ++ le ++ seed)).
(** *** [Vidpf.gen] *)

(** The variables of the loop of [gen]. *)
Record GenState : Type := {
  seed : bytes * bytes;
  ctrl : Field2.t * Field2.t;
  correction_words : list (CorrectionWord F);
  cs_proofs : list bytes;
}.

(** One iteration of [for i in range(cls.BITS)]. *)
Definition gen_level (alpha : Z) (beta : list F) (binder : bytes)
    (i : nat) (st : GenState) : result GenState :=
  let node := Z.shiftr alpha (Z.of_nat (BITS - i - 1)) in
  let bit := Z.land node 1 in
  let '(keep, lose) := if bit =? 0 then (0, 1) else (1, 0) in
  let '(s_0, t_0) := extend (seed st).1 binder in
  let '(s_1, t_1) := extend (seed st).2 binder in
  let seed_cw := xor (pick s_0 lose) (pick s_1 lose) in
  let ctrl_cw :=
    (Field2.add (Field2.add (Field2.add t_0.1 t_1.1) (Field2.of_int 1))
       (Field2.of_int bit),
     Field2.add (Field2.add t_0.2 t_1.2) (Field2.of_int bit)) in
  let '(seed_0, w_0) :=
    convert (correct (pick s_0 keep) seed_cw (ctrl st).1) i binder in
  let '(seed_1, w_1) :=
    convert (correct (pick s_1 keep) seed_cw (ctrl st).2) i binder in
  let ctrl_0 := correct_ctrl (pick t_0 keep) (pick ctrl_cw keep) (ctrl st).1 in
  let ctrl_1 := correct_ctrl (pick t_1 keep) (pick ctrl_cw keep) (ctrl st).2 in
  let w_cw := vec_add (vec_sub beta w_0) w_1 in
  let mask := fsub fone (fmul (fadd fone fone) (Field_of_ctrl ctrl_1)) in
  let w_cw := (λ x, fmul x mask) <$> w_cw in
  proof_0 ← node_hash node i seed_0;
  proof_1 ← node_hash node i seed_1;
  mret {| seed := (seed_0, seed_1);
          ctrl := (ctrl_0, ctrl_1);
          correction_words :=
            correction_words st ++ [(seed_cw, ctrl_cw, w_cw)];
          cs_proofs := cs_proofs st ++ [xor proof_0 proof_1] |}.

Definition gen (alpha : Z) (beta : list F) (binder rand : bytes)
    : result ((bytes * bytes) * list (CorrectionWord F) * list bytes) :=
  if 2 ^ Z.of_nat BITS <=? alpha then Raise (ValueError "alpha too long")
  else if negb (length rand =? RAND_SIZE)%nat
  then Raise (ValueError "randomness has incorrect length")
  else
    let init_seed := (take SEED_SIZE rand, drop SEED_SIZE rand) in
    st ← for_each (gen_level alpha beta binder) (seq 0 BITS)
           {| seed := init_seed;
              ctrl := (Field2.of_int 0, Field2.of_int 1);
              correction_words := [];
              cs_proofs := [] |};
    mret (init_seed, correction_words st, cs_proofs st).

(** *** [Vidpf.eval_next] *)

(** [for i in range(len(w)): y.append(w[i] + w_cw[i] * mask)] *)
Definition add_masked (w w_cw : list F) (mask : F) : result (list F) :=
  mapM (λ i, w_i ← index w i; cw_i ← index w_cw i;
             mret (fadd w_i (fmul cw_i mask)))
       (seq 0 (length w)).

Definition eval_next (prev_seed : bytes) (prev_ctrl : Field2.t)
    (correction_word : CorrectionWord F) (cs_proof : bytes)
    (current_level : nat) (node : Z) (pi_proof binder : bytes)
    : result (Node F) :=
  let '(seed_cw, ctrl_cw, w_cw) := correction_word in
  let '(s, t) := extend prev_seed binder in
  let s := (xor s.1 (Field2.conditional_select prev_ctrl seed_cw),
            xor s.2 (Field2.conditional_select prev_ctrl seed_cw)) in
  let t := (Field2.add t.1 (Field2.mul ctrl_cw.1 prev_ctrl),
            Field2.add t.2 (Field2.mul ctrl_cw.2 prev_ctrl)) in
  let bit := Z.land node 1 in
  let next_ctrl := pick t bit in
  let '(next_seed, w) := convert (pick s bit) current_level binder in
  let mask := Field_of_ctrl next_ctrl in
  y ← add_masked w w_cw mask;
  pi_prime ← node_hash node current_level next_seed;
  let h2 :=
    if Field2.as_unsigned next_ctrl =? 1
    then xor pi_proof (xor pi_prime cs_proof)
    else xor pi_proof pi_prime in
  let pi_proof := xor pi_proof (sha3_256 h2) in
  mret (next_seed, next_ctrl, y, pi_proof).
(** *** [Vidpf.eval] *)

(** The dictionary [prefix_tree_share], keyed by [(node, level)]. *)
Abbreviation Tree := (gmap (Z * nat) (Node F)).

(** The body of [for s in [0, 1]]: fill in the entry of [node ^ s] unless
    it is there. *)
Definition visit (correction_words : list (CorrectionWord F))
    (cs_proofs : list bytes) (binder : bytes) (seed : bytes)
    (ctrl : Field2.t) (pi_proof : bytes) (current_level : nat) (node : Z)
    (s : Z) (prefix_tree_share : Tree) : result Tree :=
  match prefix_tree_share !! (Z.lxor node s, current_level) with
  | Some _ => Ok prefix_tree_share
  | None =>
      correction_word ← index correction_words current_level;
      cs_proof ← index cs_proofs current_level;
      entry ← eval_next seed ctrl correction_word cs_proof current_level
                (Z.lxor node s) pi_proof binder;
      mret (<[(Z.lxor node s, current_level) := entry]> prefix_tree_share)
  end.

(** The body of [for current_level in range(level+1)]; its variables are
    [(seed, ctrl, pi_proof, prefix_tree_share)]. *)
Definition eval_level (correction_words : list (CorrectionWord F))
    (cs_proofs : list bytes) (binder : bytes) (level : nat) (prefix : Z)
    (current_level : nat) (st : bytes * Field2.t * bytes * Tree)
    : result (bytes * Field2.t * bytes * Tree) :=
  let '(seed, ctrl, pi_proof, prefix_tree_share) := st in
  let node := Z.shiftr prefix (Z.of_nat (level - current_level)) in
  prefix_tree_share ←
    for_each (visit correction_words cs_proofs binder seed ctrl pi_proof
                current_level node) [0; 1] prefix_tree_share;
  match prefix_tree_share !! (node, current_level) with
  | Some (seed, ctrl, y, pi_proof) =>
      Ok (seed, ctrl, pi_proof, prefix_tree_share)
  | None => Raise TypeError
  end.

(** The body of the first [for prefix in prefixes]; its variables are
    [(pi_proof, prefix_tree_share)]. *)
Definition eval_prefix (agg_id : Z)
    (correction_words : list (CorrectionWord F)) (cs_proofs : list bytes)
    (init_seed : bytes) (level : nat) (binder : bytes) (prefix : Z)
    (st : bytes * Tree) : result (bytes * Tree) :=
  let '(pi_proof, prefix_tree_share) := st in
  if 2 ^ Z.of_nat (level + 1) <=? prefix
  then Raise (ValueError "prefix too long")
  else
    '(_, _, pi_proof, prefix_tree_share) ←
      for_each (eval_level correction_words cs_proofs binder level prefix)
        (seq 0 (level + 1))
        (init_seed, Field2.of_int agg_id, pi_proof, prefix_tree_share);
    mret (pi_proof, prefix_tree_share).

(** [prefix_tree_share[(node, level)][2]] *)
Definition lookup_y (prefix_tree_share : Tree) (node : Z) (level : nat)
    : result (list F) :=
  match prefix_tree_share !! (node, level) with
  | Some (_, _, y, _) => Ok y
  | None => Raise KeyError
  end.

(** The body of the path-proof loops; [acc] is what was fed to
    [sha3.update] so far. *)
Definition path_level (prefix_tree_share : Tree) (level : nat) (prefix : Z)
    (current_level : nat) (acc : bytes) : result bytes :=
  let node := Z.shiftr prefix (Z.of_nat (level - current_level)) in
  y ← lookup_y prefix_tree_share node current_level;
  y0 ← lookup_y prefix_tree_share (Z.shiftl node 1) (current_level + 1);
  y1 ← lookup_y prefix_tree_share (Z.lor (Z.shiftl node 1) 1)
         (current_level + 1);
  mret (acc ++ encode_vec (vec_sub y (vec_add y0 y1))).

Definition path_prefix (prefix_tree_share : Tree) (level : nat)
    (prefix : Z) (acc : bytes) : result bytes :=
  for_each (path_level prefix_tree_share level prefix) (seq 0 level) acc.

Definition eval (agg_id : Z) (correction_words : list (CorrectionWord F))
    (cs_proofs : list bytes) (init_seed : bytes) (level : nat)
    (prefixes : list Z) (binder : bytes)
    : result (list F * list (list F) * bytes) :=
  if SHARES <=? agg_id then Raise (ValueError "invalid aggregator ID")
  else if (BITS <=? level)%nat then Raise (ValueError "level too deep")
  else if negb (size (list_to_set (C:=gset Z) prefixes) =? length prefixes)%nat
  then Raise (ValueError "candidate prefixes are non-unique")
  else
    '(pi_proof, prefix_tree_share) ←
      for_each (eval_prefix agg_id correction_words cs_proofs init_seed
                  level binder) prefixes (ROOT_PROOF, ∅);
    hashed ← for_each (path_prefix prefix_tree_share level) prefixes [];
    let path_proof := sha3_256 hashed in
    out_share ←
      mapM (λ prefix, y ← lookup_y prefix_tree_share prefix level;
                      mret (if agg_id =? 0 then y else vec_neg y))
           prefixes;
    y0 ← lookup_y prefix_tree_share 0 0;
    y1 ← lookup_y prefix_tree_share 1 0;
    let beta_share := vec_add y0 y1 in
    let beta_share :=
      if agg_id =? 1 then vec_neg beta_share else beta_share in
    mret (beta_share, out_share, pi_proof ++ path_proof).

(** [Vidpf.verify] *)
Definition verify (proof_0 proof_1 : bytes) : bool :=
  bool_decide (proof_0 = proof_1).
(** *** Facts about the primitives *)

(** The contract of the field class and of [next_vec]. *)
Hypothesis Fth : ring_theory fzero fone fadd fmul fsub fopp eq.
Hypothesis xof_vec_length :
  ∀ seed dst binder pos n, length (xof_vec seed dst binder pos n) = n.
Hypothesis sha3_256_length : ∀ m, length (sha3_256 m) = 32%nat.

Add Ring FieldRing : Fth.

Lemma extend_length seed binder s t :
  extend seed binder = (s, t) →
  length s.1 = SEED_SIZE ∧ length s.2 = SEED_SIZE.
Proof.
  unfold extend, next. intros [= <- _]. split; reflexivity.
Qed.

Lemma convert_length seed level binder next_seed w :
  convert seed level binder = (next_seed, w) → length w = VALUE_LEN.
Proof.
  unfold convert, next, next_vec. intros [= _ <-]. apply xof_vec_length.
Qed.

Lemma node_hash_returns node level seed :
  Z.of_nat level < 65536 → ∃ h, node_hash node level seed = Ok h.
Proof.
  intros Hl. unfold node_hash, to_le_bytes, fits.
  change (256 ^ Z.of_nat 2) with 65536.
  replace (0 <=? Z.of_nat level) with true by lia.
  replace (Z.of_nat level <? 65536) with true by lia.
  simpl. eauto.
Qed.

Lemma node_hash_length node level seed h :
  node_hash node level seed = Ok h → length h = 32%nat.
Proof.
  unfold node_hash. intros (le & _ & [= <-])%bind_Ok. apply sha3_256_length.
Qed.

Lemma add_masked_Ok w w_cw mask :
  (length w ≤ length w_cw)%nat →
  add_masked w w_cw mask
  = Ok (zip_with (λ a b, fadd a (fmul b mask)) w w_cw).
Proof.
  intros Hlen. unfold add_masked.
  rewrite (mapM_Ok _ (λ i, fadd (default fzero (w !! i))
                             (fmul (default fzero (w_cw !! i)) mask))).
  - f_equal. apply list_eq. intros i.
    rewrite list_lookup_fmap, lookup_zip_with.
    destruct (w !! i) as [a|] eqn:Ha.
    + pose proof (lookup_lt_Some _ _ _ Ha) as Hi.
      destruct (lookup_lt_is_Some_2 w_cw i ltac:(lia)) as [b Hb].
      rewrite lookup_seq_lt by done. simpl. by rewrite Ha, Hb.
    + apply lookup_ge_None in Ha.
      by rewrite lookup_seq_ge by done.
  - intros i [_ Hi]%elem_of_seq. simpl in Hi.
    destruct (index_returns w i Hi) as (a & -> & ->).
    destruct (index_returns w_cw i ltac:(lia)) as (b & -> & ->).
    done.
Qed.

Lemma add_masked_Raise w w_cw mask e :
  add_masked w w_cw mask = Raise e → e = IndexError.
Proof.
  intros (i & _ & Hi)%mapM_Raise. unfold index in Hi.
  destruct (w !! i); simpl in Hi; [|by simplify_eq].
  destruct (w_cw !! i); simpl in Hi; by simplify_eq.
Qed.
Arguments extend : simpl never.
Arguments convert : simpl never.
Arguments node_hash : simpl never.
Arguments add_masked : simpl never.

(** *** Vectors over the field *)

(** What the two Aggregators compute at a node sums to [beta] when their
    control bits differ: the unmasking of [w_cw]. *)
Lemma unmask_w_cw (c0 c1 : Field2.t) (beta w0 w1 : list F) :
  xorb c0 c1 = true →
  length beta = VALUE_LEN → length w0 = VALUE_LEN → length w1 = VALUE_LEN →
  let w_cw :=
    (λ x, fmul x (fsub fone (fmul (fadd fone fone) (Field_of_ctrl c1))))
      <$> vec_add (vec_sub beta w0) w1 in
  zip_with (λ a b, fadd a (fmul b (Field_of_ctrl c0))) w0 w_cw
  = vec_add (zip_with (λ a b, fadd a (fmul b (Field_of_ctrl c1))) w1 w_cw)
      beta.
Proof.
  intros Hc Hb H0 H1 w_cw. subst w_cw.
  destruct c0, c1; try discriminate; unfold Field_of_ctrl; pointwise.
Qed.

Lemma vec_add_neg_cancel (y d : list F) :
  length y = length d → vec_add (vec_add y d) (vec_neg y) = d.
Proof. intros Hl. pointwise. Qed.

Lemma vec_add_zeros_r (y : list F) :
  vec_add y (fzeros (length y)) = y.
Proof. pointwise. Qed.
(** *** One level of [gen] against one step of [eval_next] *)

(** A level of [gen] returns, extends the public share by one correction
    word and one proof, and keeps the control bits of the two keys
    different. With that correction word, [eval_next] from the two keys'
    states gives: on the node of [alpha], the two next states of [gen], the
    same proof, and values that differ by [beta]; on its sibling, one and
    the same node. *)
Lemma gen_level_spec alpha beta binder i st :
  Z.of_nat i < 65536 → length beta = VALUE_LEN →
  xorb (ctrl st).1 (ctrl st).2 = true →
  ∃ st' cw cs,
    gen_level alpha beta binder i st = Ok st' ∧
    correction_words st' = correction_words st ++ [cw] ∧
    cs_proofs st' = cs_proofs st ++ [cs] ∧
    xorb (ctrl st').1 (ctrl st').2 = true ∧
    length cw.2 = VALUE_LEN ∧
    (∀ pi, ∃ y0 y1 pi',
       eval_next (seed st).1 (ctrl st).1 cw cs i
         (Z.shiftr alpha (Z.of_nat (BITS - i - 1))) pi binder
       = Ok ((seed st').1, (ctrl st').1, y0, pi') ∧
       eval_next (seed st).2 (ctrl st).2 cw cs i
         (Z.shiftr alpha (Z.of_nat (BITS - i - 1))) pi binder
       = Ok ((seed st').2, (ctrl st').2, y1, pi') ∧
       y0 = vec_add y1 beta ∧ length y1 = VALUE_LEN) ∧
    (∀ n pi,
       Z.land n 1 ≠ Z.land (Z.shiftr alpha (Z.of_nat (BITS - i - 1))) 1 →
       ∃ e,
         eval_next (seed st).1 (ctrl st).1 cw cs i n pi binder = Ok e ∧
         eval_next (seed st).2 (ctrl st).2 cw cs i n pi binder = Ok e ∧
         length e.1.2 = VALUE_LEN).
Proof.
  intros Hi Hbeta Hctrl.
  destruct st as [[s0 s1] [c0 c1] cws css]. simpl in Hctrl |- *.
  unfold gen_level. cbn [seed ctrl correction_words cs_proofs fst snd].
  set (node := Z.shiftr alpha (Z.of_nat (BITS - i - 1))).
  destruct (extend s0 binder) as [[s0l s0r] [t0l t0r]] eqn:E0.
  destruct (extend s1 binder) as [[s1l s1r] [t1l t1r]] eqn:E1.
  destruct (extend_length _ _ _ _ E0) as [L0l L0r].
  destruct (extend_length _ _ _ _ E1) as [L1l L1r].
  cbn [fst snd] in L0l, L0r, L1l, L1r.
  destruct (land_1_cases node) as [Hbit|Hbit]; rewrite Hbit;
    cbn [Z.eqb pick fst snd];
    match goal with
    | |- context [convert ?s i binder] =>
        destruct (convert s i binder) as [seed_0 w_0] eqn:C0
    end;
    match goal with
    | |- context [convert ?s i binder] =>
        destruct (convert s i binder) as [seed_1 w_1] eqn:C1
    end;
    pose proof (convert_length _ _ _ _ _ C0) as Lw0;
    pose proof (convert_length _ _ _ _ _ C1) as Lw1;
    destruct (node_hash_returns node i seed_0 Hi) as [proof_0 Hp0];
    destruct (node_hash_returns node i seed_1 Hi) as [proof_1 Hp1];
    pose proof (node_hash_length _ _ _ _ Hp0) as Lp0;
    pose proof (node_hash_length _ _ _ _ Hp1) as Lp1;
    rewrite Hp0, Hp1; cbn [mbind result_bind mret result_ret];
    eexists _, _, _; (split; [reflexivity|]);
    cbn [seed ctrl correction_words cs_proofs fst snd];
    (split; [reflexivity|]); (split; [reflexivity|]).
  all: split; [by destruct c0, c1, t0l, t0r, t1l, t1r|].
  all: assert (Lcw : ∀ m, length ((λ x : F, fmul x m)
                        <$> vec_add (vec_sub beta w_0) w_1) = VALUE_LEN)
    by (intros m; unfold vec_add, vec_sub;
        rewrite length_fmap, !length_zip_with; lia).
  all: unfold correct in C0, C1.
  all: split; [apply Lcw|].
  all: split.
  all: try (intros pi; unfold eval_next; rewrite E0, E1; cbn [fst snd];
    rewrite Hbit;
    destruct c0, c1; try discriminate; destruct t0l, t0r, t1l, t1r;
    cbn [Field2.add Field2.mul Field2.of_int Field2.as_unsigned xorb andb
         Z.odd correct_ctrl pick Z.eqb Pos.eqb fst snd
         Field2.conditional_select] in *;
    rewrite C0, C1, !add_masked_Ok by (rewrite Lcw; lia);
    cbn [mbind result_bind mret result_ret];
    rewrite Hp0, Hp1; cbn [mbind result_bind mret result_ret];
    rewrite ?(xor_cancel_l proof_0 proof_1), ?(xor_cancel_r proof_0 proof_1)
      by lia;
    eexists _, _, _; (split; [reflexivity|]); (split; [reflexivity|]);
    (split; [unfold Field_of_ctrl; pointwise
            |rewrite length_zip_with, Lcw; lia])).
  all: intros n pi Hn; destruct (land_1_cases n) as [Hnb|Hnb];
    try (exfalso; lia); clear Hn;
    unfold eval_next; rewrite E0, E1; cbn [fst snd]; rewrite Hnb;
    destruct c0, c1; try discriminate; destruct t0l, t0r, t1l, t1r;
    cbn [Field2.add Field2.mul Field2.of_int Field2.as_unsigned xorb andb
         Z.odd correct_ctrl pick Z.eqb Pos.eqb fst snd
         Field2.conditional_select];
    rewrite ?xor_cancel_l, ?xor_cancel_r, ?xor_zeros_r
      by (rewrite ?length_xor; lia);
    match goal with
    | |- context [convert ?s ?l ?b] =>
        destruct (convert s l b) as [next_seed w] eqn:Cn
    end;
    pose proof (convert_length _ _ _ _ _ Cn) as Lw;
    rewrite !add_masked_Ok by (rewrite Lcw; lia);
    destruct (node_hash_returns n _ next_seed Hi) as [pi_prime ->];
    cbn [mbind result_bind mret result_ret];
    eexists; (split; [reflexivity|]); (split; [reflexivity|]);
    cbn [fst snd]; rewrite length_zip_with, Lcw; lia.
Qed.

(** [eval_next] returns whenever the correction word is long enough and
    the level fits two bytes. *)
Lemma eval_next_returns prev_seed prev_ctrl cw cs_proof level node pi binder :
  (VALUE_LEN ≤ length cw.2)%nat → Z.of_nat level < 65536 →
  ∃ e, eval_next prev_seed prev_ctrl cw cs_proof level node pi binder = Ok e
       ∧ length e.1.2 = VALUE_LEN.
Proof.
  intros Hcw Hl. destruct cw as [[seed_cw ctrl_cw] w_cw]. simpl in Hcw.
  unfold eval_next. destruct (extend prev_seed binder) as [s t].
  match goal with
  | |- context [convert ?s ?l ?b] =>
      destruct (convert s l b) as [next_seed w] eqn:Cn
  end.
  pose proof (convert_length _ _ _ _ _ Cn) as Lw.
  rewrite add_masked_Ok by lia.
  destruct (node_hash_returns node level next_seed Hl) as [pi_prime ->].
  cbn [mbind result_bind mret result_ret]. eexists. split; [reflexivity|].
  cbn [fst snd]. rewrite length_zip_with. lia.
Qed.

(** [eval_next] raises nothing but [IndexError] and [OverflowError]. *)
Lemma eval_next_Raise prev_seed prev_ctrl cw cs_proof level node pi binder e :
  eval_next prev_seed prev_ctrl cw cs_proof level node pi binder = Raise e →
  e = IndexError ∨ e = OverflowError.
Proof.
  destruct cw as [[seed_cw ctrl_cw] w_cw].
  unfold eval_next. destruct (extend prev_seed binder) as [s t].
  match goal with
  | |- context [convert ?s ?l ?b] =>
      destruct (convert s l b) as [next_seed w] eqn:Cn
  end.
  intros [Hy | (y & _ & [Hh | (h & _ & [=])]%bind_Raise)]%bind_Raise.
  - left. by eapply add_masked_Raise.
  - right. unfold node_hash, to_le_bytes in Hh.
    destruct (fits _ _); simpl in Hh; by simplify_eq.
Qed.
(** *** The tree of node states *)

(** The state [(seed, ctrl, y, pi_proof)] that the walk of [eval] holds
    after [l] levels, having arrived at [node] of level [l - 1]: the entry
    [(node, l - 1)] of the prefix tree share. With [l = 0] it is the state
    before the walk. *)
Fixpoint state_at (agg_id : Z) (correction_words : list (CorrectionWord F))
    (cs_proofs : list bytes) (init_seed binder : bytes) (l : nat)
    (node : Z) : result (Node F) :=
  match l with
  | O => Ok (init_seed, Field2.of_int agg_id, [], ROOT_PROOF)
  | S l' =>
      '(seed, ctrl, _, pi_proof) ←
        state_at agg_id correction_words cs_proofs init_seed binder l'
          (Z.shiftr node 1);
      correction_word ← index correction_words l';
      cs_proof ← index cs_proofs l';
      eval_next seed ctrl correction_word cs_proof l' node pi_proof binder
  end.

(** A state depends on the public share up to its level only. *)
Lemma state_at_app agg_id cws cws' cs cs' init_seed binder l node :
  (l ≤ length cws)%nat → (l ≤ length cs)%nat →
  state_at agg_id (cws ++ cws') (cs ++ cs') init_seed binder l node
  = state_at agg_id cws cs init_seed binder l node.
Proof.
  revert node. induction l as [|l IH]; intros node Hcws Hcs; [done|].
  cbn [state_at]. rewrite IH by lia.
  unfold index. by rewrite !lookup_app_l by lia.
Qed.

Lemma index_snoc {A} (l : list A) (x : A) : index (l ++ [x]) (length l) = Ok x.
Proof. apply index_Ok. by rewrite lookup_app_r, Nat.sub_diag by lia. Qed.

(** The node of [alpha] at level [l - 1]. *)
Definition alpha_node (alpha : Z) (l : nat) : Z :=
  Z.shiftr alpha (Z.of_nat (BITS - l)).

Lemma alpha_node_parent alpha l :
  (l < BITS)%nat → Z.shiftr (alpha_node alpha (S l)) 1 = alpha_node alpha l.
Proof.
  intros Hl. unfold alpha_node. rewrite Z.shiftr_shiftr by lia.
  f_equal. lia.
Qed.

Lemma alpha_node_0 alpha :
  0 ≤ alpha < 2 ^ Z.of_nat BITS → alpha_node alpha 0 = 0.
Proof.
  intros Ha. unfold alpha_node. rewrite Nat.sub_0_r.
  rewrite Z.shiftr_div_pow2 by lia. apply Z.div_small. lia.
Qed.

Lemma node_parent_range node l :
  0 ≤ node < 2 ^ Z.of_nat (S l) → 0 ≤ Z.shiftr node 1 < 2 ^ Z.of_nat l.
Proof.
  rewrite Nat2Z.inj_succ, Z.pow_succ_r by lia. intros Hn.
  rewrite shiftr_1_div. split; [apply Z.div_pos; lia|].
  apply Z.div_lt_upper_bound; lia.
Qed.

(** How the two Aggregators' states at a node are related: the same proof
    and, off the path of [alpha], the same state; on it, values that
    differ by [beta]. *)
Definition related (alpha : Z) (beta : list F)
    (cws : list (CorrectionWord F)) (cs : list bytes)
    (init_seed : bytes * bytes) (binder : bytes) (l : nat) (node : Z)
    : Prop :=
  ∃ e0 e1,
    state_at 0 cws cs init_seed.1 binder l node = Ok e0 ∧
    state_at 1 cws cs init_seed.2 binder l node = Ok e1 ∧
    length e1.1.2 = VALUE_LEN ∧ e0.2 = e1.2 ∧
    if decide (node = alpha_node alpha l)
    then e0.1.2 = vec_add e1.1.2 beta
    else e0 = e1.

(** The invariant of the loop of [gen], after [n] levels. *)
Definition gen_inv (alpha : Z) (beta : list F) (binder : bytes)
    (init_seed : bytes * bytes) (n : nat) (st : GenState) : Prop :=
  xorb (ctrl st).1 (ctrl st).2 = true ∧
  length (correction_words st) = n ∧
  length (cs_proofs st) = n ∧
  Forall (λ cw : CorrectionWord F, length cw.2 = VALUE_LEN)
    (correction_words st) ∧
  (∃ y0 y1 pi,
     state_at 0 (correction_words st) (cs_proofs st) init_seed.1 binder n
       (alpha_node alpha n) = Ok ((seed st).1, (ctrl st).1, y0, pi) ∧
     state_at 1 (correction_words st) (cs_proofs st) init_seed.2 binder n
       (alpha_node alpha n) = Ok ((seed st).2, (ctrl st).2, y1, pi)) ∧
  (∀ l node, (1 ≤ l ≤ n)%nat → 0 ≤ node < 2 ^ Z.of_nat l →
     related alpha beta (correction_words st) (cs_proofs st) init_seed
       binder l node).
Lemma related_app alpha beta cws cws' cs cs' init_seed binder l node :
  (l ≤ length cws)%nat → (l ≤ length cs)%nat →
  related alpha beta cws cs init_seed binder l node →
  related alpha beta (cws ++ cws') (cs ++ cs') init_seed binder l node.
Proof.
  intros Hcws Hcs (e0 & e1 & H0 & H1 & Hrest). exists e0, e1.
  by rewrite !state_at_app by done.
Qed.

(** A level of [gen] keeps the invariant. *)
Lemma gen_inv_step alpha beta binder init_seed n st :
  0 ≤ alpha < 2 ^ Z.of_nat BITS → length beta = VALUE_LEN →
  (n < BITS)%nat → Z.of_nat n < 65536 →
  gen_inv alpha beta binder init_seed n st →
  ∃ st', gen_level alpha beta binder n st = Ok st' ∧
         gen_inv alpha beta binder init_seed (S n) st'.
Proof.
  intros Halpha Hbeta Hn Hn16 (Hctrl & Lcws & Lcs & Hlen & Hfront & Hrel).
  destruct (gen_level_spec alpha beta binder n st Hn16 Hbeta Hctrl)
    as (st' & cw & cs & Hgen & Hcws & Hcs & Hctrl' & Hcw & Hon & Hoff).
  replace (BITS - n - 1)%nat with (BITS - S n)%nat in Hon, Hoff by lia.
  fold (alpha_node alpha (S n)) in Hon, Hoff.
  destruct Hfront as (fy0 & fy1 & fpi & Hf0 & Hf1).
  exists st'. split; [done|]. unfold gen_inv. rewrite Hcws, Hcs.
  assert (Hparent : ∀ agg_id init node,
    state_at agg_id (correction_words st ++ [cw]) (cs_proofs st ++ [cs])
      init binder (S n) node
    = '(seed, ctrl, _, pi_proof) ←
        state_at agg_id (correction_words st) (cs_proofs st) init binder n
          (Z.shiftr node 1);
      eval_next seed ctrl cw cs n node pi_proof binder).
  { intros agg_id init node. cbn [state_at]. rewrite state_at_app by lia.
    destruct (state_at _ _ _ _ _ n _) as [[[[s c] y] pi]|]; [|done].
    cbn [mbind result_bind].
    pose proof (index_snoc (correction_words st) cw) as Hcw_n.
    pose proof (index_snoc (cs_proofs st) cs) as Hcs_n.
    rewrite Lcws in Hcw_n. rewrite Lcs in Hcs_n. by rewrite Hcw_n, Hcs_n. }
  repeat split.
  - done.
  - rewrite length_app. simpl. lia.
  - rewrite length_app. simpl. lia.
  - apply Forall_app. split; [done|]. by constructor.
  - destruct (Hon fpi) as (y0 & y1 & pi' & He0 & He1 & _).
    exists y0, y1, pi'.
    rewrite !Hparent, alpha_node_parent, Hf0, Hf1 by done. by split.
  - intros l node Hl Hnode.
    destruct (decide (l = S n)) as [->|Hne];
      [|apply related_app; [lia|lia|apply Hrel; [lia|done]]].
    unfold related. rewrite !Hparent.
    pose proof (node_parent_range _ _ Hnode) as Hrange.
    destruct (decide (Z.shiftr node 1 = alpha_node alpha n)) as [Hp|Hp].
    + rewrite Hp, Hf0, Hf1. cbn [mbind result_bind].
      destruct (decide (node = alpha_node alpha (S n))) as [->|Hnp].
      * destruct (Hon fpi) as (y0 & y1 & pi' & -> & -> & Hy & Hly).
        eexists _, _. by repeat split.
      * destruct (Hoff node fpi) as (e & -> & -> & Hle).
        { intros Hbit. apply Hnp. apply node_eq_parent_bit; [|done].
          by rewrite alpha_node_parent. }
        by exists e, e.
    + assert (1 ≤ n)%nat as Hn1.
      { destruct n; [|lia]. exfalso. apply Hp.
        rewrite alpha_node_0 by done. simpl in Hrange. lia. }
      destruct (Hrel n (Z.shiftr node 1) ltac:(lia) Hrange)
        as (e0 & e1 & -> & -> & Hle & Hpi & He).
      rewrite decide_False in He by done. subst e1.
      destruct e0 as [[[s c] y] pi]. cbn [mbind result_bind].
      destruct (eval_next_returns s c cw cs n node pi binder) as (e & -> & Hy);
        [lia | done |].
      exists e, e. repeat split; [done|].
      rewrite decide_False; [done|].
      intros ->. apply Hp. by apply alpha_node_parent.
Qed.
Lemma gen_inv_run alpha beta binder init_seed n st0 :
  0 ≤ alpha < 2 ^ Z.of_nat BITS → length beta = VALUE_LEN →
  (n ≤ BITS)%nat → Z.of_nat BITS ≤ 65536 →
  gen_inv alpha beta binder init_seed 0 st0 →
  ∃ st, for_each (gen_level alpha beta binder) (seq 0 n) st0 = Ok st ∧
        gen_inv alpha beta binder init_seed n st.
Proof.
  intros Halpha Hbeta Hn Hbits Hinv.
  induction n as [|n IH]; [by exists st0|].
  destruct IH as (st & Hrun & Hst); [lia|].
  destruct (gen_inv_step alpha beta binder init_seed n st) as (st' & Hstep & Hst');
    [done | done | lia | lia | done |].
  exists st'. split; [|done].
  by rewrite seq_S, for_each_snoc, Hrun.
Qed.

(** [gen] returns on every input of the right sizes, and the public share
    it returns relates the two keys' trees at every node. *)
Lemma gen_spec alpha beta binder rand :
  0 ≤ alpha < 2 ^ Z.of_nat BITS → length beta = VALUE_LEN →
  length rand = RAND_SIZE → Z.of_nat BITS ≤ 65536 →
  ∃ cws cs,
    let init_seed := (take SEED_SIZE rand, drop SEED_SIZE rand) in
    gen alpha beta binder rand = Ok (init_seed, cws, cs) ∧
    length cws = BITS ∧ length cs = BITS ∧
    Forall (λ cw : CorrectionWord F, length cw.2 = VALUE_LEN) cws ∧
    ∀ l node, (1 ≤ l ≤ BITS)%nat → 0 ≤ node < 2 ^ Z.of_nat l →
      related alpha beta cws cs init_seed binder l node.
Proof.
  intros Halpha Hbeta Hrand Hbits. unfold gen.
  replace (2 ^ Z.of_nat BITS <=? alpha) with false by lia.
  rewrite Hrand, Nat.eqb_refl. cbn [negb].
  edestruct (gen_inv_run alpha beta binder
               (take SEED_SIZE rand, drop SEED_SIZE rand) BITS)
    as (st & -> & Hctrl & Lcws & Lcs & Hlen & _ & Hrel);
    [done | done | lia | done | | ].
  - repeat split; cbn [correction_words cs_proofs seed ctrl fst snd];
      try done.
    + by exists [], [], ROOT_PROOF.
    + intros l node Hl. lia.
  - by exists (correction_words st), (cs_proofs st).
Qed.
(** *** The walk of [eval]: which entries the tree gets *)

Lemma visit_Ok cws cs binder seed ctrl pi cl node s tree tree' :
  visit cws cs binder seed ctrl pi cl node s tree = Ok tree' →
  tree ⊆ tree' ∧ is_Some (tree' !! (Z.lxor node s, cl)).
Proof.
  unfold visit. destruct (tree !! (Z.lxor node s, cl)) as [e|] eqn:He.
  - intros [= <-]. by rewrite He.
  - intros (cw & _ & (c & _ & (e & _ & [= <-])%bind_Ok)%bind_Ok)%bind_Ok.
    split; [by apply insert_subseteq | by rewrite lookup_insert_eq].
Qed.

Lemma visit_Raise cws cs binder seed ctrl pi cl node s tree e :
  visit cws cs binder seed ctrl pi cl node s tree = Raise e →
  e = IndexError ∨ e = OverflowError.
Proof.
  unfold visit. destruct (tree !! (Z.lxor node s, cl)); [done|].
  unfold index.
  destruct (cws !! cl); simpl; [|intros [= <-]; by left].
  destruct (cs !! cl); simpl; [|intros [= <-]; by left].
  intros [He | (n & _ & [=])]%bind_Raise. by eapply eval_next_Raise.
Qed.

(** What makes the walk down to [level] return on a public share. *)
Definition long_enough (cws : list (CorrectionWord F)) (cs : list bytes)
    (level : nat) : Prop :=
  (level < length cws)%nat ∧ (level < length cs)%nat ∧
  Z.of_nat level < 65536 ∧
  ∀ l cw, (l ≤ level)%nat → cws !! l = Some cw → (VALUE_LEN ≤ length cw.2)%nat.

Lemma visit_returns cws cs binder seed ctrl pi level cl node s tree :
  long_enough cws cs level → (cl ≤ level)%nat →
  ∃ tree', visit cws cs binder seed ctrl pi cl node s tree = Ok tree'.
Proof.
  intros (Hcws & Hcs & Hl & Hlen) Hcl. unfold visit.
  destruct (tree !! (Z.lxor node s, cl)); [eauto|].
  destruct (index_returns cws cl ltac:(lia)) as (cw & Hcw & ->).
  destruct (index_returns cs cl ltac:(lia)) as (c & _ & ->).
  cbn [mbind result_bind].
  destruct (eval_next_returns seed ctrl cw c cl (Z.lxor node s) pi binder)
    as (e & -> & _); [by eapply Hlen | lia | simpl; eauto].
Qed.

Lemma eval_level_Ok cws cs binder level prefix cl seed ctrl pi tree st' :
  eval_level cws cs binder level prefix cl (seed, ctrl, pi, tree) = Ok st' →
  ∃ tree1 tree' seed' ctrl' y' pi',
    st' = (seed', ctrl', pi', tree') ∧
    visit cws cs binder seed ctrl pi cl
      (Z.shiftr prefix (Z.of_nat (level - cl))) 0 tree = Ok tree1 ∧
    visit cws cs binder seed ctrl pi cl
      (Z.shiftr prefix (Z.of_nat (level - cl))) 1 tree1 = Ok tree' ∧
    tree' !! (Z.shiftr prefix (Z.of_nat (level - cl)), cl)
    = Some (seed', ctrl', y', pi').
Proof.
  unfold eval_level. cbn [for_each]. intros Hrun.
  set (node := Z.shiftr prefix (Z.of_nat (level - cl))) in *.
  apply bind_Ok in Hrun as (tree' & Hvisits & Hget).
  apply bind_Ok in Hvisits as (tree1 & Hv0 & Hv1).
  apply bind_Ok in Hv1 as (tree2 & Hv1 & [= ->]).
  destruct (tree' !! (node, cl)) as [[[[s c] y] p]|] eqn:Hnode; [|done].
  injection Hget as <-. by exists tree1, tree', s, c, y, p.
Qed.

Lemma eval_level_dom cws cs binder level prefix cl seed ctrl pi tree
    seed' ctrl' pi' tree' :
  eval_level cws cs binder level prefix cl (seed, ctrl, pi, tree)
  = Ok (seed', ctrl', pi', tree') →
  let node := Z.shiftr prefix (Z.of_nat (level - cl)) in
  tree ⊆ tree' ∧ is_Some (tree' !! (node, cl)) ∧
  is_Some (tree' !! (Z.lxor node 1, cl)).
Proof.
  intros (t1 & t' & s & c & y & p & [= <- <- <- <-] & Hv0 & Hv1 & Hget)
    %eval_level_Ok node. subst node.
  apply visit_Ok in Hv0 as [Hsub0 _]. apply visit_Ok in Hv1 as [Hsub1 Hsib].
  split; [by etrans|]. split; [by rewrite Hget | done].
Qed.

Lemma eval_level_Raise cws cs binder level prefix cl st e :
  eval_level cws cs binder level prefix cl st = Raise e →
  e = IndexError ∨ e = OverflowError.
Proof.
  destruct st as [[[seed ctrl] pi] tree]. unfold eval_level. cbn [for_each].
  set (node := Z.shiftr prefix (Z.of_nat (level - cl))).
  intros [Hvisits | (tree' & Hvisits & Hget)]%bind_Raise.
  - apply bind_Raise in Hvisits as [Hv0 | (tree1 & _ & Hv1)];
      [by eapply visit_Raise|].
    apply bind_Raise in Hv1 as [Hv1 | (tree2 & _ & [=])].
    by eapply visit_Raise.
  - exfalso.
    apply bind_Ok in Hvisits as (tree1 & Hv0 & Hv1).
    apply bind_Ok in Hv1 as (tree2 & Hv1 & [= ->]).
    apply visit_Ok in Hv0 as [_ [e0 He0]]. apply visit_Ok in Hv1 as [Hsub _].
    rewrite Z.lxor_0_r in He0.
    rewrite (lookup_weaken _ _ _ _ He0 Hsub) in Hget.
    by destruct e0 as [[[? ?] ?] ?].
Qed.

Lemma eval_level_returns cws cs binder level prefix cl st :
  long_enough cws cs level → (cl ≤ level)%nat →
  ∃ st', eval_level cws cs binder level prefix cl st = Ok st'.
Proof.
  intros Hlong Hcl.
  destruct (eval_level cws cs binder level prefix cl st) as [st'|e] eqn:Hrun;
    [eauto|exfalso].
  destruct st as [[[seed ctrl] pi] tree]. unfold eval_level in Hrun.
  cbn [for_each] in Hrun.
  set (node := Z.shiftr prefix (Z.of_nat (level - cl))) in Hrun.
  destruct (visit_returns cws cs binder seed ctrl pi level cl node 0 tree)
    as [tree1 Hv0]; [done..|].
  destruct (visit_returns cws cs binder seed ctrl pi level cl node 1 tree1)
    as [tree2 Hv1]; [done..|].
  rewrite Hv0 in Hrun. cbn [mbind result_bind] in Hrun.
  rewrite Hv1 in Hrun. cbn [mbind result_bind mret result_ret] in Hrun.
  apply visit_Ok in Hv0 as [_ [e0 He0]]. apply visit_Ok in Hv1 as [Hsub _].
  rewrite Z.lxor_0_r in He0.
  rewrite (lookup_weaken _ _ _ _ He0 Hsub) in Hrun.
  by destruct e0 as [[[? ?] ?] ?].
Qed.

(** The nodes on the way to [prefix], and their siblings, are in [tree]. *)
Definition visited (level : nat) (prefix : Z) (n : nat) (tree : Tree)
    : Prop :=
  ∀ cl, (cl < n)%nat →
    is_Some (tree !! (Z.shiftr prefix (Z.of_nat (level - cl)), cl)) ∧
    is_Some (tree !! (Z.lxor (Z.shiftr prefix (Z.of_nat (level - cl))) 1, cl)).

Lemma visited_weaken (level : nat) (prefix : Z) (n : nat)
    (tree tree' : Tree) :
  tree ⊆ tree' → visited level prefix n tree → visited level prefix n tree'.
Proof.
  intros Hsub Hv cl Hcl. destruct (Hv cl Hcl) as [H1 H2].
  split; by eapply lookup_weaken_is_Some.
Qed.

Lemma walk_dom cws cs binder level prefix n st st' :
  for_each (eval_level cws cs binder level prefix) (seq 0 n) st = Ok st' →
  st.2 ⊆ st'.2 ∧ visited level prefix n st'.2.
Proof.
  revert st'. induction n as [|n IH]; intros st'.
  - intros [= <-]. split; [done|]. intros cl Hcl. lia.
  - rewrite seq_S, for_each_snoc. intros (st1 & Hrun & Hstep)%bind_Ok.
    destruct (IH _ Hrun) as [Hsub Hv].
    destruct st1 as [[[s1 c1] p1] t1], st' as [[[s' c'] p'] t'].
    apply eval_level_dom in Hstep as (Hsub' & Hn & Hsib).
    cbn [snd] in *. split; [by etrans|].
    intros cl Hcl. destruct (decide (cl = n)) as [->|Hne]; [done|].
    eapply visited_weaken; [done|done|lia].
Qed.

Lemma walk_Raise cws cs binder level prefix l st e :
  for_each (eval_level cws cs binder level prefix) l st = Raise e →
  e = IndexError ∨ e = OverflowError.
Proof.
  intros (cl & s & _ & Hcl)%for_each_Raise. by eapply eval_level_Raise.
Qed.

Lemma walk_returns cws cs binder level prefix st :
  long_enough cws cs level →
  ∃ st', for_each (eval_level cws cs binder level prefix)
           (seq 0 (level + 1)) st = Ok st'.
Proof.
  intros Hlong.
  destruct (for_each_returns (eval_level cws cs binder level prefix)
              (λ _, True) (seq 0 (level + 1)) st) as (st' & Hrun & _);
    [|done|by exists st'].
  intros cl s [_ Hcl]%elem_of_seq _.
  destruct (eval_level_returns cws cs binder level prefix cl s Hlong)
    as [s' Hs']; [lia|by exists s'].
Qed.

Lemma eval_prefix_Ok agg_id cws cs init_seed level binder prefix pi tree
    pi' tree' :
  eval_prefix agg_id cws cs init_seed level binder prefix (pi, tree)
  = Ok (pi', tree') →
  prefix < 2 ^ Z.of_nat (level + 1) ∧
  ∃ seed' ctrl',
    for_each (eval_level cws cs binder level prefix) (seq 0 (level + 1))
      (init_seed, Field2.of_int agg_id, pi, tree)
    = Ok (seed', ctrl', pi', tree').
Proof.
  unfold eval_prefix.
  destruct (2 ^ Z.of_nat (level + 1) <=? prefix) eqn:Hlong; [done|].
  intros ([[[s c] p] t] & Hrun & [= <- <-])%bind_Ok.
  split; [by apply Z.leb_gt | by exists s, c].
Qed.

Lemma eval_prefix_dom agg_id cws cs init_seed level binder prefix pi tree
    pi' tree' :
  eval_prefix agg_id cws cs init_seed level binder prefix (pi, tree)
  = Ok (pi', tree') →
  tree ⊆ tree' ∧ visited level prefix (level + 1) tree'.
Proof.
  intros (_ & s & c & Hrun)%eval_prefix_Ok.
  by apply walk_dom in Hrun.
Qed.

(** The first loop of [eval] raises [ValueError] on a prefix that is too
    long, and otherwise only what indexing the public share or encoding
    the level raises. *)
Lemma eval_prefix_Raise agg_id cws cs init_seed level binder prefix st e :
  eval_prefix agg_id cws cs init_seed level binder prefix st = Raise e →
  (e = ValueError "prefix too long" ∧ 2 ^ Z.of_nat (level + 1) ≤ prefix) ∨
  e = IndexError ∨ e = OverflowError.
Proof.
  destruct st as [pi tree]. unfold eval_prefix.
  destruct (2 ^ Z.of_nat (level + 1) <=? prefix) eqn:Hlong.
  - intros [= <-]. left. split; [done | by apply Z.leb_le].
  - intros [Hrun | ([[[s c] p] t] & _ & [=])]%bind_Raise.
    right. by eapply walk_Raise.
Qed.

Lemma eval_prefix_returns agg_id cws cs init_seed level binder prefix st :
  long_enough cws cs level → prefix < 2 ^ Z.of_nat (level + 1) →
  ∃ st', eval_prefix agg_id cws cs init_seed level binder prefix st = Ok st'.
Proof.
  intros Hlong Hp. destruct st as [pi tree]. unfold eval_prefix.
  rewrite (proj2 (Z.leb_gt _ _) Hp).
  destruct (walk_returns cws cs binder level prefix
              (init_seed, Field2.of_int agg_id, pi, tree) Hlong)
    as ([[[s c] p] t] & ->).
  simpl. eauto.
Qed.

Lemma prefixes_dom agg_id cws cs init_seed level binder prefixes st st' :
  for_each (eval_prefix agg_id cws cs init_seed level binder) prefixes st
  = Ok st' →
  st.2 ⊆ st'.2 ∧
  ∀ p, p ∈ prefixes →
    p < 2 ^ Z.of_nat (level + 1) ∧ visited level p (level + 1) st'.2.
Proof.
  revert st. induction prefixes as [|p ps IH]; intros st.
  - intros [= <-]. split; [done|]. by intros p Hp%elem_of_nil.
  - cbn [for_each]. intros (st1 & Hp & Hps)%bind_Ok.
    destruct (IH _ Hps) as [Hsub Hvis].
    destruct st as [pi tree], st1 as [pi1 tree1].
    destruct (eval_prefix_Ok _ _ _ _ _ _ _ _ _ _ _ Hp) as [Hlt _].
    apply eval_prefix_dom in Hp as [Hsub1 Hv1]. cbn [snd] in *.
    split; [by etrans|].
    intros q [->|Hq]%elem_of_cons; [|by apply Hvis].
    split; [done | by eapply visited_weaken].
Qed.

Lemma prefixes_returns agg_id cws cs init_seed level binder prefixes st :
  long_enough cws cs level →
  (∀ p, p ∈ prefixes → p < 2 ^ Z.of_nat (level + 1)) →
  ∃ st', for_each (eval_prefix agg_id cws cs init_seed level binder)
           prefixes st = Ok st'.
Proof.
  intros Hlong Hps.
  destruct (for_each_returns
              (eval_prefix agg_id cws cs init_seed level binder)
              (λ _, True) prefixes st) as (st' & Hrun & _);
    [|done|by exists st'].
  intros p s Hp _.
  destruct (eval_prefix_returns agg_id cws cs init_seed level binder p s)
    as [s' Hs']; [done | by apply Hps | by exists s'].
Qed.
(** *** The walk of [eval]: what the entries are *)

Section Walk.
Variable agg_id : Z.
Variable cws : list (CorrectionWord F).
Variable cs : list bytes.
Variable init_seed binder : bytes.

(** Every entry of the tree is the state at its node. *)
Definition tree_ok (tree : Tree) : Prop :=
  ∀ node l e, tree !! (node, l) = Some e →
    state_at agg_id cws cs init_seed binder (S l) node = Ok e.

(** [(seed, ctrl, pi)] is the state in which the walk arrives at the
    parent of [node]. *)
Definition parent_state (seed : bytes) (ctrl : Field2.t) (pi : bytes)
    (cl : nat) (node : Z) : Prop :=
  ∃ y, state_at agg_id cws cs init_seed binder cl (Z.shiftr node 1)
       = Ok (seed, ctrl, y, pi).

Lemma visit_ok seed ctrl pi cl node s tree tree' :
  tree_ok tree →
  parent_state seed ctrl pi cl (Z.lxor node s) ∨
    is_Some (tree !! (Z.lxor node s, cl)) →
  visit cws cs binder seed ctrl pi cl node s tree = Ok tree' →
  tree_ok tree'.
Proof.
  intros Hok Hpre. unfold visit.
  destruct (tree !! (Z.lxor node s, cl)) as [e|] eqn:He.
  { by intros [= <-]. }
  destruct Hpre as [[y Hy] | [? [=]]].
  intros (cw & Hcw & (c & Hc & (e & He' & [= <-])%bind_Ok)%bind_Ok)%bind_Ok.
  intros node' l e' Hlook.
  destruct (decide ((Z.lxor node s, cl) = (node', l))) as [[= <- <-]|Hne].
  - rewrite lookup_insert_eq in Hlook. injection Hlook as <-.
    cbn [state_at]. rewrite Hy. cbn [mbind result_bind].
    rewrite Hcw. cbn [mbind result_bind]. rewrite Hc. done.
  - rewrite lookup_insert_ne in Hlook by done. by apply Hok.
Qed.

Lemma eval_level_ok level prefix cl seed ctrl pi tree
    seed' ctrl' pi' tree' :
  let node := Z.shiftr prefix (Z.of_nat (level - cl)) in
  tree_ok tree →
  parent_state seed ctrl pi cl node ∨
    (is_Some (tree !! (node, cl)) ∧ is_Some (tree !! (Z.lxor node 1, cl))) →
  eval_level cws cs binder level prefix cl (seed, ctrl, pi, tree)
  = Ok (seed', ctrl', pi', tree') →
  tree_ok tree' ∧
  ∃ y', state_at agg_id cws cs init_seed binder (S cl) node
        = Ok (seed', ctrl', y', pi').
Proof.
  intros node Hok Hpre
    (t1 & t' & s & c & y & p & [= <- <- <- <-] & Hv0 & Hv1 & Hget)
    %eval_level_Ok.
  fold node in Hv0, Hv1, Hget.
  assert (tree_ok t1) as Hok1.
  { eapply visit_ok; [exact Hok | | exact Hv0].
    rewrite Z.lxor_0_r. destruct Hpre as [Hp | [Hn _]]; [by left | by right]. }
  assert (tree_ok tree') as Hok'.
  { eapply visit_ok; [exact Hok1 | | exact Hv1].
    destruct Hpre as [Hp | [_ Hn]].
    - left. unfold parent_state. by rewrite lxor_1_parent.
    - right. apply visit_Ok in Hv0 as [Hsub _].
      by eapply lookup_weaken_is_Some. }
  split; [done|]. exists y. by apply Hok'.
Qed.

(** The invariant of the walk down to [prefix], before level [cl]. *)
Definition walk_inv (level : nat) (prefix : Z) (cl : nat)
    (st : bytes * Field2.t * bytes * Tree) : Prop :=
  tree_ok st.2 ∧
  ((∃ y, state_at agg_id cws cs init_seed binder cl
           (Z.shiftr prefix (Z.of_nat (level + 1 - cl)))
         = Ok (st.1.1.1, st.1.1.2, y, st.1.2)) ∨
   (cl = 0%nat ∧
    is_Some (st.2 !! (Z.shiftr prefix (Z.of_nat level), 0%nat)) ∧
    is_Some (st.2 !! (Z.lxor (Z.shiftr prefix (Z.of_nat level)) 1, 0%nat)))).

Lemma walk_ok level prefix n st st' :
  (n ≤ level + 1)%nat →
  walk_inv level prefix 0 st →
  for_each (eval_level cws cs binder level prefix) (seq 0 n) st = Ok st' →
  walk_inv level prefix n st'.
Proof.
  intros Hn Hst. revert st'. induction n as [|n IH]; intros st'.
  { by intros [= <-]. }
  rewrite seq_S, for_each_snoc. intros (st1 & Hrun & Hstep)%bind_Ok.
  destruct (IH ltac:(lia) _ Hrun) as [Hok Hpre].
  destruct st1 as [[[s1 c1] p1] t1], st' as [[[s' c'] p'] t'].
  cbn [fst snd plus] in *.
  assert (Z.shiftr (Z.shiftr prefix (Z.of_nat (level - n))) 1
          = Z.shiftr prefix (Z.of_nat (level + 1 - n))) as Hparent.
  { rewrite Z.shiftr_shiftr by lia. f_equal. lia. }
  destruct (eval_level_ok level prefix n s1 c1 p1 t1 s' c' p' t')
    as [Hok' [y' Hy']]; [done | | done |].
  - destruct Hpre as [[y Hy] | (-> & H0 & H1)].
    + left. exists y. by rewrite Hparent.
    + right. by rewrite Nat.sub_0_r.
  - split; [done|]. left. exists y'.
    by replace (level + 1 - S n)%nat with (level - n)%nat by lia.
Qed.
Lemma eval_prefix_ok level prefix pi tree pi' tree' :
  0 ≤ prefix →
  tree_ok tree →
  pi = ROOT_PROOF ∨
    (is_Some (tree !! (0, 0%nat)) ∧ is_Some (tree !! (1, 0%nat))) →
  eval_prefix agg_id cws cs init_seed level binder prefix (pi, tree)
  = Ok (pi', tree') →
  tree_ok tree' ∧
  is_Some (tree' !! (0, 0%nat)) ∧ is_Some (tree' !! (1, 0%nat)) ∧
  ∃ s c y, state_at agg_id cws cs init_seed binder (S level) prefix
           = Ok (s, c, y, pi').
Proof.
  intros Hp Hok Hpi (Hlt & s & c & Hrun)%eval_prefix_Ok.
  pose proof (root_node_cases prefix level (conj Hp Hlt)) as Hroot.
  assert (walk_inv level prefix 0
            (init_seed, Field2.of_int agg_id, pi, tree)) as Hinv.
  { split; [done|]. cbn [fst snd]. destruct Hpi as [-> | [H0 H1]].
    - left. by exists [].
    - right. split; [done|].
      by destruct Hroot as [[-> ->] | [-> ->]]. }
  destruct (walk_ok level prefix (level + 1) _ _ (Nat.le_refl _) Hinv Hrun)
    as [Hok' Hstate].
  apply walk_dom in Hrun as [_ Hvis]. cbn [fst snd] in *.
  destruct (Hvis 0%nat ltac:(lia)) as [Hn Hsib].
  rewrite Nat.sub_0_r in Hn, Hsib.
  split; [done|].
  split; [by destruct Hroot as [[Hr Hx] | [Hr Hx]]; rewrite Hr, Hx in *|].
  split; [by destruct Hroot as [[Hr Hx] | [Hr Hx]]; rewrite Hr, Hx in *|].
  destruct Hstate as [[y Hy] | [? _]]; [|lia].
  rewrite Nat.sub_diag, Z.shiftr_0_r in Hy.
  replace (level + 1)%nat with (S level) in Hy by lia.
  by exists s, c, y.
Qed.

(** After the first loop of [eval] over non-negative prefixes, the tree
    holds the states of its nodes, and [pi_proof] is the proof at the
    last prefix. *)
Lemma prefixes_ok level prefixes pi tree :
  (∀ p, p ∈ prefixes → 0 ≤ p) →
  for_each (eval_prefix agg_id cws cs init_seed level binder) prefixes
    (ROOT_PROOF, ∅) = Ok (pi, tree) →
  tree_ok tree ∧
  match last prefixes with
  | None => pi = ROOT_PROOF
  | Some p =>
      is_Some (tree !! (0, 0%nat)) ∧ is_Some (tree !! (1, 0%nat)) ∧
      ∃ s c y, state_at agg_id cws cs init_seed binder (S level) p
               = Ok (s, c, y, pi)
  end.
Proof.
  revert pi tree. induction prefixes as [|p ps IH] using rev_ind;
    intros pi tree Hpos.
  - intros [= <- <-]. split; [|done]. intros node l e Hlook.
    by rewrite lookup_empty in Hlook.
  - rewrite for_each_snoc, last_snoc.
    intros ([pi1 tree1] & Hps & Hp)%bind_Ok.
    destruct (IH pi1 tree1) as [Hok Hlast]; [|done|].
    { intros q Hq. apply Hpos. apply elem_of_app. by left. }
    eapply eval_prefix_ok; [| exact Hok | | exact Hp].
    + apply Hpos. apply elem_of_app. right. by left.
    + destruct (last ps); [right|left]; [by destruct Hlast as (?&?&?)|done].
Qed.
(** *** Reading the tree: path proof, output share and share of [beta] *)

(** The value stored at a node, where there is one. *)
Definition y_in (tree : Tree) (node : Z) (l : nat) : list F :=
  match tree !! (node, l) with
  | Some (_, _, y, _) => y
  | None => []
  end.

Lemma lookup_y_Ok tree node l :
  is_Some (tree !! (node, l)) →
  lookup_y tree node l = Ok (y_in tree node l).
Proof.
  unfold lookup_y, y_in. intros [[[[s c] y] pi] ->]. done.
Qed.

Lemma lookup_y_None tree node l :
  tree !! (node, l) = None → lookup_y tree node l = Raise KeyError.
Proof. unfold lookup_y. by intros ->. Qed.

(** What the path-proof loops feed to SHA3 for one prefix. *)
Definition path_bytes (tree : Tree) (level : nat) (prefix : Z) : bytes :=
  mjoin ((λ cl,
            let node := Z.shiftr prefix (Z.of_nat (level - cl)) in
            encode_vec
              (vec_sub (y_in tree node cl)
                 (vec_add (y_in tree (Z.shiftl node 1) (cl + 1))
                    (y_in tree (Z.lor (Z.shiftl node 1) 1) (cl + 1)))))
         <$> seq 0 level).

(** The children of a visited node of a level above the last were
    visited. *)
Lemma visited_children level prefix tree cl :
  visited level prefix (level + 1) tree → (cl < level)%nat →
  let node := Z.shiftr prefix (Z.of_nat (level - cl)) in
  is_Some (tree !! (node, cl)) ∧
  is_Some (tree !! (Z.shiftl node 1, (cl + 1)%nat)) ∧
  is_Some (tree !! (Z.lor (Z.shiftl node 1) 1, (cl + 1)%nat)).
Proof.
  intros Hvis Hcl node.
  destruct (Hvis cl ltac:(lia)) as [Hn _].
  destruct (Hvis (cl + 1)%nat ltac:(lia)) as [Hm Hsib].
  split; [done|].
  assert (node = Z.shiftr (Z.shiftr prefix (Z.of_nat (level - (cl + 1)))) 1)
    as ->.
  { unfold node. rewrite Z.shiftr_shiftr by lia. f_equal. lia. }
  by destruct (children_cases
                 (Z.shiftr prefix (Z.of_nat (level - (cl + 1)))))
    as [[-> ->] | [-> ->]].
Qed.

Lemma path_prefix_returns level prefix tree acc :
  visited level prefix (level + 1) tree →
  path_prefix tree level prefix acc
  = Ok (acc ++ path_bytes tree level prefix).
Proof.
  intros Hvis. unfold path_prefix, path_bytes.
  assert (∀ n, (n ≤ level)%nat →
    for_each (path_level tree level prefix) (seq 0 n) acc
    = Ok (acc ++ mjoin ((λ cl,
            let node := Z.shiftr prefix (Z.of_nat (level - cl)) in
            encode_vec
              (vec_sub (y_in tree node cl)
                 (vec_add (y_in tree (Z.shiftl node 1) (cl + 1))
                    (y_in tree (Z.lor (Z.shiftl node 1) 1) (cl + 1)))))
         <$> seq 0 n))) as Hloop; [|by apply Hloop].
  induction n as [|n IH]; intros Hn.
  - simpl. by rewrite app_nil_r.
  - rewrite seq_S, for_each_snoc, IH by lia. cbn [mbind result_bind].
    destruct (visited_children level prefix tree n Hvis ltac:(lia))
      as (Hy & Hy0 & Hy1).
    unfold path_level.
    rewrite !lookup_y_Ok by done. cbn [mbind result_bind mret result_ret].
    rewrite fmap_app, join_app. cbn [fmap list_fmap mjoin list_join].
    by rewrite app_nil_r, app_assoc.
Qed.

Lemma path_returns level prefixes tree acc :
  (∀ p, p ∈ prefixes → visited level p (level + 1) tree) →
  for_each (path_prefix tree level) prefixes acc
  = Ok (acc ++ mjoin (path_bytes tree level <$> prefixes)).
Proof.
  revert acc. induction prefixes as [|p ps IH]; intros acc Hvis.
  - simpl. by rewrite app_nil_r.
  - cbn [for_each]. rewrite path_prefix_returns by (apply Hvis; left).
    cbn [mbind result_bind]. rewrite IH.
    + cbn [fmap list_fmap mjoin list_join]. by rewrite app_assoc.
    + intros q Hq. apply Hvis. by right.
Qed.

Lemma out_share_returns level prefixes tree :
  (∀ p, p ∈ prefixes → visited level p (level + 1) tree) →
  mapM (λ prefix, y ← lookup_y tree prefix level;
                  mret (if agg_id =? 0 then y else vec_neg y)) prefixes
  = Ok ((λ prefix, if agg_id =? 0 then y_in tree prefix level
                   else vec_neg (y_in tree prefix level)) <$> prefixes).
Proof.
  intros Hvis. apply mapM_Ok. intros p Hp.
  destruct (Hvis p Hp level ltac:(lia)) as [Hn _].
  rewrite Nat.sub_diag, Z.shiftr_0_r in Hn.
  by rewrite lookup_y_Ok.
Qed.
(** *** [eval], once its first loop is through *)

(** The result of [eval], read off the tree. *)
Definition eval_result (level : nat) (prefixes : list Z) (pi : bytes)
    (tree : Tree) : list F * list (list F) * bytes :=
  (let beta_share := vec_add (y_in tree 0 0) (y_in tree 1 0) in
   if agg_id =? 1 then vec_neg beta_share else beta_share,
   (λ prefix, if agg_id =? 0 then y_in tree prefix level
              else vec_neg (y_in tree prefix level)) <$> prefixes,
   pi ++ sha3_256 (mjoin (path_bytes tree level <$> prefixes))).

Lemma eval_unfold level prefixes :
  agg_id < SHARES → (level < BITS)%nat → NoDup prefixes →
  eval agg_id cws cs init_seed level prefixes binder
  = '(pi_proof, prefix_tree_share) ←
      for_each (eval_prefix agg_id cws cs init_seed level binder)
        prefixes (ROOT_PROOF, ∅);
    hashed ← for_each (path_prefix prefix_tree_share level) prefixes [];
    out_share ←
      mapM (λ prefix, y ← lookup_y prefix_tree_share prefix level;
                      mret (if agg_id =? 0 then y else vec_neg y))
           prefixes;
    y0 ← lookup_y prefix_tree_share 0 0;
    y1 ← lookup_y prefix_tree_share 1 0;
    mret (if agg_id =? 1 then vec_neg (vec_add y0 y1) else vec_add y0 y1,
          out_share, pi_proof ++ sha3_256 hashed).
Proof.
  intros Hagg Hlevel Hdup. unfold eval.
  rewrite (proj2 (Z.leb_gt _ _) Hagg).
  rewrite (proj2 (Nat.leb_gt _ _) Hlevel).
  apply size_list_to_set_NoDup in Hdup. by rewrite Hdup, Nat.eqb_refl.
Qed.

Lemma eval_after_walk level prefixes pi tree :
  agg_id < SHARES → (level < BITS)%nat → NoDup prefixes →
  for_each (eval_prefix agg_id cws cs init_seed level binder) prefixes
    (ROOT_PROOF, ∅) = Ok (pi, tree) →
  eval agg_id cws cs init_seed level prefixes binder
  = _ ← lookup_y tree 0 0; _ ← lookup_y tree 1 0;
    Ok (eval_result level prefixes pi tree).
Proof.
  intros Hagg Hlevel Hdup Hwalk. rewrite eval_unfold, Hwalk by done.
  cbn [mbind result_bind].
  destruct (prefixes_dom _ _ _ _ _ _ _ _ _ Hwalk) as [_ Hvis].
  cbn [snd] in Hvis.
  rewrite path_returns by (intros p Hp; by apply Hvis).
  cbn [mbind result_bind].
  rewrite out_share_returns by (intros p Hp; by apply Hvis).
  cbn [mbind result_bind].
  destruct (tree !! (0, 0%nat)) as [e0|] eqn:E0;
    [|by rewrite !(lookup_y_None tree 0 0) by done].
  rewrite !(lookup_y_Ok tree 0 0) by (by rewrite E0).
  cbn [mbind result_bind].
  destruct (tree !! (1, 0%nat)) as [e1|] eqn:E1;
    [|by rewrite !(lookup_y_None tree 1 0) by done].
  by rewrite !(lookup_y_Ok tree 1 0) by (by rewrite E1).
Qed.

(** When a prefix of the list is a bit string of [level + 1] bits, the
    entries of the two nodes of level 0 are in the tree. *)
Lemma roots_visited level prefixes pi tree p :
  for_each (eval_prefix agg_id cws cs init_seed level binder) prefixes
    (ROOT_PROOF, ∅) = Ok (pi, tree) →
  p ∈ prefixes → 0 ≤ p →
  is_Some (tree !! (0, 0%nat)) ∧ is_Some (tree !! (1, 0%nat)).
Proof.
  intros Hwalk Hp Hpos.
  destruct (prefixes_dom _ _ _ _ _ _ _ _ _ Hwalk) as [_ Hvis].
  destruct (Hvis p Hp) as [Hlt Hv]. cbn [snd] in Hv.
  destruct (Hv 0%nat ltac:(lia)) as [Hn Hsib].
  rewrite Nat.sub_0_r in Hn, Hsib.
  by destruct (root_node_cases p level (conj Hpos Hlt))
    as [[Hr Hx] | [Hr Hx]]; rewrite Hr, Hx in *.
Qed.

Lemma eval_returns_after_walk level prefixes pi tree p :
  agg_id < SHARES → (level < BITS)%nat → NoDup prefixes →
  for_each (eval_prefix agg_id cws cs init_seed level binder) prefixes
    (ROOT_PROOF, ∅) = Ok (pi, tree) →
  p ∈ prefixes → 0 ≤ p →
  eval agg_id cws cs init_seed level prefixes binder
  = Ok (eval_result level prefixes pi tree).
Proof.
  intros Hagg Hlevel Hdup Hwalk Hp Hpos.
  rewrite (eval_after_walk level prefixes pi tree) by done.
  destruct (roots_visited level prefixes pi tree p) as [H0 H1]; [done..|].
  by rewrite !lookup_y_Ok by done.
Qed.
Lemma y_in_state tree node l :
  tree_ok tree → is_Some (tree !! (node, l)) →
  ∃ e, state_at agg_id cws cs init_seed binder (S l) node = Ok e ∧
       y_in tree node l = e.1.2.
Proof.
  intros Hok [e He]. exists e. split; [by apply Hok|].
  unfold y_in. rewrite He. by destruct e as [[[? ?] ?] ?].
Qed.
End Walk.
(** *** The exceptions of [eval] *)

Lemma prefixes_Raise agg_id cws cs init_seed level binder prefixes st e :
  for_each (eval_prefix agg_id cws cs init_seed level binder) prefixes st
  = Raise e →
  (e = ValueError "prefix too long" ∧
   ∃ p, p ∈ prefixes ∧ 2 ^ Z.of_nat (level + 1) ≤ p) ∨
  e = IndexError ∨ e = OverflowError.
Proof.
  intros (p & s & Hp & Hraise)%for_each_Raise.
  apply eval_prefix_Raise in Hraise as [[-> Hlong] | Hother]; [left|by right].
  split; [done | by exists p].
Qed.


(** Every exception of [eval], and the inputs it is raised on. *)
Lemma eval_Raise agg_id cws cs init_seed level prefixes binder e :
  eval agg_id cws cs init_seed level prefixes binder = Raise e →
  (∃ msg, e = ValueError msg ∧
     (SHARES ≤ agg_id ∨ (BITS ≤ level)%nat ∨ ¬ NoDup prefixes ∨
      ∃ p, p ∈ prefixes ∧ 2 ^ Z.of_nat (level + 1) ≤ p)) ∨
  e = IndexError ∨ e = OverflowError ∨
  (e = KeyError ∧ ∀ p, p ∈ prefixes → p < 0).
Proof.
  destruct (decide (SHARES ≤ agg_id)) as [Hagg|Hagg].
  { unfold eval. rewrite (proj2 (Z.leb_le _ _) Hagg).
    intros [= <-]. left. eexists. split; [done | by left]. }
  destruct (decide (BITS ≤ level)%nat) as [Hlevel|Hlevel].
  { unfold eval. rewrite (proj2 (Z.leb_gt SHARES agg_id) ltac:(lia)).
    rewrite (proj2 (Nat.leb_le _ _) Hlevel).
    intros [= <-]. left. eexists. split; [done | right; by left]. }
  destruct (decide (NoDup prefixes)) as [Hdup|Hdup].
  2:{ unfold eval. rewrite (proj2 (Z.leb_gt SHARES agg_id) ltac:(lia)).
      rewrite (proj2 (Nat.leb_gt BITS level) ltac:(lia)).
      destruct (size (list_to_set (C:=gset Z) prefixes) =? length prefixes)%nat
        eqn:Hsize.
      { apply Nat.eqb_eq, size_list_to_set_NoDup in Hsize. done. }
      intros [= <-]. left. eexists. split; [done | right; right; by left]. }
  destruct (for_each (eval_prefix agg_id cws cs init_seed level binder)
              prefixes (ROOT_PROOF, ∅)) as [[pi tree]|e'] eqn:Hwalk.
  - rewrite (eval_after_walk agg_id cws cs init_seed binder level prefixes
               pi tree) by (done || lia).
    intros Hraise. right. right. right.
    assert (e = KeyError ∧
            (tree !! (0, 0%nat) = None ∨ tree !! (1, 0%nat) = None))
      as [-> Hnone].
    { unfold lookup_y in Hraise.
      destruct (tree !! (0, 0%nat)) as [[[[? ?] ?] ?]|];
        [|injection Hraise as <-; split; [done | by left]].
      destruct (tree !! (1, 0%nat)) as [[[[? ?] ?] ?]|];
        [done | injection Hraise as <-; split; [done | by right]]. }
    split; [done|]. intros p Hp.
    destruct (decide (p < 0)) as [|Hpos]; [done|exfalso].
    destruct (roots_visited agg_id cws cs init_seed binder level prefixes
                pi tree p Hwalk Hp ltac:(lia)) as [[? H0] [? H1]].
    destruct Hnone; congruence.
  - rewrite eval_unfold, Hwalk by (done || lia). intros [= <-].
    apply prefixes_Raise in Hwalk as [[-> Hlong] | [-> | ->]];
      [left | right; by left | right; right; by left].
    eexists. split; [done | by do 3 right].
Qed.

Lemma eval_empty agg_id cws cs init_seed level binder :
  agg_id < SHARES → (level < BITS)%nat →
  eval agg_id cws cs init_seed level [] binder = Raise KeyError.
Proof.
  intros Hagg Hlevel.
  rewrite (eval_after_walk agg_id cws cs init_seed binder level [] ROOT_PROOF ∅);
    [done | done | done | constructor | done].
Qed.
(** *** An honest report: the two Aggregators' trees *)

Section Honest.
Variable alpha : Z.
Variable beta : list F.
Variable binder : bytes.
Variable cws : list (CorrectionWord F).
Variable cs : list bytes.
Variable init_seed : bytes * bytes.

Hypothesis Hbeta : length beta = VALUE_LEN.
Hypothesis Hrelated :
  ∀ l node, (1 ≤ l ≤ BITS)%nat → 0 ≤ node < 2 ^ Z.of_nat l →
    related alpha beta cws cs init_seed binder l node.

Variable tree_0 tree_1 : Tree.
Hypothesis Hok_0 : tree_ok 0 cws cs init_seed.1 binder tree_0.
Hypothesis Hok_1 : tree_ok 1 cws cs init_seed.2 binder tree_1.

(** The two values at a node both trees hold differ by [beta] on the
    path of [alpha] and are the same off it. *)
Lemma honest_node node l :
  (l < BITS)%nat → 0 ≤ node < 2 ^ Z.of_nat (S l) →
  is_Some (tree_0 !! (node, l)) → is_Some (tree_1 !! (node, l)) →
  length (y_in tree_1 node l) = VALUE_LEN ∧
  y_in tree_0 node l
  = vec_add (y_in tree_1 node l)
      (if decide (node = alpha_node alpha (S l)) then beta
       else fzeros VALUE_LEN).
Proof.
  intros Hl Hnode H0 H1.
  destruct (y_in_state _ _ _ _ _ _ _ _ Hok_0 H0) as (e0 & He0 & ->).
  destruct (y_in_state _ _ _ _ _ _ _ _ Hok_1 H1) as (e1 & He1 & ->).
  destruct (Hrelated (S l) node ltac:(lia) Hnode)
    as (e0' & e1' & He0' & He1' & Hlen & _ & Hrel).
  rewrite He0 in He0'. rewrite He1 in He1'.
  injection He0' as <-. injection He1' as <-.
  split; [done|]. destruct (decide _); [done|]. subst e1.
  by rewrite <- Hlen, vec_add_zeros_r.
Qed.

Lemma honest_out_share prefix level :
  (level < BITS)%nat → 0 ≤ prefix < 2 ^ Z.of_nat (level + 1) →
  is_Some (tree_0 !! (prefix, level)) →
  is_Some (tree_1 !! (prefix, level)) →
  vec_add (y_in tree_0 prefix level) (vec_neg (y_in tree_1 prefix level))
  = if decide (prefix = alpha_node alpha (S level)) then beta
    else fzeros VALUE_LEN.
Proof.
  intros Hl Hp H0 H1.
  destruct (honest_node prefix level) as [Hlen ->]; [done | | done..|].
  { by replace (S level) with (level + 1)%nat by lia. }
  apply vec_add_neg_cancel. rewrite Hlen.
  destruct (decide _); [done|]. unfold fzeros. by rewrite length_replicate.
Qed.
(** Of the two children of a node, one is on the path of [alpha] when
    the node is, and none when it is not. *)
Lemma alpha_children node l :
  (S l < BITS)%nat →
  let a := alpha_node alpha (S (S l)) in
  let c0 := Z.shiftl node 1 in
  let c1 := Z.lor (Z.shiftl node 1) 1 in
  (node = alpha_node alpha (S l) ∧ c0 = a ∧ c1 ≠ a) ∨
  (node = alpha_node alpha (S l) ∧ c0 ≠ a ∧ c1 = a) ∨
  (node ≠ alpha_node alpha (S l) ∧ c0 ≠ a ∧ c1 ≠ a).
Proof.
  intros Hl a c0 c1.
  pose proof (alpha_node_parent alpha (S l) Hl) as Hpa. fold a in Hpa.
  pose proof (shiftl_1_parent node) as Hp0. fold c0 in Hp0.
  pose proof (lor_1_parent node) as Hp1. fold c1 in Hp1.
  pose proof (shiftl_1_bit node) as Hb0. fold c0 in Hb0.
  pose proof (lor_1_bit node) as Hb1. fold c1 in Hb1.
  destruct (decide (node = alpha_node alpha (S l))) as [Hn|Hn].
  - destruct (land_1_cases a) as [Ha|Ha]; [left|right; left].
    + split; [done|]. split.
      * apply node_eq_parent_bit; congruence.
      * intros Hc. rewrite Hc in Hb1. lia.
    + split; [done|]. split.
      * intros Hc. rewrite Hc in Hb0. lia.
      * apply node_eq_parent_bit; congruence.
  - right. right. split; [done|]. split; intros Hc; apply Hn; congruence.
Qed.

Lemma path_term_eq (y yl yr d dl dr : list F) :
  length y = VALUE_LEN → length yl = VALUE_LEN → length yr = VALUE_LEN →
  (d = beta ∧ dl = beta ∧ dr = fzeros VALUE_LEN) ∨
  (d = beta ∧ dl = fzeros VALUE_LEN ∧ dr = beta) ∨
  (d = fzeros VALUE_LEN ∧ dl = fzeros VALUE_LEN ∧ dr = fzeros VALUE_LEN) →
  vec_sub (vec_add y d) (vec_add (vec_add yl dl) (vec_add yr dr))
  = vec_sub y (vec_add yl yr).
Proof.
  intros Hy Hyl Hyr [(-> & -> & ->) | [(-> & -> & ->) | (-> & -> & ->)]];
    pointwise.
Qed.

(** The two Aggregators hash the same bytes into their path proofs. *)
Lemma honest_path_bytes prefix level :
  (level < BITS)%nat → 0 ≤ prefix < 2 ^ Z.of_nat (level + 1) →
  visited level prefix (level + 1) tree_0 →
  visited level prefix (level + 1) tree_1 →
  path_bytes tree_0 level prefix = path_bytes tree_1 level prefix.
Proof.
  intros Hl Hp Hv0 Hv1. unfold path_bytes. f_equal.
  apply Forall_fmap_ext, Forall_forall. intros cl [_ Hcl]%elem_of_seq.
  cbn zeta. f_equal. rewrite Nat.add_1_r.
  set (node := Z.shiftr prefix (Z.of_nat (level - cl))).
  destruct (visited_children level prefix tree_0 cl Hv0 ltac:(lia))
    as (H0 & H0l & H0r).
  destruct (visited_children level prefix tree_1 cl Hv1 ltac:(lia))
    as (H1 & H1l & H1r).
  rewrite Nat.add_1_r in H0l, H0r, H1l, H1r. fold node in H0, H0l, H0r, H1, H1l, H1r.
  pose proof (prefix_node_range prefix level cl ltac:(lia) Hp) as Hnode.
  fold node in Hnode.
  destruct (honest_node node cl) as [Hlen ->]; [lia | done..|].
  destruct (honest_node (Z.shiftl node 1) (S cl)) as [Hlenl ->];
    [lia | apply child_range; by rewrite shiftl_1_parent | done..|].
  destruct (honest_node (Z.lor (Z.shiftl node 1) 1) (S cl)) as [Hlenr ->];
    [lia | apply child_range; by rewrite lor_1_parent | done..|].
  apply path_term_eq; [done..|].
  destruct (alpha_children node cl ltac:(lia))
    as [(Hn & Hc0 & Hc1) | [(Hn & Hc0 & Hc1) | (Hn & Hc0 & Hc1)]];
    [left | right; left | right; right];
    repeat split;
    first [ by apply decide_True | by apply decide_False ].
Qed.
End Honest.
(** *** An honest report, from [gen] to the two [eval]s *)

Lemma honest_run alpha beta binder rand level prefixes :
  0 ≤ alpha < 2 ^ Z.of_nat BITS → length beta = VALUE_LEN →
  length rand = RAND_SIZE → Z.of_nat BITS ≤ 65536 →
  (level < BITS)%nat → NoDup prefixes → prefixes ≠ [] →
  (∀ p, p ∈ prefixes → 0 ≤ p < 2 ^ Z.of_nat (level + 1)) →
  ∃ init_seed cws cs b0 o0 q0 b1 o1 q1,
    gen alpha beta binder rand = Ok (init_seed, cws, cs) ∧
    eval 0 cws cs init_seed.1 level prefixes binder = Ok (b0, o0, q0) ∧
    eval 1 cws cs init_seed.2 level prefixes binder = Ok (b1, o1, q1) ∧
    length o0 = length prefixes ∧ length o1 = length prefixes ∧
    zip_with vec_add o0 o1
    = (λ p, if decide (p = Z.shiftr alpha (Z.of_nat (BITS - level - 1)))
            then beta else fzeros VALUE_LEN) <$> prefixes ∧
    q0 = q1.
Proof.
  intros Halpha Hbeta Hrand Hbits Hlevel Hdup Hne Hprefixes.
  destruct (gen_spec alpha beta binder rand Halpha Hbeta Hrand Hbits)
    as (cws & cs & Hgen & Lcws & Lcs & Hlen & Hrel).
  cbn zeta in Hgen, Hrel.
  set (init_seed := (take SEED_SIZE rand, drop SEED_SIZE rand)) in *.
  assert (long_enough cws cs level) as Hlong.
  { repeat split; [lia..|]. intros l cw _ Hcw.
    rewrite Forall_lookup in Hlen. by rewrite (Hlen l cw Hcw). }
  assert (∀ p, p ∈ prefixes → p < 2 ^ Z.of_nat (level + 1)) as Hshort.
  { intros p Hp. by apply Hprefixes. }
  assert (∀ p, p ∈ prefixes → 0 ≤ p) as Hpos.
  { intros p Hp. by apply Hprefixes. }
  destruct (prefixes_returns 0 cws cs init_seed.1 level binder prefixes
              (ROOT_PROOF, ∅) Hlong Hshort) as ([pi0 tree0] & Hwalk0).
  destruct (prefixes_returns 1 cws cs init_seed.2 level binder prefixes
              (ROOT_PROOF, ∅) Hlong Hshort) as ([pi1 tree1] & Hwalk1).
  destruct (prefixes_ok _ _ _ _ _ _ _ _ _ Hpos Hwalk0) as [Hok0 Hlast0].
  destruct (prefixes_ok _ _ _ _ _ _ _ _ _ Hpos Hwalk1) as [Hok1 Hlast1].
  destruct (prefixes_dom _ _ _ _ _ _ _ _ _ Hwalk0) as [_ Hvis0].
  destruct (prefixes_dom _ _ _ _ _ _ _ _ _ Hwalk1) as [_ Hvis1].
  cbn [snd] in Hvis0, Hvis1.
  destruct (last prefixes) as [pl|] eqn:Hpl;
    [|by apply last_None in Hpl].
  assert (pl ∈ prefixes) as Hpl_in.
  { apply last_Some in Hpl as [ps ->]. apply elem_of_app. right. by left. }
  exists init_seed, cws, cs.
  eexists _, _, _, _, _, _. split; [exact Hgen|].
  split.
  { eapply (eval_returns_after_walk 0); [done | done | done | exact Hwalk0
      | exact Hpl_in | by apply Hpos]. }
  split.
  { eapply (eval_returns_after_walk 1); [done | done | done | exact Hwalk1
      | exact Hpl_in | by apply Hpos]. }
  split; [by rewrite length_fmap|]. split; [by rewrite length_fmap|].
  split.
  - rewrite zip_with_fmap_l, zip_with_fmap_r, zip_with_diag.
    apply Forall_fmap_ext, Forall_forall. intros p Hp.
    change (0 =? 0) with true. change (1 =? 0) with false. cbv iota.
    replace (BITS - level - 1)%nat with (BITS - S level)%nat by lia.
    destruct (Hvis0 p Hp) as [_ Hv0]. destruct (Hvis1 p Hp) as [_ Hv1].
    destruct (Hv0 level ltac:(lia)) as [Hn0 _].
    destruct (Hv1 level ltac:(lia)) as [Hn1 _].
    rewrite Nat.sub_diag, Z.shiftr_0_r in Hn0, Hn1.
    by apply (honest_out_share alpha beta binder cws cs init_seed Hbeta Hrel
                tree0 tree1 Hok0 Hok1 p level Hlevel (Hprefixes p Hp)).
  - f_equal.
    + destruct Hlast0 as (_ & _ & s0 & c0 & y0 & Hs0).
      destruct Hlast1 as (_ & _ & s1 & c1 & y1 & Hs1).
      destruct (Hrel (S level) pl ltac:(lia))
        as (e0 & e1 & He0 & He1 & _ & Hpi & _).
      { pose proof (Hprefixes pl Hpl_in) as Hr.
        by replace (S level) with (level + 1)%nat by lia. }
      rewrite Hs0 in He0. rewrite Hs1 in He1.
      injection He0 as <-. injection He1 as <-. done.
    + do 2 f_equal. apply Forall_fmap_ext, Forall_forall. intros p Hp.
      destruct (Hvis0 p Hp) as [_ Hv0]. destruct (Hvis1 p Hp) as [_ Hv1].
      by apply (honest_path_bytes alpha beta binder cws cs init_seed Hbeta
                  Hrel tree0 tree1 Hok0 Hok1 p level Hlevel
                  (Hprefixes p Hp)).
Qed.
(** *** The claims about [Vidpf] *)

(** C1. For every [alpha] of [BITS] bits, [beta] of length [VALUE_LEN],
    binder and [rand] of [RAND_SIZE] bytes, [gen] returns a report, and on
    it the two Aggregators' [eval], at the same level and the same list of
    prefixes, return output shares whose componentwise sum is, prefix by
    prefix, [beta] at the prefix of [alpha] of [level + 1] bits and the
    zero vector at every other prefix. (The list is one that [eval]
    accepts: prefixes of [level + 1] bits, without duplicates, at least
    one; on any other list [eval] raises, and [gen] raises on [BITS] above
    [2^16].) *)
Theorem out_shares_sum_to_beta_on_path alpha beta binder rand level prefixes :
  0 ≤ alpha < 2 ^ Z.of_nat BITS → length beta = VALUE_LEN →
  length rand = RAND_SIZE → Z.of_nat BITS ≤ 65536 →
  (level < BITS)%nat → NoDup prefixes → prefixes ≠ [] →
  (∀ p, p ∈ prefixes → 0 ≤ p < 2 ^ Z.of_nat (level + 1)) →
  ∃ init_seed cws cs beta_share_0 out_share_0 proof_0
    beta_share_1 out_share_1 proof_1,
    gen alpha beta binder rand = Ok (init_seed, cws, cs) ∧
    eval 0 cws cs init_seed.1 level prefixes binder
    = Ok (beta_share_0, out_share_0, proof_0) ∧
    eval 1 cws cs init_seed.2 level prefixes binder
    = Ok (beta_share_1, out_share_1, proof_1) ∧
    length out_share_0 = length prefixes ∧
    length out_share_1 = length prefixes ∧
    ∀ k prefix y_0 y_1,
      prefixes !! k = Some prefix →
      out_share_0 !! k = Some y_0 → out_share_1 !! k = Some y_1 →
      vec_add y_0 y_1
      = if decide (prefix = Z.shiftr alpha (Z.of_nat (BITS - level - 1)))
        then beta else fzeros VALUE_LEN.
Proof.
  intros Halpha Hbeta Hrand Hbits Hlevel Hdup Hne Hprefixes.
  destruct (honest_run alpha beta binder rand level prefixes)
    as (init_seed & cws & cs & b0 & o0 & q0 & b1 & o1 & q1
        & Hgen & He0 & He1 & Hl0 & Hl1 & Hsum & _); [done..|].
  exists init_seed, cws, cs, b0, o0, q0, b1, o1, q1.
  repeat (split; [done|]).
  intros k prefix y_0 y_1 Hk H0 H1.
  apply (f_equal (λ l, l !! k)) in Hsum.
  rewrite lookup_zip_with, list_lookup_fmap, H0, H1, Hk in Hsum.
  by injection Hsum.
Qed.

(** C2. On every honestly generated report, and every level and list of
    prefixes that [eval] accepts, the proof bytes ([pi_proof] followed by
    [path_proof]) that [eval] returns for Aggregator 0 are those it
    returns for Aggregator 1: [verify] on the two is true. *)
Theorem eval_proofs_agree alpha beta binder rand level prefixes :
  0 ≤ alpha < 2 ^ Z.of_nat BITS → length beta = VALUE_LEN →
  length rand = RAND_SIZE → Z.of_nat BITS ≤ 65536 →
  (level < BITS)%nat → NoDup prefixes → prefixes ≠ [] →
  (∀ p, p ∈ prefixes → 0 ≤ p < 2 ^ Z.of_nat (level + 1)) →
  ∃ init_seed cws cs beta_share_0 out_share_0 proof_0
    beta_share_1 out_share_1 proof_1,
    gen alpha beta binder rand = Ok (init_seed, cws, cs) ∧
    eval 0 cws cs init_seed.1 level prefixes binder
    = Ok (beta_share_0, out_share_0, proof_0) ∧
    eval 1 cws cs init_seed.2 level prefixes binder
    = Ok (beta_share_1, out_share_1, proof_1) ∧
    proof_0 = proof_1 ∧ verify proof_0 proof_1 = true.
Proof.
  intros Halpha Hbeta Hrand Hbits Hlevel Hdup Hne Hprefixes.
  destruct (honest_run alpha beta binder rand level prefixes)
    as (init_seed & cws & cs & b0 & o0 & q0 & b1 & o1 & q1
        & Hgen & He0 & He1 & _ & _ & _ & Hq); [done..|].
  exists init_seed, cws, cs, b0, o0, q0, b1, o1, q1.
  repeat (split; [done|]). unfold verify. by apply bool_decide_eq_true.
Qed.


(** C10. With an empty list of prefixes, and [agg_id] and [level] that
    pass the checks, [eval] fails on the missing entry of a node of
    level 0 ([KeyError]) and returns no empty output share. When the list
    has a prefix that is a bit string of [level + 1] bits, the entries of
    the nodes 0 and 1 of level 0 are in the tree once its first loop is
    through, and no lookup of [eval] in the tree fails: it raises neither
    [KeyError] nor the [TypeError] of unpacking a missing entry; on a
    public share that is long enough and a list it accepts, it returns. *)
Theorem eval_needs_a_prefix agg_id cws cs init_seed level binder :
  agg_id < SHARES → (level < BITS)%nat →
  eval agg_id cws cs init_seed level [] binder = Raise KeyError ∧
  ∀ prefixes p,
    p ∈ prefixes → 0 ≤ p < 2 ^ Z.of_nat (level + 1) →
    (∀ pi tree,
       for_each (eval_prefix agg_id cws cs init_seed level binder)
         prefixes (ROOT_PROOF, ∅) = Ok (pi, tree) →
       is_Some (tree !! (0, 0%nat)) ∧ is_Some (tree !! (1, 0%nat))) ∧
    eval agg_id cws cs init_seed level prefixes binder ≠ Raise KeyError ∧
    eval agg_id cws cs init_seed level prefixes binder ≠ Raise TypeError ∧
    (long_enough cws cs level → NoDup prefixes →
     (∀ q, q ∈ prefixes → q < 2 ^ Z.of_nat (level + 1)) →
     ∃ r, eval agg_id cws cs init_seed level prefixes binder = Ok r).
Proof.
  intros Hagg Hlevel. split; [by apply eval_empty|].
  intros prefixes p Hp Hrange. split; [|split; [|split]].
  - intros pi tree Hwalk.
    apply (roots_visited agg_id cws cs init_seed binder level prefixes
             pi tree p Hwalk Hp). lia.
  - intros [(msg & [=] & _) | [[=] | [[=] | [_ Hneg]]]]%eval_Raise.
    specialize (Hneg p Hp). lia.
  - by intros [(msg & [=] & _) | [[=] | [[=] | [[=] _]]]]%eval_Raise.
  - intros Hlong Hdup Hshort.
    destruct (prefixes_returns agg_id cws cs init_seed level binder prefixes
                (ROOT_PROOF, ∅) Hlong Hshort) as ([pi tree] & Hwalk).
    eexists.
    apply (eval_returns_after_walk agg_id cws cs init_seed binder level
             prefixes pi tree p); (done || lia).
Qed.
(** *** [eval_next] and [gen]: when they return, and what *)

Lemma add_masked_short w w_cw mask :
  (length w_cw < length w)%nat → add_masked w w_cw mask = Raise IndexError.
Proof.
  intros Hshort.
  destruct (add_masked w w_cw mask) as [y|e] eqn:Hrun.
  - exfalso. unfold add_masked in Hrun.
    destruct (mapM_Ok_inv _ _ _ Hrun (length w_cw)) as [b Hb].
    { apply elem_of_seq. lia. }
    destruct (index_returns w (length w_cw) Hshort) as (a & _ & Ha).
    rewrite Ha in Hb. cbn [mbind result_bind] in Hb. unfold index in Hb.
    by rewrite (lookup_ge_None_2 w_cw (length w_cw)) in Hb by lia.
  - by rewrite (add_masked_Raise _ _ _ _ Hrun).
Qed.

Lemma node_hash_overflow node level seed :
  65536 ≤ Z.of_nat level → node_hash node level seed = Raise OverflowError.
Proof.
  intros Hl. unfold node_hash, to_le_bytes, fits.
  change (256 ^ Z.of_nat 2) with 65536.
  replace (Z.of_nat level <? 65536) with false by lia.
  by rewrite andb_false_r.
Qed.

Lemma length_next xof n : length (next xof n).1 = n.
Proof. unfold next. cbn [fst]. by rewrite length_fmap, length_seq. Qed.



(** [eval_next] returns on these correction words and levels only. *)
Lemma eval_next_Ok_inv prev_seed prev_ctrl cw cs_proof level node pi binder e :
  eval_next prev_seed prev_ctrl cw cs_proof level node pi binder = Ok e →
  (VALUE_LEN ≤ length cw.2)%nat ∧ Z.of_nat level < 65536.
Proof.
  destruct cw as [[seed_cw ctrl_cw] w_cw]. cbn [snd].
  unfold eval_next. destruct (extend prev_seed binder) as [s t].
  match goal with
  | |- context [convert ?s ?l ?b] =>
      destruct (convert s l b) as [next_seed w] eqn:Cn
  end.
  pose proof (convert_length _ _ _ _ _ Cn) as Lw.
  intros (y & Hy & (h & Hh & _)%bind_Ok)%bind_Ok. split.
  - destruct (decide (VALUE_LEN ≤ length w_cw)%nat); [done|].
    by rewrite add_masked_short in Hy by lia.
  - destruct (decide (Z.of_nat level < 65536)); [done|].
    by rewrite node_hash_overflow in Hh by lia.
Qed.

(** One level of [gen]: it returns when the level fits two bytes, with
    one more correction word and one more proof, of these sizes. *)
Lemma gen_level_Ok alpha beta binder i st :
  Z.of_nat i < 65536 →
  ∃ st' seed_cw ctrl_cw w_cw c,
    gen_level alpha beta binder i st = Ok st' ∧
    correction_words st'
    = correction_words st ++ [(seed_cw, ctrl_cw, w_cw)] ∧
    cs_proofs st' = cs_proofs st ++ [c] ∧
    length seed_cw = SEED_SIZE ∧
    length w_cw = (length beta `min` VALUE_LEN)%nat ∧
    length c = 32%nat.
Proof.
  intros Hi. destruct st as [[s0 s1] [c0 c1] cws css].
  unfold gen_level. cbn [seed ctrl correction_words cs_proofs fst snd].
  set (node := Z.shiftr alpha (Z.of_nat (BITS - i - 1))).
  destruct (extend s0 binder) as [[s0l s0r] [t0l t0r]] eqn:E0.
  destruct (extend s1 binder) as [[s1l s1r] [t1l t1r]] eqn:E1.
  destruct (extend_length _ _ _ _ E0) as [L0l L0r].
  destruct (extend_length _ _ _ _ E1) as [L1l L1r].
  cbn [fst snd] in L0l, L0r, L1l, L1r.
  destruct (land_1_cases node) as [Hbit|Hbit]; rewrite Hbit;
    cbn [Z.eqb pick fst snd];
    match goal with
    | |- context [convert ?s i binder] =>
        destruct (convert s i binder) as [seed_0 w_0] eqn:C0
    end;
    match goal with
    | |- context [convert ?s i binder] =>
        destruct (convert s i binder) as [seed_1 w_1] eqn:C1
    end;
    pose proof (convert_length _ _ _ _ _ C0) as Lw0;
    pose proof (convert_length _ _ _ _ _ C1) as Lw1;
    destruct (node_hash_returns node i seed_0 Hi) as [proof_0 Hp0];
    destruct (node_hash_returns node i seed_1 Hi) as [proof_1 Hp1];
    pose proof (node_hash_length _ _ _ _ Hp0) as Lp0;
    pose proof (node_hash_length _ _ _ _ Hp1) as Lp1;
    rewrite Hp0, Hp1; cbn [mbind result_bind mret result_ret];
    eexists _, _, _, _, _; (split; [reflexivity|]);
    cbn [seed ctrl correction_words cs_proofs fst snd];
    (split; [reflexivity|]); (split; [reflexivity|]).
  all: split; [rewrite length_xor; lia|].
  all: split; [|rewrite length_xor; lia].
  all: unfold vec_add, vec_sub; rewrite length_fmap, !length_zip_with; lia.
Qed.

Lemma gen_level_overflow alpha beta binder i st :
  65536 ≤ Z.of_nat i → gen_level alpha beta binder i st = Raise OverflowError.
Proof.
  intros Hi. destruct st as [[s0 s1] [c0 c1] cws css].
  unfold gen_level. cbn [seed ctrl correction_words cs_proofs fst snd].
  destruct (extend s0 binder) as [[s0l s0r] [t0l t0r]].
  destruct (extend s1 binder) as [[s1l s1r] [t1l t1r]].
  destruct (_ =? 0); cbn [pick fst snd];
    match goal with
    | |- context [convert ?s i binder] =>
        destruct (convert s i binder) as [seed_0 w_0]
    end;
    match goal with
    | |- context [convert ?s i binder] =>
        destruct (convert s i binder) as [seed_1 w_1]
    end.
  all: rewrite (node_hash_overflow _ _ seed_0) by done; reflexivity.
Qed.

(** The loop of [gen] over the levels below [n]. *)
Lemma gen_levels_Ok alpha beta binder n st :
  Z.of_nat n ≤ 65536 →
  ∃ st' cws cs,
    for_each (gen_level alpha beta binder) (seq 0 n) st = Ok st' ∧
    correction_words st' = correction_words st ++ cws ∧
    cs_proofs st' = cs_proofs st ++ cs ∧
    length cws = n ∧ length cs = n ∧
    Forall (λ cw : CorrectionWord F,
              length cw.1.1 = SEED_SIZE ∧
              length cw.2 = (length beta `min` VALUE_LEN)%nat) cws ∧
    Forall (λ c : bytes, length c = 32%nat) cs.
Proof.
  induction n as [|n IH]; intros Hn.
  - exists st, [], []. by rewrite !app_nil_r.
  - destruct IH as (st1 & cws & cs & Hrun & Hcws & Hcs & Lcws & Lcs
                    & Fcws & Fcs); [lia|].
    destruct (gen_level_Ok alpha beta binder n st1)
      as (st' & seed_cw & ctrl_cw & w_cw & c & Hstep & Hcws' & Hcs'
          & Lseed & Lw & Lc); [lia|].
    exists st', (cws ++ [(seed_cw, ctrl_cw, w_cw)]), (cs ++ [c]).
    rewrite seq_S, for_each_snoc, Hrun. cbn [mbind result_bind Nat.add].
    split; [done|]. rewrite Hcws', Hcs', Hcws, Hcs, !length_app, Lcws, Lcs.
    rewrite <- !(assoc_L (++)). repeat (split; [done || (simpl; lia)|]).
    split; apply Forall_app; (split; [done|]); by repeat constructor.
Qed.

Lemma gen_levels_overflow alpha beta binder n st :
  65536 < Z.of_nat n →
  for_each (gen_level alpha beta binder) (seq 0 n) st = Raise OverflowError.
Proof.
  intros Hn. set (m := Z.to_nat 65536).
  assert (Z.of_nat m = 65536) as Hm by (subst m; lia). clearbody m.
  replace n with (m + S (n - m - 1))%nat by lia.
  rewrite seq_app. cbn [seq Nat.add].
  apply for_each_raises_at.
  - intros i s [_ Hi]%elem_of_seq.
    destruct (gen_level_Ok alpha beta binder i s) as (s' & ? & ? & ? & ? & -> & _);
      [lia | eauto].
  - intros s. apply gen_level_overflow. lia.
Qed.


(** X3. What [gen] returns: the two halves of [rand] as the keys, 16
    bytes each, and a public share of [BITS] correction words and [BITS]
    proofs; every seed correction is 16 bytes, every value correction as
    long as the shorter of [beta] and [VALUE_LEN], every proof 32 bytes. *)
Theorem gen_shape alpha beta binder rand init_seed cws cs :
  gen alpha beta binder rand = Ok (init_seed, cws, cs) →
  init_seed = (take SEED_SIZE rand, drop SEED_SIZE rand) ∧
  length init_seed.1 = SEED_SIZE ∧ length init_seed.2 = SEED_SIZE ∧
  length cws = BITS ∧ length cs = BITS ∧
  Forall (λ cw : CorrectionWord F,
            length cw.1.1 = SEED_SIZE ∧
            length cw.2 = (length beta `min` VALUE_LEN)%nat) cws ∧
  Forall (λ c : bytes, length c = 32%nat) cs.
Proof.
  unfold gen. destruct (2 ^ Z.of_nat BITS <=? alpha); [done|].
  destruct (length rand =? RAND_SIZE)%nat eqn:Hl; [|done].
  apply Nat.eqb_eq in Hl. cbn [negb].
  destruct (decide (Z.of_nat BITS ≤ 65536)) as [Hb|Hb];
    [|by rewrite gen_levels_overflow by lia].
  edestruct (gen_levels_Ok alpha beta binder BITS)
    as (st & cws' & cs' & -> & Hcws & Hcs & Lcws & Lcs & Fcws & Fcs);
    [done|].
  cbn [mbind result_bind mret result_ret correction_words cs_proofs]
    in Hcws, Hcs |- *.
  intros [= <- <- <-]. rewrite Hcws, Hcs. cbn [fst snd app].
  rewrite length_take, length_drop, Hl. unfold RAND_SIZE, SEED_SIZE.
  repeat (split; [done || lia|]). done.
Qed.
(** *** [eval]: when it returns *)

(** [visit] writes entries of its own level only. *)
Lemma visit_other_levels cws cs binder seed ctrl pi cl node s tree tree'
    (n : Z) (l : nat) :
  visit cws cs binder seed ctrl pi cl node s tree = Ok tree' →
  l ≠ cl → tree' !! (n, l) = tree !! (n, l).
Proof.
  unfold visit. destruct (tree !! (Z.lxor node s, cl)); [by intros [= <-]|].
  intros (cw & _ & (c & _ & (e & _ & [= <-])%bind_Ok)%bind_Ok)%bind_Ok Hl.
  apply lookup_insert_ne. congruence.
Qed.

(** No entry of [tree] is of level [n] or more. *)
Definition fresh_from (n : nat) (tree : Tree) : Prop :=
  ∀ node l, (n ≤ l)%nat → tree !! (node, l) = None.

(** What a level of the walk needs of the public share, when the tree has
    nothing of that level yet. *)
Definition level_ok (cws : list (CorrectionWord F)) (cs : list bytes)
    (cl : nat) : Prop :=
  ∃ cw c, cws !! cl = Some cw ∧ cs !! cl = Some c ∧
          (VALUE_LEN ≤ length cw.2)%nat ∧ Z.of_nat cl < 65536.

Lemma eval_level_fresh cws cs binder level prefix cl st st' :
  eval_level cws cs binder level prefix cl st = Ok st' →
  fresh_from cl st.2 → fresh_from (S cl) st'.2 ∧ level_ok cws cs cl.
Proof.
  destruct st as [[[seed ctrl] pi] tree]. cbn [snd].
  intros (t1 & t' & s & c & y & p & -> & Hv0 & Hv1 & _)%eval_level_Ok Hfresh.
  cbn [snd]. split.
  - intros n l Hl.
    rewrite (visit_other_levels _ _ _ _ _ _ _ _ _ _ _ n l Hv1) by lia.
    rewrite (visit_other_levels _ _ _ _ _ _ _ _ _ _ _ n l Hv0) by lia.
    apply Hfresh. lia.
  - unfold visit in Hv0. rewrite Hfresh in Hv0 by lia.
    apply bind_Ok in Hv0 as (cw & Hcw%index_Ok_inv & Hv0).
    apply bind_Ok in Hv0 as (c' & Hc%index_Ok_inv & Hv0).
    apply bind_Ok in Hv0 as (e & [Hlen Hcl]%eval_next_Ok_inv & _).
    by exists cw, c'.
Qed.

Lemma walk_needs cws cs binder level prefix n st st' :
  for_each (eval_level cws cs binder level prefix) (seq 0 n) st = Ok st' →
  fresh_from 0 st.2 →
  fresh_from n st'.2 ∧ ∀ cl, (cl < n)%nat → level_ok cws cs cl.
Proof.
  revert st'. induction n as [|n IH]; intros st' Hrun Hfresh.
  - injection Hrun as <-. split; [done | lia].
  - rewrite seq_S, for_each_snoc in Hrun.
    apply bind_Ok in Hrun as (st1 & Hrun & Hstep).
    destruct (IH _ Hrun Hfresh) as [Hfresh1 Hlevels].
    destruct (eval_level_fresh _ _ _ _ _ _ _ _ Hstep Hfresh1)
      as [Hfresh' Hn].
    split; [done|]. intros cl Hcl.
    destruct (decide (cl = n)) as [->|]; [done | apply Hlevels; lia].
Qed.

(** The first loop of [eval], over a list that is not empty, returns on
    long enough public shares only. *)
Lemma prefixes_need agg_id cws cs init_seed level binder prefixes pi st' :
  prefixes ≠ [] →
  for_each (eval_prefix agg_id cws cs init_seed level binder) prefixes
    (pi, ∅) = Ok st' →
  long_enough cws cs level.
Proof.
  destruct prefixes as [|p rest]; [done|]. intros _ Hrun. cbn in Hrun.
  apply bind_Ok in Hrun as ([pi' tree'] & Hp & _).
  apply eval_prefix_Ok in Hp as (_ & seed' & ctrl' & Hwalk).
  destruct (walk_needs _ _ _ _ _ _ _ _ Hwalk) as [_ Hlevels].
  { intros n l _. apply lookup_empty. }
  destruct (Hlevels level ltac:(lia)) as (cw & c & Hcw & Hc & _ & Hl).
  repeat split.
  - by eapply lookup_lt_Some.
  - by eapply lookup_lt_Some.
  - done.
  - intros l cw' Hl' Hcw'.
    destruct (Hlevels l ltac:(lia)) as (cw'' & _ & Hcw'' & _ & Hlen & _).
    by simplify_eq.
Qed.

(** Every key of [tree] is a negative node. *)
Definition keys_negative (tree : Tree) : Prop :=
  ∀ node l, is_Some (tree !! (node, l)) → node < 0.

Lemma keys_negative_empty : keys_negative ∅.
Proof. intros n l [e He]. by rewrite lookup_empty in He. Qed.

Lemma visit_negative cws cs binder seed ctrl pi cl node s tree tree' :
  node < 0 → 0 ≤ s → keys_negative tree →
  visit cws cs binder seed ctrl pi cl node s tree = Ok tree' →
  keys_negative tree'.
Proof.
  intros Hnode Hs Hneg. unfold visit.
  destruct (tree !! (Z.lxor node s, cl)); [by intros [= <-]|].
  intros (cw & _ & (c & _ & (e & _ & [= <-])%bind_Ok)%bind_Ok)%bind_Ok.
  intros n l Hn.
  destruct (decide ((Z.lxor node s, cl) = (n, l))) as [[= <- <-]|Hne].
  - pose proof (Z.lxor_nonneg node s). lia.
  - rewrite lookup_insert_ne in Hn by done. by eapply Hneg.
Qed.

Lemma eval_level_negative cws cs binder level prefix cl st st' :
  prefix < 0 → keys_negative st.2 →
  eval_level cws cs binder level prefix cl st = Ok st' →
  keys_negative st'.2.
Proof.
  destruct st as [[[seed ctrl] pi] tree]. cbn [snd]. intros Hp Hneg.
  intros (t1 & t' & s & c & y & p & -> & Hv0 & Hv1 & _)%eval_level_Ok.
  cbn [snd].
  assert (Z.shiftr prefix (Z.of_nat (level - cl)) < 0) as Hnode
    by by apply Z.shiftr_neg.
  eapply visit_negative; [exact Hnode | | | exact Hv1]; [lia|].
  eapply visit_negative; [exact Hnode | | exact Hneg | exact Hv0]. lia.
Qed.

Lemma prefixes_negative agg_id cws cs init_seed level binder prefixes st st' :
  (∀ p, p ∈ prefixes → p < 0) → keys_negative st.2 →
  for_each (eval_prefix agg_id cws cs init_seed level binder) prefixes st
  = Ok st' →
  keys_negative st'.2.
Proof.
  intros Hp. apply (for_each_invariant _ (λ st, keys_negative st.2)).
  intros p [pi tree] [pi' tree'] Hin Hneg
    (_ & seed' & ctrl' & Hwalk)%eval_prefix_Ok.
  cbn [snd] in *.
  exact (for_each_invariant (eval_level cws cs binder level p)
           (λ st, keys_negative st.2) (seq 0 (level + 1))
           (init_seed, Field2.of_int agg_id, pi, tree)
           (seed', ctrl', pi', tree')
           (λ cl s s' _, eval_level_negative cws cs binder level p cl s s'
                           (Hp p Hin)) Hneg Hwalk).
Qed.

(** What [eval] needs to return, and what it returns then. *)
Lemma eval_Ok_inv agg_id cws cs init_seed level prefixes binder r :
  eval agg_id cws cs init_seed level prefixes binder = Ok r →
  agg_id < SHARES ∧ (level < BITS)%nat ∧ NoDup prefixes ∧
  (∀ p, p ∈ prefixes → p < 2 ^ Z.of_nat (level + 1)) ∧
  (∃ p, p ∈ prefixes ∧ 0 ≤ p) ∧ long_enough cws cs level ∧
  ∃ pi tree,
    for_each (eval_prefix agg_id cws cs init_seed level binder) prefixes
      (ROOT_PROOF, ∅) = Ok (pi, tree) ∧
    is_Some (tree !! (0, 0%nat)) ∧ is_Some (tree !! (1, 0%nat)) ∧
    r = eval_result agg_id level prefixes pi tree.
Proof.
  intros Hr. pose proof Hr as Hr'. unfold eval in Hr'.
  destruct (SHARES <=? agg_id) eqn:Hagg; [done|].
  destruct (BITS <=? level)%nat eqn:Hlevel; [done|].
  destruct (size (list_to_set (C:=gset Z) prefixes) =? length prefixes)%nat
    eqn:Hsize; [|done].
  apply Nat.eqb_eq, size_list_to_set_NoDup in Hsize.
  apply Z.leb_gt in Hagg. apply Nat.leb_gt in Hlevel. cbn [negb] in Hr'.
  destruct (for_each (eval_prefix agg_id cws cs init_seed level binder)
              prefixes (ROOT_PROOF, ∅)) as [[pi tree]|e] eqn:Hwalk; [|done].
  clear Hr'.
  rewrite (eval_after_walk agg_id cws cs init_seed binder level prefixes
             pi tree) in Hr by done.
  destruct (tree !! (0, 0%nat)) as [e0|] eqn:H0;
    [|by rewrite (lookup_y_None tree 0 0) in Hr].
  destruct (tree !! (1, 0%nat)) as [e1|] eqn:H1;
    [|by rewrite (lookup_y_Ok tree 0 0), (lookup_y_None tree 1 0) in Hr].
  rewrite (lookup_y_Ok tree 0 0), (lookup_y_Ok tree 1 0) in Hr by done.
  cbn [mbind result_bind] in Hr. injection Hr as <-.
  destruct (prefixes_dom _ _ _ _ _ _ _ _ _ Hwalk) as [_ Hvis].
  assert (∃ p, p ∈ prefixes ∧ 0 ≤ p) as (p & Hp & Hp0).
  { destruct (decide (Exists (λ p, 0 ≤ p) prefixes)) as [Hex|Hex].
    - apply Exists_exists in Hex as (p & Hp & Hp0). eauto.
    - exfalso. apply not_Exists_Forall in Hex; [|apply _].
      rewrite Forall_forall in Hex.
      assert (keys_negative tree) as Hneg.
      { apply (prefixes_negative agg_id cws cs init_seed level binder
                 prefixes (ROOT_PROOF, ∅) (pi, tree)
                 (λ p Hp, proj1 (Z.nle_gt _ _) (Hex p Hp))
                 keys_negative_empty Hwalk). }
      specialize (Hneg 0 0%nat). rewrite H0 in Hneg.
      specialize (Hneg ltac:(eauto)). lia. }
  split; [done|]. split; [done|]. split; [done|].
  split; [intros q Hq; by apply Hvis|]. split; [eauto|]. split.
  - eapply prefixes_need; [|exact Hwalk]. intros ->.
    by apply elem_of_nil in Hp.
  - exists pi, tree. by rewrite H0, H1.
Qed.

Lemma eval_returns_if agg_id cws cs init_seed level prefixes binder :
  agg_id < SHARES → (level < BITS)%nat → NoDup prefixes →
  (∀ p, p ∈ prefixes → p < 2 ^ Z.of_nat (level + 1)) →
  (∃ p, p ∈ prefixes ∧ 0 ≤ p) → long_enough cws cs level →
  ∃ r, eval agg_id cws cs init_seed level prefixes binder = Ok r.
Proof.
  intros Hagg Hlevel Hdup Hshort (p & Hp & Hp0) Hlong.
  destruct (prefixes_returns agg_id cws cs init_seed level binder prefixes
              (ROOT_PROOF, ∅) Hlong Hshort) as ([pi tree] & Hwalk).
  eexists.
  by apply (eval_returns_after_walk agg_id cws cs init_seed binder level
              prefixes pi tree p).
Qed.

(** A key and a public share whose seeds and proofs, down to [level], are
    of the sizes of the XOF and of SHA3-256. *)
Definition well_sized (init_seed : bytes) (cws : list (CorrectionWord F))
    (cs : list bytes) (level : nat) : Prop :=
  length init_seed = SEED_SIZE ∧
  (∀ l cw, (l ≤ level)%nat → cws !! l = Some cw →
     length cw.1.1 = SEED_SIZE) ∧
  (∀ l c, (l ≤ level)%nat → cs !! l = Some c → length c = 32%nat).

(** X4. On a key and a public share of the right sizes, [eval] returns
    exactly when [agg_id] is 0 or 1, [level] below [BITS], the prefixes
    differ from one another and are below [2^(level+1)], one of them at
    least is not negative, and the public share is long enough: more than
    [level] correction words and proofs, the value corrections down to
    [level] of [VALUE_LEN] elements or more, [level] below [2^16]. *)
Theorem eval_returns_iff agg_id cws cs init_seed level prefixes binder :
  0 ≤ agg_id → well_sized init_seed cws cs level →
  (∃ r, eval agg_id cws cs init_seed level prefixes binder = Ok r) ↔
  agg_id < SHARES ∧ (level < BITS)%nat ∧ NoDup prefixes ∧
  (∀ p, p ∈ prefixes → p < 2 ^ Z.of_nat (level + 1)) ∧
  (∃ p, p ∈ prefixes ∧ 0 ≤ p) ∧
  (level < length cws)%nat ∧ (level < length cs)%nat ∧
  Z.of_nat level < 65536 ∧
  ∀ l cw, (l ≤ level)%nat → cws !! l = Some cw →
    (VALUE_LEN ≤ length cw.2)%nat.
Proof.
  intros _ _. split.
  - intros [r (? & ? & ? & ? & ? & (? & ? & ? & ?) & _)%eval_Ok_inv].
    done.
  - intros (? & ? & ? & ? & ? & ? & ? & ? & ?).
    by apply eval_returns_if.
Qed.

(** X5. [eval] does not refuse a negative prefix: on a list of negative
    prefixes only (the empty list is one), with [agg_id] and [level] that
    pass the checks and a public share of the right sizes that is long
    enough, it walks the tree and then fails on the missing entry of node
    0 of level 0. *)
Theorem eval_negative_prefixes agg_id cws cs init_seed level prefixes binder :
  0 ≤ agg_id < SHARES → (level < BITS)%nat → NoDup prefixes →
  well_sized init_seed cws cs level →
  long_enough cws cs level → (∀ p, p ∈ prefixes → p < 0) →
  eval agg_id cws cs init_seed level prefixes binder = Raise KeyError.
Proof.
  intros [_ Hagg] Hlevel Hdup _ Hlong Hneg.
  destruct (prefixes_returns agg_id cws cs init_seed level binder prefixes
              (ROOT_PROOF, ∅) Hlong) as ([pi tree] & Hwalk).
  { intros p Hp. specialize (Hneg p Hp).
    pose proof (Z.pow_pos_nonneg 2 (Z.of_nat (level + 1))). lia. }
  rewrite (eval_after_walk agg_id cws cs init_seed binder level prefixes
             pi tree) by done.
  rewrite (lookup_y_None tree 0 0); [done|].
  destruct (tree !! (0, 0%nat)) eqn:H0; [exfalso|done].
  assert (keys_negative tree) as Hkeys.
  { apply (prefixes_negative agg_id cws cs init_seed level binder prefixes
             (ROOT_PROOF, ∅) (pi, tree) Hneg keys_negative_empty Hwalk). }
  specialize (Hkeys 0 0%nat). rewrite H0 in Hkeys.
  specialize (Hkeys ltac:(eauto)). lia.
Qed.
(** *** [eval]: the shares, prefix by prefix *)

(** The value of the state at a node. *)
Definition y_at (agg_id : Z) (cws : list (CorrectionWord F))
    (cs : list bytes) (init_seed binder : bytes) (l : nat) (node : Z)
    : list F :=
  match state_at agg_id cws cs init_seed binder l node with
  | Ok (_, _, y, _) => y
  | Raise _ => []
  end.

(** The shares [eval] returns are read off the states of the nodes: the
    order of the walk and the other prefixes have no part in them. *)
Lemma eval_by_state agg_id cws cs init_seed level prefixes binder
    beta_share out_share proof :
  eval agg_id cws cs init_seed level prefixes binder
  = Ok (beta_share, out_share, proof) →
  (∀ p, p ∈ prefixes → 0 ≤ p) →
  beta_share
  = (let sum := vec_add (y_at agg_id cws cs init_seed binder 1 0)
                  (y_at agg_id cws cs init_seed binder 1 1) in
     if agg_id =? 1 then vec_neg sum else sum) ∧
  out_share
  = (λ p, if agg_id =? 0
          then y_at agg_id cws cs init_seed binder (S level) p
          else vec_neg (y_at agg_id cws cs init_seed binder (S level) p))
    <$> prefixes.
Proof.
  intros (Hagg & Hlevel & Hdup & Hshort & _ & Hlong & pi & tree & Hwalk
          & H0 & H1 & Hr)%eval_Ok_inv Hpos.
  unfold eval_result in Hr. injection Hr as -> -> ->.
  destruct (prefixes_ok _ _ _ _ _ _ _ _ _ Hpos Hwalk) as [Hok _].
  destruct (prefixes_dom _ _ _ _ _ _ _ _ _ Hwalk) as [_ Hvis].
  cbn [snd] in Hvis.
  assert (∀ node l, is_Some (tree !! (node, l)) →
            y_in tree node l
            = y_at agg_id cws cs init_seed binder (S l) node) as Hy.
  { intros node l Hn.
    destruct (y_in_state _ _ _ _ _ _ _ _ Hok Hn) as (e & He & ->).
    unfold y_at. rewrite He. by destruct e as [[[? ?] ?] ?]. }
  split; [by rewrite !Hy by done|].
  apply Forall_fmap_ext, Forall_forall. intros p Hp.
  destruct (Hvis p Hp) as [_ Hv]. destruct (Hv level ltac:(lia)) as [Hn _].
  rewrite Nat.sub_diag, Z.shiftr_0_r in Hn. by rewrite Hy.
Qed.

(** X6. Evaluating a list of prefixes gives, for each prefix, the share
    that evaluating that prefix alone gives, and the same share of
    [beta]: keeping the tree between prefixes changes no share. *)
Theorem eval_prefix_by_prefix agg_id cws cs init_seed level prefixes binder
    beta_share out_share proof :
  0 ≤ agg_id →
  eval agg_id cws cs init_seed level prefixes binder
  = Ok (beta_share, out_share, proof) →
  (∀ p, p ∈ prefixes → 0 ≤ p) →
  ∀ k p, prefixes !! k = Some p →
    ∃ y proof',
      out_share !! k = Some y ∧
      eval agg_id cws cs init_seed level [p] binder
      = Ok (beta_share, [y], proof').
Proof.
  intros _ Hrun Hpos k p Hk.
  assert (p ∈ prefixes) as Hp by by eapply list_elem_of_lookup_2.
  destruct (eval_by_state _ _ _ _ _ _ _ _ _ _ Hrun Hpos) as [Hb Ho].
  apply eval_Ok_inv in Hrun
    as (Hagg & Hlevel & Hdup & Hshort & _ & Hlong & _).
  destruct (eval_returns_if agg_id cws cs init_seed level [p] binder)
    as ([[b' o'] proof'] & Hone); [done | done | | | | done |].
  - apply NoDup_singleton.
  - intros q ->%list_elem_of_singleton. by apply Hshort.
  - exists p. split; [by apply list_elem_of_singleton | by apply Hpos].
  - destruct (eval_by_state _ _ _ _ _ _ _ _ _ _ Hone) as [Hb' Ho'].
    { intros q ->%list_elem_of_singleton. by apply Hpos. }
    eexists _, proof'. split.
    + rewrite Ho, list_lookup_fmap, Hk. reflexivity.
    + by rewrite Hone, Hb, Hb', Ho'.
Qed.

(** X7. The shares do not depend on the order of the prefixes: on a
    permutation of the list [eval] returns too, the same share of [beta],
    and for every prefix the share it returned before. *)
Theorem eval_permutation agg_id cws cs init_seed level prefixes prefixes'
    binder beta_share out_share proof :
  0 ≤ agg_id → prefixes ≡ₚ prefixes' →
  eval agg_id cws cs init_seed level prefixes binder
  = Ok (beta_share, out_share, proof) →
  (∀ p, p ∈ prefixes → 0 ≤ p) →
  ∃ out_share' proof',
    eval agg_id cws cs init_seed level prefixes' binder
    = Ok (beta_share, out_share', proof') ∧
    ∀ k k' p, prefixes !! k = Some p → prefixes' !! k' = Some p →
      out_share !! k = out_share' !! k'.
Proof.
  intros _ Hperm Hrun Hpos.
  destruct (eval_by_state _ _ _ _ _ _ _ _ _ _ Hrun Hpos) as [Hb Ho].
  apply eval_Ok_inv in Hrun
    as (Hagg & Hlevel & Hdup & Hshort & (p0 & Hp0 & Hp0') & Hlong & _).
  assert (∀ p, p ∈ prefixes' → p ∈ prefixes) as Hin.
  { intros p Hp. by rewrite Hperm. }
  destruct (eval_returns_if agg_id cws cs init_seed level prefixes' binder)
    as ([[b' o'] proof'] & Hrun'); [done | done | | | | done |].
  - by rewrite <- Hperm.
  - intros q Hq. by apply Hshort, Hin.
  - exists p0. split; [by rewrite <- Hperm | done].
  - destruct (eval_by_state _ _ _ _ _ _ _ _ _ _ Hrun') as [Hb' Ho'].
    { intros q Hq. by apply Hpos, Hin. }
    exists o', proof'. split; [by rewrite Hrun', Hb, Hb'|].
    intros k k' p Hk Hk'.
    by rewrite Ho, Ho', !list_lookup_fmap, Hk, Hk'.
Qed.

(** *** [eval]: the sizes of what it returns *)

Lemma eval_next_sizes prev_seed prev_ctrl cw cs_proof level node pi binder e :
  eval_next prev_seed prev_ctrl cw cs_proof level node pi binder = Ok e →
  length e.1.2 = VALUE_LEN ∧ length e.2 = (length pi `min` 32)%nat.
Proof.
  intros Hrun. pose proof (eval_next_Ok_inv _ _ _ _ _ _ _ _ _ Hrun) as [Hcw _].
  destruct cw as [[seed_cw ctrl_cw] w_cw]. cbn [snd] in Hcw. revert Hrun.
  unfold eval_next. destruct (extend prev_seed binder) as [s t].
  match goal with
  | |- context [convert ?s ?l ?b] =>
      destruct (convert s l b) as [next_seed w] eqn:Cn
  end.
  pose proof (convert_length _ _ _ _ _ Cn) as Lw.
  rewrite add_masked_Ok by lia. cbn [mbind result_bind].
  intros (h & _ & [= <-])%bind_Ok. cbn [fst snd].
  rewrite length_zip_with, length_xor, sha3_256_length. lia.
Qed.

Lemma state_at_sizes agg_id cws cs init_seed binder l node e :
  state_at agg_id cws cs init_seed binder l node = Ok e →
  length e.2 = 32%nat ∧ ((0 < l)%nat → length e.1.2 = VALUE_LEN).
Proof.
  revert node e. induction l as [|l IH]; intros node e; cbn [state_at].
  - intros [= <-]. split; [apply sha3_256_length | lia].
  - intros ([[[seed ctrl] y] pi] & Hparent & Hrest)%bind_Ok.
    apply bind_Ok in Hrest as (cw & _ & Hrest).
    apply bind_Ok in Hrest as (c & _ & Hnext).
    destruct (IH _ _ Hparent) as [Hpi _]. cbn [snd] in Hpi.
    destruct (eval_next_sizes _ _ _ _ _ _ _ _ _ Hnext) as [Hy Hpi'].
    split; [lia | done].
Qed.

(** X8. Whatever the public share, when [eval] returns on non-negative
    prefixes it returns one share per prefix, every share and the share
    of [beta] of [VALUE_LEN] elements, and a proof of 64 bytes. *)
Theorem eval_sizes agg_id cws cs init_seed level prefixes binder
    beta_share out_share proof :
  0 ≤ agg_id →
  eval agg_id cws cs init_seed level prefixes binder
  = Ok (beta_share, out_share, proof) →
  (∀ p, p ∈ prefixes → 0 ≤ p) →
  length out_share = length prefixes ∧
  Forall (λ y, length y = VALUE_LEN) out_share ∧
  length beta_share = VALUE_LEN ∧ length proof = 64%nat.
Proof.
  intros _ (Hagg & Hlevel & Hdup & Hshort & (p0 & Hp0 & Hp0') & Hlong & pi
          & tree & Hwalk & H0 & H1 & Hr)%eval_Ok_inv Hpos.
  unfold eval_result in Hr. injection Hr as -> -> ->.
  destruct (prefixes_ok _ _ _ _ _ _ _ _ _ Hpos Hwalk) as [Hok Hlast].
  destruct (prefixes_dom _ _ _ _ _ _ _ _ _ Hwalk) as [_ Hvis].
  cbn [snd] in Hvis.
  assert (∀ node l, is_Some (tree !! (node, l)) →
            length (y_in tree node l) = VALUE_LEN) as Hy.
  { intros node l Hn.
    destruct (y_in_state _ _ _ _ _ _ _ _ Hok Hn) as (e & He & ->).
    apply state_at_sizes in He as [_ He]. apply He. lia. }
  split; [by rewrite length_fmap|]. split; [|split].
  - apply Forall_fmap, Forall_forall. intros p Hp. cbn.
    destruct (Hvis p Hp) as [_ Hv]. destruct (Hv level ltac:(lia)) as [Hn _].
    rewrite Nat.sub_diag, Z.shiftr_0_r in Hn.
    destruct (agg_id =? 0); unfold vec_neg; rewrite ?length_fmap; by apply Hy.
  - destruct (agg_id =? 1); unfold vec_neg, vec_add;
      rewrite ?length_fmap, length_zip_with, !Hy by done; lia.
  - rewrite length_app, sha3_256_length.
    destruct (last prefixes) as [pl|] eqn:Hpl.
    + destruct Hlast as (_ & _ & s & c & y & Hs).
      apply state_at_sizes in Hs as [Hs _]. cbn [snd] in Hs. lia.
    + apply last_None in Hpl. subst prefixes. by apply elem_of_nil in Hp0.
Qed.

(** *** An honest report: the shares of [beta] *)

(** X9. On every honestly generated report, the shares of [beta] that the
    two Aggregators' [eval] return, at any level and on any list of
    prefixes that [eval] accepts, sum to [beta]. *)
Theorem beta_shares_sum_to_beta alpha beta binder rand level prefixes :
  0 ≤ alpha < 2 ^ Z.of_nat BITS → length beta = VALUE_LEN →
  length rand = RAND_SIZE → Z.of_nat BITS ≤ 65536 →
  (level < BITS)%nat → NoDup prefixes → prefixes ≠ [] →
  (∀ p, p ∈ prefixes → 0 ≤ p < 2 ^ Z.of_nat (level + 1)) →
  ∃ init_seed cws cs beta_share_0 out_share_0 proof_0
    beta_share_1 out_share_1 proof_1,
    gen alpha beta binder rand = Ok (init_seed, cws, cs) ∧
    eval 0 cws cs init_seed.1 level prefixes binder
    = Ok (beta_share_0, out_share_0, proof_0) ∧
    eval 1 cws cs init_seed.2 level prefixes binder
    = Ok (beta_share_1, out_share_1, proof_1) ∧
    vec_add beta_share_0 beta_share_1 = beta.
Proof.
  intros Halpha Hbeta Hrand Hbits Hlevel Hdup Hne Hprefixes.
  destruct (honest_run alpha beta binder rand level prefixes)
    as (init_seed & cws & cs & b0 & o0 & q0 & b1 & o1 & q1
        & Hgen & He0 & He1 & _); [done..|].
  exists init_seed, cws, cs, b0, o0, q0, b1, o1, q1.
  repeat (split; [done|]).
  destruct (gen_spec alpha beta binder rand Halpha Hbeta Hrand Hbits)
    as (cws' & cs' & Hgen' & _ & _ & _ & Hrel).
  cbn zeta in Hgen', Hrel. rewrite Hgen in Hgen'.
  injection Hgen' as -> <- <-.
  assert (∀ p, p ∈ prefixes → 0 ≤ p) as Hpos.
  { intros p Hp. by apply Hprefixes. }
  destruct (eval_by_state _ _ _ _ _ _ _ _ _ _ He0 Hpos) as [-> _].
  destruct (eval_by_state _ _ _ _ _ _ _ _ _ _ He1 Hpos) as [-> _].
  change (0 =? 1) with false. change (1 =? 1) with true. cbv zeta iota.
  cbn [fst snd].
  assert (0 ≤ alpha_node alpha 1 < 2) as Hnode.
  { unfold alpha_node. rewrite Z.shiftr_div_pow2 by lia.
    assert (2 ^ Z.of_nat BITS = 2 * 2 ^ Z.of_nat (BITS - 1)) as Hpow.
    { rewrite <- Z.pow_succ_r by lia. f_equal. lia. }
    pose proof (Z.pow_pos_nonneg 2 (Z.of_nat (BITS - 1))).
    split; [apply Z.div_pos; lia|].
    apply Z.div_lt_upper_bound; lia. }
  destruct (Hrel 1%nat 0 ltac:(lia) ltac:(lia))
    as (a0 & a1 & Ha0 & Ha1 & La & _ & Ha).
  destruct (Hrel 1%nat 1 ltac:(lia) ltac:(lia))
    as (c0 & c1 & Hc0 & Hc1 & Lc & _ & Hc).
  unfold y_at. cbn [fst snd] in Ha0, Ha1, Hc0, Hc1. rewrite Ha0, Ha1, Hc0, Hc1.
  destruct a0 as [[[? ?] ya0] ?], a1 as [[[? ?] ya1] ?],
    c0 as [[[? ?] yc0] ?], c1 as [[[? ?] yc1] ?].
  cbn [fst snd] in *.
  destruct (decide (0 = alpha_node alpha 1)) as [E0|E0];
    destruct (decide (1 = alpha_node alpha 1)) as [E1|E1]; try lia.
  - injection Hc as -> -> -> ->. subst ya0. pointwise.
  - injection Ha as -> -> -> ->. subst yc0. pointwise.
Qed.

(** *** [correct] *)

(** X10. On byte strings of one length, [correct] is what its comment
    says ([k_0] when [ctrl] is zero, else [xor(k_0, k_1)]), and correcting
    twice by the same word undoes the correction; so it does on control
    bits. *)
Theorem correct_cases (k_0 k_1 : bytes) (ctrl : Field2.t) :
  length k_0 = length k_1 →
  correct k_0 k_1 true = xor k_0 k_1 ∧
  correct k_0 k_1 false = k_0 ∧
  correct (correct k_0 k_1 ctrl) k_1 ctrl = k_0 ∧
  ∀ t_0 t_1 : Field2.t,
    correct_ctrl (correct_ctrl t_0 t_1 ctrl) t_1 ctrl = t_0.
Proof.
  intros Hlen.
  assert (∀ a n, xor a (zeros n) = take n a) as Hzeros.
  { induction a as [|x a IH]; intros [|n]; simpl; try done.
    by rewrite Z.lxor_0_r, <- IH. }
  assert (∀ a b, (length a ≤ length b)%nat → xor (xor a b) b = a) as Htwice.
  { induction a as [|x a IH]; intros [|y b] Hl; simpl in *; try done;
      [lia|].
    rewrite IH by lia.
    by rewrite Z.lxor_assoc, Z.lxor_nilpotent, Z.lxor_0_r. }
  unfold correct, Field2.conditional_select.
  split; [done|]. split; [rewrite Hzeros; apply take_ge; lia|]. split.
  - destruct ctrl; [apply Htwice; lia|].
    rewrite !Hzeros, take_take, Nat.min_id. apply take_ge. lia.
  - intros t_0 t_1. unfold correct_ctrl, Field2.add, Field2.mul.
    by destruct t_0, t_1, ctrl.
Qed.
(** *** [main]: the driver *)

(** [for i in range(len(prefixes)):
      out[i] = vec_add(out[i], out_share[i])] *)
Definition accumulate (n : nat) (out_share out : list (list F))
    : result (list (list F)) :=
  for_each (λ i out, o ← index out i;
                     share ← index out_share i;
                     mret (<[i := vec_add o share]> out))
    (seq 0 n) out.

(** The body of [for agg_id in range(vidpf.SHARES)]; its variables are
    [(proofs, out)]. *)
Definition main_aggregator (correction_words : list (CorrectionWord F))
    (cs_proofs : list bytes) (init_seed : bytes * bytes) (level : nat)
    (prefixes : list Z) (binder : bytes) (agg_id : Z)
    (st : list bytes * list (list F))
    : result (list bytes * list (list F)) :=
  let '(proofs, out) := st in
  '(_, out_share, proof) ←
    eval agg_id correction_words cs_proofs (pick init_seed agg_id) level
      prefixes binder;
  out ← accumulate (length prefixes) out_share out;
  mret (proofs ++ [proof], out).

(** The body of [for measurement in measurements], on the bytes [rand]
    that [gen_rand] gave it; its variable is [out]. *)
Definition main_measurement (beta : list F) (binder : bytes) (level : nat)
    (prefixes : list Z) (drawn : Z * bytes) (out : list (list F))
    : result (list (list F)) :=
  let '(measurement, rand) := drawn in
  '(init_seed, correction_words, cs_proofs) ←
    gen measurement beta binder rand;
  '(proofs, out) ←
    for_each (main_aggregator correction_words cs_proofs init_seed level
                prefixes binder) [0; 1] ([], out);
  proof_0 ← index proofs 0;
  proof_1 ← index proofs 1;
  _ ← assert (verify proof_0 proof_1);
  mret out.

(** One run of [main], down to the aggregate that it prints and compares;
    [rands] are the byte strings that [gen_rand] returns, in order. *)
Definition main_run (beta : list F) (binder : bytes) (level : nat)
    (prefixes : list Z) (measurements : list Z) (rands : list bytes)
    : result (list (list F)) :=
  for_each (main_measurement beta binder level prefixes)
    (zip measurements rands)
    (replicate (length prefixes) (fzeros VALUE_LEN)).

(** What a measurement adds to the aggregate of a prefix. *)
Definition hit (beta : list F) (level : nat) (alpha prefix : Z) : list F :=
  if decide (prefix = Z.shiftr alpha (Z.of_nat (BITS - level - 1)))
  then beta else fzeros VALUE_LEN.

Lemma accumulate_upto (k : nat) (out_share out : list (list F)) :
  (k ≤ length out)%nat → (k ≤ length out_share)%nat →
  accumulate k out_share out
  = Ok (zip_with vec_add (take k out) (take k out_share) ++ drop k out).
Proof.
  unfold accumulate. induction k as [|k IH]; intros Hout Hshare.
  - by rewrite drop_0.
  - rewrite seq_S, for_each_snoc, IH by lia. cbn [mbind result_bind Nat.add].
    destruct (lookup_lt_is_Some_2 out k ltac:(lia)) as [o Ho].
    destruct (lookup_lt_is_Some_2 out_share k ltac:(lia)) as [s Hs].
    assert (length (zip_with vec_add (take k out) (take k out_share)) = k)
      as Hlen by (rewrite length_zip_with, !length_take; lia).
    assert ((zip_with vec_add (take k out) (take k out_share)
             ++ drop k out) !! k = Some o) as Hk.
    { by rewrite lookup_app_r, Hlen, Nat.sub_diag, lookup_drop,
        Nat.add_0_r by lia. }
    rewrite (index_Ok _ _ _ Hk).
    cbn [mbind result_bind]. rewrite (index_Ok _ _ _ Hs).
    cbn [mbind result_bind mret result_ret]. f_equal.
    rewrite insert_app_r_alt, Hlen, Nat.sub_diag by lia.
    rewrite (drop_S _ _ _ Ho), (take_S_r _ _ _ Ho), (take_S_r _ _ _ Hs).
    rewrite zip_with_app by (rewrite !length_take; lia).
    cbn [insert list_insert zip_with]. by rewrite <- (assoc_L (++)).
Qed.

Lemma accumulate_Ok (out_share out : list (list F)) n :
  length out = n → length out_share = n →
  accumulate n out_share out = Ok (zip_with vec_add out out_share).
Proof.
  intros Hout Hshare. rewrite accumulate_upto by lia.
  by rewrite !take_ge, drop_ge, app_nil_r by lia.
Qed.

Lemma zip_with_vec_add_assoc (out o0 o1 : list (list F)) :
  zip_with vec_add (zip_with vec_add out o0) o1
  = zip_with vec_add out (zip_with vec_add o0 o1).
Proof.
  revert o0 o1. induction out as [|a out IH]; intros [|b o0] [|c o1];
    simpl; try done.
  f_equal; [pointwise | apply IH].
Qed.

Lemma zip_with_twice {A B} (g h : A → B → A) (l : list A) (k : list B) :
  zip_with g (zip_with h l k) k = zip_with (λ a b, g (h a b) b) l k.
Proof.
  revert k. induction l as [|a l IH]; intros [|b k]; simpl; try done.
  by rewrite IH.
Qed.

(** One measurement of [main]: the report is generated, both Aggregators
    evaluate it, their proofs pass [verify], and every entry of [out] has
    grown by [beta] or by zero. *)
Lemma main_measurement_Ok beta binder level prefixes alpha rand out :
  0 ≤ alpha < 2 ^ Z.of_nat BITS → length beta = VALUE_LEN →
  length rand = RAND_SIZE → Z.of_nat BITS ≤ 65536 →
  (level < BITS)%nat → NoDup prefixes → prefixes ≠ [] →
  (∀ p, p ∈ prefixes → 0 ≤ p < 2 ^ Z.of_nat (level + 1)) →
  length out = length prefixes →
  main_measurement beta binder level prefixes (alpha, rand) out
  = Ok (zip_with (λ o p, vec_add o (hit beta level alpha p)) out prefixes).
Proof.
  intros Halpha Hbeta Hrand Hbits Hlevel Hdup Hne Hprefixes Hout.
  destruct (honest_run alpha beta binder rand level prefixes)
    as (init_seed & cws & cs & b0 & o0 & q0 & b1 & o1 & q1
        & Hgen & He0 & He1 & Hl0 & Hl1 & Hsum & <-); [done..|].
  unfold main_measurement. rewrite Hgen.
  cbn [mbind result_bind for_each main_aggregator pick Z.eqb fst snd].
  rewrite He0. cbn [mbind result_bind].
  rewrite (accumulate_Ok o0 out (length prefixes)) by done.
  cbn [mbind result_bind mret result_ret]. unfold main_aggregator.
  cbn [pick Z.eqb Pos.eqb fst snd]. rewrite He1. cbn [mbind result_bind].
  rewrite (accumulate_Ok o1 _ (length prefixes))
    by (rewrite ?length_zip_with; lia).
  cbn [mbind result_bind mret result_ret app index lookup list_lookup].
  unfold verify. rewrite bool_decide_eq_true_2 by done.
  cbn [assert mbind result_bind]. f_equal.
  rewrite zip_with_vec_add_assoc, Hsum. by rewrite zip_with_fmap_r.
Qed.

(** The loop of [main] over the measurements, from any [out] of one entry
    per prefix. *)
Lemma main_loop_Ok beta binder level prefixes measurements rands out :
  Forall (λ alpha, 0 ≤ alpha < 2 ^ Z.of_nat BITS) measurements →
  length rands = length measurements →
  Forall (λ rand : bytes, length rand = RAND_SIZE) rands →
  length beta = VALUE_LEN → Z.of_nat BITS ≤ 65536 →
  (level < BITS)%nat → NoDup prefixes → prefixes ≠ [] →
  (∀ p, p ∈ prefixes → 0 ≤ p < 2 ^ Z.of_nat (level + 1)) →
  length out = length prefixes →
  for_each (main_measurement beta binder level prefixes)
    (zip measurements rands) out
  = Ok (zip_with
          (λ o p, foldl (λ acc alpha, vec_add acc (hit beta level alpha p))
                    o measurements)
          out prefixes).
Proof.
  intros Hms Hlen Hrands Hbeta Hbits Hlevel Hdup Hne Hprefixes.
  revert rands out Hlen Hrands.
  induction Hms as [|alpha ms Halpha _ IH]; intros [|rand rs] out Hlen Hrands
    Hout; try discriminate.
  - cbn. f_equal. clear -Hout. revert prefixes Hout.
    induction out as [|o out IH]; intros [|p ps] Hout; simpl in *;
      try done. f_equal. apply IH. lia.
  - apply Forall_cons in Hrands as [Hrand Hrands].
    cbn [zip zip_with for_each].
    rewrite main_measurement_Ok by done. cbn [mbind result_bind].
    rewrite IH; [|simpl in Hlen; lia | done | rewrite length_zip_with; lia].
    by rewrite zip_with_twice.
Qed.

(** X11. [main]'s loop over any measurements of [BITS] bits, whatever
    bytes [gen_rand] returns: every report is generated and evaluated by
    both Aggregators, every [verify] assertion holds, and the aggregate of
    each prefix is [beta] added up once for each measurement that starts
    with the prefix. *)
Theorem main_run_aggregates beta binder level prefixes measurements rands :
  Forall (λ alpha, 0 ≤ alpha < 2 ^ Z.of_nat BITS) measurements →
  length rands = length measurements →
  Forall (λ rand : bytes, length rand = RAND_SIZE) rands →
  length beta = VALUE_LEN → Z.of_nat BITS ≤ 65536 →
  (level < BITS)%nat → NoDup prefixes → prefixes ≠ [] →
  (∀ p, p ∈ prefixes → 0 ≤ p < 2 ^ Z.of_nat (level + 1)) →
  main_run beta binder level prefixes measurements rands
  = Ok ((λ p, foldl (λ acc alpha,
                       vec_add acc
                         (if decide (p = Z.shiftr alpha
                                            (Z.of_nat (BITS - level - 1)))
                          then beta else fzeros VALUE_LEN))
                (fzeros VALUE_LEN) measurements)
        <$> prefixes).
Proof.
  intros. unfold main_run. rewrite main_loop_Ok by
    (done || by rewrite length_replicate).
  by rewrite zip_with_replicate_l by done.
Qed.
End WithParams.

(** *** [main], as it is written *)

Section Main.
Context {F : Type} `{FieldOps F}.

Variable xof_stream : bytes → bytes → bytes → nat → Z.
Variable xof_vec : bytes → bytes → bytes → nat → nat → list F.
Variable format_dst : Z → Z → Z → bytes.
Variable sha3_256 : bytes → bytes.
Variable str : Z → bytes.
Variable encode_vec : list F → bytes.

Hypothesis Fth : ring_theory fzero fone fadd fmul fsub fopp eq.
Hypothesis xof_vec_length :
  ∀ seed dst binder pos n, length (xof_vec seed dst binder pos n) = n.
Hypothesis sha3_256_length : ∀ m, length (sha3_256 m) = 32%nat.

Add Ring MainFieldRing : Fth.

(** [b'some nonce'] *)
Definition some_nonce : bytes :=
  [115; 111; 109; 101; 32; 110; 111; 110; 99; 101].

(** The first run of [main]: [Vidpf.with_params(Field128, 2, 1)], the
    measurements [0b10, 0b00, 0b11, 0b01, 0b11], [beta = [1]], the prefixes
    [0b0, 0b1] of level 0. *)
Definition main_first (rands : list bytes) : result (list (list F)) :=
  main_run 2 1 xof_stream xof_vec format_dst sha3_256 str encode_vec
    [fone] some_nonce 0 [0; 1] [2; 0; 3; 1; 3] rands.

(** The second run: [Vidpf.with_params(Field128, 16, 1)], four
    measurements of 16 bits, the prefixes [0b000001, 0b111100, 0b111101]
    of level 5. *)
Definition main_second (rands : list bytes) : result (list (list F)) :=
  main_run 16 1 xof_stream xof_vec format_dst sha3_256 str encode_vec
    [fone] some_nonce 5 [1; 60; 61] [61680; 61681; 61682; 1266] rands.

(** X12. The assertions of [main] hold whatever bytes [gen_rand] returns:
    in both runs every [verify] passes, the first aggregate is
    [[[2], [3]]] and the second [[[1], [3], [0]]]. *)
Theorem main_assertions_hold (rands rands' : list bytes) :
  length rands = 5%nat → Forall (λ rand, length rand = RAND_SIZE) rands →
  length rands' = 4%nat → Forall (λ rand, length rand = RAND_SIZE) rands' →
  main_first rands
  = Ok [[fadd fone fone]; [fadd (fadd fone fone) fone]] ∧
  main_second rands'
  = Ok [[fone]; [fadd (fadd fone fone) fone]; [fzero]].
Proof.
  intros Hlen Hrands Hlen' Hrands'. split.
  - unfold main_first, main_run.
    rewrite (main_loop_Ok 2 1 xof_stream xof_vec format_dst sha3_256 str
               encode_vec Fth xof_vec_length sha3_256_length);
      try done; try (simpl; lia).
    + cbv -[fadd fzero fone].
      repeat match goal with
             | |- Ok _ = Ok _ => f_equal
             | |- _ :: _ = _ :: _ => f_equal
             end; ring.
    + compute_done.
    + compute_done.
    + apply Forall_forall. compute_done.
  - unfold main_second, main_run.
    rewrite (main_loop_Ok 16 1 xof_stream xof_vec format_dst sha3_256 str
               encode_vec Fth xof_vec_length sha3_256_length);
      try done; try (simpl; lia).
    + cbv -[fadd fzero fone].
      repeat match goal with
             | |- Ok _ = Ok _ => f_equal
             | |- _ :: _ = _ :: _ => f_equal
             end; ring.
    + compute_done.
    + compute_done.
    + apply Forall_forall. compute_done.
Qed.
End Main.
End Vidpf.

(** ** [poc/mastic.py]: class [Mastic] *)

Module Mastic.

Definition NONCE_SIZE : nat := 16.
Definition SHARES : nat := 2.
Definition ROUNDS : nat := 1.

(** The usage codes of [dst.py], and the aggregation parameter
    [(level, prefixes, do_weight_check)]. *)
Inductive usage : Type :=
  | USAGE_PROVE_RAND
  | USAGE_PROOF_SHARE
  | USAGE_QUERY_RAND
  | USAGE_JOINT_RAND_SEED
  | USAGE_JOINT_RAND_PART
  | USAGE_JOINT_RAND.

Record MasticAggParam : Type := {
  level : Z;
  prefixes : list (list bool);
  do_weight_check : bool;
}.

(** The FLP ([FlpBBCGGI19(valid)]), by the contract of its interface. *)
Class Flp (F W R : Type) : Type := {
  MEAS_LEN : nat;
  OUTPUT_LEN : nat;
  PROOF_LEN : nat;
  PROVE_RAND_LEN : nat;
  QUERY_RAND_LEN : nat;
  JOINT_RAND_LEN : nat;
  flp_encode : W → list F;
  flp_truncate : list F → list F;
  flp_prove : list F → list F → list F → list F;
  flp_query : list F → list F → list F → list F → nat → list F;
  flp_decide : list F → bool;
  flp_decode : list F → Z → R;
}.

(** The XOF ([XofTurboShake128]), by the contract of its interface. *)
Class Xof (F : Type) : Type := {
  SEED_SIZE : nat;
  derive_seed : bytes → bytes → bytes → bytes;
  expand_into_vec : bytes → bytes → bytes → nat → list F;
}.

(** The [vidpf] object of [Mastic.__init__]. [mastic.py] calls it through
    an interface ([gen] and [eval] bound to [ctx] and [nonce], keys apart
    from the public share, [encode_public_share]) that [poc/vidpf.py] does
    not have, so it is a parameter here, with correction words of a type
    [CW]. *)
Class VidpfApi (F CW : Type) : Type := {
  vidpf_RAND_SIZE : nat;
  vidpf_gen :
    list bool → list F → bytes → bytes → bytes → result (list CW * list bytes);
  vidpf_eval :
    nat → list CW → bytes → Z → list (list bool) → bytes → bytes →
    result (list F * list (list F) * bytes);
  encode_public_share : list CW → bytes;
}.

(** The objects on the heap that this file shares with its caller: the
    lists of joint randomness parts of public shares. *)
Definition loc : Type := nat.
Abbreviation heap := (gmap loc (list bytes)).

(** Code that reads and writes the heap and may raise. *)
Definition M (A : Type) : Type := heap → result A * heap.

#[global] Instance M_ret : MRet M := fun A a h => (Ok a, h).

#[global] Instance M_bind : MBind M := fun A B f m h =>
  match m h with
  | (Ok a, h') => f a h'
  | (Raise e, h') => (Raise e, h')
  end.

Definition lift {A} (r : result A) : M A := fun h => (r, h).

(** Reading the list at [l]. *)
Definition deref (l : loc) : M (list bytes) := fun h =>
  match h !! l with
  | Some parts => (Ok parts, h)
  | None => (Raise TypeError, h)
  end.

(** [parts[i] = x] on the list at [l]. *)
Definition setitem (l : loc) (i : nat) (x : bytes) : M unit := fun h =>
  match h !! l with
  | Some parts =>
      if (i <? length parts)%nat then (Ok tt, <[l := <[i := x]> parts]> h)
      else (Raise IndexError, h)
  | None => (Raise TypeError, h)
  end.

(** A public share as [shard] builds it, and as [prep_init] is handed it:
    the list of parts by reference. *)
Abbreviation MasticPublicShare CW := (list CW * option loc)%type.
Abbreviation MasticInputShare F :=
  (bytes * option (list F) * option bytes * list F)%type.
Abbreviation MasticPrepState F := (list F * option bytes)%type.
Abbreviation MasticPrepShare F :=
  (bytes * option (list F) * option bytes)%type.
Abbreviation MasticPrepMessage := (option bytes).

Section WithValid.
Context {F W R CW : Type} `{FieldOps F}.
Context {flp : Flp F W R} {xof : Xof F} {vidpf : VidpfApi F CW}.

(** [dst(ctx, usage)] of [dst.py]. *)
Variable dst : bytes → usage → bytes.

(** [self.RAND_SIZE], as [__init__] sets it. *)
Definition RAND_SIZE : nat :=
  (vidpf_RAND_SIZE + 2 * SEED_SIZE + MEAS_LEN
   + if (0 <? JOINT_RAND_LEN)%nat then SEED_SIZE else 0)%nat.

Definition helper_proof_share (ctx seed : bytes) : list F :=
  expand_into_vec seed (dst ctx USAGE_PROOF_SHARE) [] PROOF_LEN.

Definition prove_rand (ctx seed : bytes) : list F :=
  expand_into_vec seed (dst ctx USAGE_PROVE_RAND) [] PROVE_RAND_LEN.

Definition joint_rand_part (ctx : bytes) (agg_id : nat) (seed key : bytes)
    (correction_words : list CW) (nonce : bytes) : bytes :=
  let pub := encode_public_share correction_words in
  derive_seed seed (dst ctx USAGE_JOINT_RAND_PART)
    ([Z.of_nat agg_id] ++ nonce ++ key ++ pub).

Definition joint_rand_seed (ctx : bytes) (parts : list bytes) : bytes :=
  derive_seed (zeros SEED_SIZE) (dst ctx USAGE_JOINT_RAND_SEED)
    (concat parts).

Definition joint_rand (ctx seed : bytes) : list F :=
  expand_into_vec seed (dst ctx USAGE_JOINT_RAND) [] JOINT_RAND_LEN.

Definition query_rand (verify_key ctx nonce : bytes) (level : Z)
    : result (list F) :=
  le ← to_le_bytes level 2;
  mret (expand_into_vec verify_key (dst ctx USAGE_QUERY_RAND) (nonce ++ le)
          QUERY_RAND_LEN).

Definition beta_share_from_seed (ctx seed : bytes) : list F :=
  expand_into_vec seed (dst ctx USAGE_PROOF_SHARE) [] MEAS_LEN.
(** *** [shard] *)

Definition shard_without_joint_rand (ctx : bytes)
    (measurement : list bool * W) (nonce rand : bytes)
    : result ((list CW * option (list bytes)) * list (MasticInputShare F)) :=
  let '(vidpf_rand, rand) := front vidpf_RAND_SIZE rand in
  let '(prove_rand_seed, rand) := front SEED_SIZE rand in
  let '(helper_seed, rand) := front SEED_SIZE rand in
  let '(beta_helper_seed, rand) := front SEED_SIZE rand in
  _ ← assert (length rand =? 0)%nat;
  let '(alpha, weight) := measurement in
  let beta := flp_encode weight in
  let beta_truncated := flp_truncate beta in
  '(correction_words, keys) ←
    vidpf_gen alpha beta_truncated ctx nonce vidpf_rand;
  let prove_rand := prove_rand ctx prove_rand_seed in
  let proof := flp_prove beta prove_rand [] in
  let helper_proof_share := helper_proof_share ctx helper_seed in
  let leader_proof_share := vec_sub proof helper_proof_share in
  let beta_helper_share := beta_share_from_seed ctx beta_helper_seed in
  let beta_leader_share := vec_sub beta beta_helper_share in
  key_0 ← index keys 0;
  key_1 ← index keys 1;
  mret ((correction_words, None),
        [(key_0, Some leader_proof_share, None, beta_leader_share);
         (key_1, None, Some helper_seed, beta_helper_share)]).

Definition shard_with_joint_rand (ctx : bytes)
    (measurement : list bool * W) (nonce rand : bytes)
    : result ((list CW * option (list bytes)) * list (MasticInputShare F)) :=
  let '(vidpf_rand, rand) := front vidpf_RAND_SIZE rand in
  let '(prove_rand_seed, rand) := front SEED_SIZE rand in
  let '(leader_seed, rand) := front SEED_SIZE rand in
  let '(helper_seed, rand) := front SEED_SIZE rand in
  let '(beta_helper_seed, rand) := front SEED_SIZE rand in
  _ ← assert (length rand =? 0)%nat;
  let '(alpha, weight) := measurement in
  let beta := flp_encode weight in
  let beta_truncated := flp_truncate beta in
  '(correction_words, keys) ←
    vidpf_gen alpha beta_truncated ctx nonce vidpf_rand;
  key_0 ← index keys 0;
  key_1 ← index keys 1;
  let joint_rand_parts :=
    [joint_rand_part ctx 0 leader_seed key_0 correction_words nonce;
     joint_rand_part ctx 1 helper_seed key_1 correction_words nonce] in
  let joint_rand := joint_rand ctx (joint_rand_seed ctx joint_rand_parts) in
  let prove_rand := prove_rand ctx prove_rand_seed in
  let proof := flp_prove beta prove_rand joint_rand in
  let helper_proof_share := helper_proof_share ctx helper_seed in
  let leader_proof_share := vec_sub proof helper_proof_share in
  let beta_helper_share := beta_share_from_seed ctx beta_helper_seed in
  let beta_leader_share := vec_sub beta beta_helper_share in
  mret ((correction_words, Some joint_rand_parts),
        [(key_0, Some leader_proof_share, Some leader_seed,
          beta_leader_share);
         (key_1, None, Some helper_seed, beta_helper_share)]).

Definition shard (ctx : bytes) (measurement : list bool * W)
    (nonce rand : bytes)
    : result ((list CW * option (list bytes)) * list (MasticInputShare F)) :=
  if (0 <? JOINT_RAND_LEN)%nat
  then shard_with_joint_rand ctx measurement nonce rand
  else shard_without_joint_rand ctx measurement nonce rand.

(** *** [is_valid] *)

Definition is_valid (agg_param : MasticAggParam)
    (previous_agg_params : list MasticAggParam) : bool :=
  let weight_checked :=
    (do_weight_check agg_param && (length previous_agg_params =? 0)%nat)
    || (negb (do_weight_check agg_param)
        && existsb do_weight_check previous_agg_params) in
  let level_increased :=
    (length previous_agg_params =? 0)%nat
    || match last previous_agg_params with
       | Some previous => level previous <? level agg_param
       | None => false
       end in
  weight_checked && level_increased.

(** *** [prep_init] *)

Definition expand_input_share (ctx : bytes) (agg_id : nat)
    (input_share : MasticInputShare F)
    : result (bytes * list F * option bytes * list F) :=
  let '(key, proof_share, seed, beta_share) := input_share in
  if (agg_id =? 0)%nat then
    match proof_share with
    | Some proof_share => Ok (key, proof_share, seed, beta_share)
    | None => Raise AssertionError
    end
  else
    match seed with
    | Some seed' =>
        Ok (key, helper_proof_share ctx seed', seed, beta_share)
    | None => Raise AssertionError
    end.

(** [[val_share[0]] + self.flp.truncate(val_share[1:])] for every
    [val_share] of [out_share]. *)
Definition truncate_out_share (out_share : list (list F))
    : result (list F) :=
  for_each (λ val_share truncated_out_share,
              first ← index val_share 0;
              mret (truncated_out_share
                    ++ [first] ++ flp_truncate (drop 1 val_share)))
    out_share [].

Definition prep_init (verify_key ctx : bytes) (agg_id : nat)
    (agg_param : MasticAggParam) (nonce : bytes)
    (public_share : MasticPublicShare CW) (input_share : MasticInputShare F)
    : M (MasticPrepState F * MasticPrepShare F) :=
  '(key, proof_share, seed, beta_share) ←
    lift (expand_input_share ctx agg_id input_share);
  let '(correction_words, joint_rand_parts) := public_share in
  '(truncated_beta_share, out_share, eval_proof) ←
    lift (vidpf_eval agg_id correction_words key (level agg_param)
            (prefixes agg_param) ctx nonce);
  '(joint_rand_part, joint_rand_seed, verifier_share) ←
    (if do_weight_check agg_param then
       query_rand ← lift (query_rand verify_key ctx nonce (level agg_param));
       '(joint_rand_part, joint_rand_seed, joint_rand) ←
         (if (0 <? JOINT_RAND_LEN)%nat then
            seed ← lift (match seed with
                         | Some seed => Ok seed
                         | None => Raise AssertionError
                         end);
            parts_at ← lift (match joint_rand_parts with
                             | Some l => Ok l
                             | None => Raise AssertionError
                             end);
            let joint_rand_part :=
              joint_rand_part ctx agg_id seed key correction_words nonce in
            _ ← setitem parts_at agg_id joint_rand_part;
            parts ← deref parts_at;
            let joint_rand_seed := joint_rand_seed ctx parts in
            mret (Some joint_rand_part, Some joint_rand_seed,
                  joint_rand ctx joint_rand_seed)
          else mret (None, None, []));
       mret (joint_rand_part, joint_rand_seed,
             Some (flp_query beta_share proof_share query_rand joint_rand 2))
     else mret (None, None, None));
  truncated_out_share ← lift (truncate_out_share out_share);
  mret ((truncated_out_share, joint_rand_seed),
        (eval_proof, verifier_share, joint_rand_part)).
(** *** [prep_shares_to_prep] and [prep_next] *)

Definition prep_shares_to_prep (ctx : bytes) (agg_param : MasticAggParam)
    (prep_shares : list (MasticPrepShare F)) : result MasticPrepMessage :=
  if negb (length prep_shares =? 2)%nat
  then Raise (ValueError "unexpected number of prep shares")
  else
    '(eval_proof_0, verifier_share_0, joint_rand_part_0) ←
      index prep_shares 0;
    '(eval_proof_1, verifier_share_1, joint_rand_part_1) ←
      index prep_shares 1;
    if negb (bool_decide (eval_proof_0 = eval_proof_1))
    then Raise (Exception "VIDPF verification failed")
    else if negb (do_weight_check agg_param) then Ok None
    else
      match verifier_share_0, verifier_share_1 with
      | Some verifier_share_0, Some verifier_share_1 =>
          let verifier := vec_add verifier_share_0 verifier_share_1 in
          if negb (flp_decide verifier)
          then Raise (Exception "FLP verification failed")
          else if (JOINT_RAND_LEN =? 0)%nat then Ok None
          else
            match joint_rand_part_0, joint_rand_part_1 with
            | Some joint_rand_part_0, Some joint_rand_part_1 =>
                Ok (Some (joint_rand_seed ctx
                            [joint_rand_part_0; joint_rand_part_1]))
            | _, _ =>
                Raise (ValueError "expected FLP joint randomness parts")
            end
      | _, _ => Raise (ValueError "expected FLP verifier shares")
      end.

Definition prep_next (_ctx : bytes) (prep_state : MasticPrepState F)
    (prep_msg : MasticPrepMessage) : result (list F) :=
  let '(truncated_out_share, joint_rand_seed) := prep_state in
  match joint_rand_seed with
  | Some joint_rand_seed =>
      match prep_msg with
      | None => Raise (ValueError "expected joint rand confirmation")
      | Some prep_msg =>
          if negb (bool_decide (prep_msg = joint_rand_seed))
          then Raise (Exception "joint rand confirmation failed")
          else Ok truncated_out_share
      end
  | None => Ok truncated_out_share
  end.

(** *** Aggregation *)

Definition agg_init (agg_param : MasticAggParam) : list F :=
  fzeros (length (prefixes agg_param) * (1 + OUTPUT_LEN)).

Definition agg_update (agg_param : MasticAggParam)
    (agg_share out_share : list F) : list F :=
  vec_add agg_share out_share.

Definition merge (agg_param : MasticAggParam) (agg_shares : list (list F))
    : list F :=
  foldl vec_add (agg_init agg_param) agg_shares.

(** *** [encode_agg_param] *)

(** [for (bit_position, bit) in enumerate(chunk):
      byte_out |= bit << (7 - bit_position)], from [bit_position] on. *)
Fixpoint pack_bits (bit_position : nat) (chunk : list bool) (byte_out : Z)
    : Z :=
  match chunk with
  | [] => byte_out
  | bit :: rest =>
      pack_bits (S bit_position) rest
        (Z.lor byte_out (Z.shiftl (Z.b2z bit) (7 - Z.of_nat bit_position)))
  end.

(** [itertools.batched(l, n)]; [fuel] bounds the number of chunks. *)
Fixpoint batched_upto {A} (fuel n : nat) (l : list A) : list (list A) :=
  match fuel with
  | O => []
  | S fuel' =>
      match l with
      | [] => []
      | _ => take n l :: batched_upto fuel' n (drop n l)
      end
  end.

Definition batched {A} (l : list A) (n : nat) : list (list A) :=
  batched_upto (length l) n l.

(** The bytes that [encode_agg_param] appends for one prefix. *)
Definition encode_prefix (prefix : list bool) : bytes :=
  (λ chunk, pack_bits 0 chunk 0) <$> batched prefix 8.

Definition encode_agg_param (agg_param : MasticAggParam) : result bytes :=
  let '(level, prefixes, do_weight_check) :=
    (level agg_param, prefixes agg_param, do_weight_check agg_param) in
  if negb ((0 <=? level) && (level <? 2 ^ 16))
  then Raise (ValueError "level out of range")
  else if negb (Z.of_nat (length prefixes) <? 2 ^ 32)
  then Raise (ValueError "number of prefixes out of range")
  else
    encoded_level ← to_be_bytes level 2;
    encoded_count ← to_be_bytes (Z.of_nat (length prefixes)) 4;
    encoded_check ← to_be_bytes (Z.b2z do_weight_check) 1;
    let prefixes_len := (level + 1 + 7) / 8 * Z.of_nat (length prefixes) in
    let encoded_prefixes := mjoin (encode_prefix <$> prefixes) in
    _ ← assert (Z.of_nat (length encoded_prefixes) =? prefixes_len);
    mret (encoded_level ++ encoded_count ++ encoded_check
          ++ encoded_prefixes).
(** *** Facts about [is_valid] *)

(** How often the weight check is asked for in a sequence. *)
Definition weight_checks (agg_params : list MasticAggParam) : nat :=
  length (List.filter do_weight_check agg_params).

(** A sequence of aggregation parameters each of which [is_valid] accepted
    after the ones before it. *)
Definition valid_history (agg_params : list MasticAggParam) : Prop :=
  ∀ i agg_param, agg_params !! i = Some agg_param →
    is_valid agg_param (take i agg_params) = true.

Lemma weight_checks_snoc agg_params agg_param :
  weight_checks (agg_params ++ [agg_param])
  = (weight_checks agg_params
     + if do_weight_check agg_param then 1 else 0)%nat.
Proof.
  unfold weight_checks. rewrite List.filter_app, length_app. simpl.
  by destruct (do_weight_check agg_param).
Qed.

Lemma valid_history_snoc agg_params agg_param :
  valid_history (agg_params ++ [agg_param]) →
  valid_history agg_params ∧ is_valid agg_param agg_params = true.
Proof.
  intros Hvalid. split.
  - intros i p Hp. pose proof (lookup_lt_Some _ _ _ Hp) as Hi.
    rewrite <- (Hvalid i p).
    + by rewrite take_app_le by lia.
    + by rewrite lookup_app_l.
  - rewrite <- (Hvalid (length agg_params) agg_param).
    + by rewrite take_app_length.
    + by rewrite lookup_app_r, Nat.sub_diag by lia.
Qed.

Lemma is_valid_first agg_param :
  is_valid agg_param [] = do_weight_check agg_param.
Proof. unfold is_valid. simpl. by destruct (do_weight_check agg_param). Qed.

Lemma is_valid_later agg_param previous last_param :
  is_valid agg_param (previous ++ [last_param])
  = negb (do_weight_check agg_param)
    && existsb do_weight_check (previous ++ [last_param])
    && (level last_param <? level agg_param).
Proof.
  unfold is_valid. rewrite last_snoc, length_app. simpl.
  replace (length previous + 1 =? 0)%nat with false
    by (symmetry; apply Nat.eqb_neq; lia).
  by rewrite andb_false_r.
Qed.

(** In a valid history the weight check is asked for once, by the first
    parameter, and no level is above the last one. *)
Lemma valid_history_facts agg_params :
  valid_history agg_params →
  (agg_params = [] ∨
   (weight_checks agg_params = 1%nat ∧
    existsb do_weight_check agg_params = true)) ∧
  ∀ last_param, last agg_params = Some last_param →
    Forall (λ q, level q ≤ level last_param) agg_params.
Proof.
  induction agg_params as [|p previous IH] using rev_ind; intros Hvalid.
  { split; [by left | done]. }
  apply valid_history_snoc in Hvalid as [Hprev Hp].
  destruct (IH Hprev) as [Hchecks Hlevels]. clear IH.
  destruct previous as [|q previous' _] using rev_ind.
  - rewrite is_valid_first in Hp. split.
    + right. unfold weight_checks. simpl. by rewrite Hp.
    + intros ? [= <-]. by repeat constructor.
  - rewrite is_valid_later in Hp.
    apply andb_prop in Hp as [[Hno Hsome]%andb_prop Hlt].
    apply negb_true_iff in Hno. apply Z.ltb_lt in Hlt.
    destruct Hchecks as [Hnil | [Hone _]]; [by destruct previous'|].
    split.
    + right. rewrite weight_checks_snoc, Hno, Hone. split; [done|].
      by rewrite existsb_app, Hsome.
    + rewrite last_snoc. intros ? [= <-].
      apply Forall_app. split; [|by repeat constructor].
      eapply Forall_impl; [apply (Hlevels q); by rewrite last_snoc|].
      simpl. intros r Hr. lia.
Qed.
(** C4 (as amended). For every aggregation parameter [p] and every list
    [prev] of previous aggregation parameters that is a valid history
    (each of them accepted by [is_valid] after the ones before it),
    [is_valid p prev] is true if and only if [do_weight_check] is true
    exactly once across [prev ++ [p]] and the level of [p] is strictly
    greater than the level of every parameter of [prev]. *)
Theorem is_valid_iff agg_param previous :
  valid_history previous →
  is_valid agg_param previous = true ↔
  weight_checks (previous ++ [agg_param]) = 1%nat ∧
  Forall (λ q, level q < level agg_param) previous.
Proof.
  intros Hvalid.
  destruct (valid_history_facts previous Hvalid) as [Hchecks Hlevels].
  rewrite weight_checks_snoc.
  destruct previous as [|q previous' _] using rev_ind.
  - rewrite is_valid_first. unfold weight_checks. simpl.
    destruct (do_weight_check agg_param); split; try done.
    + intros [? _]. lia.
  - rewrite is_valid_later.
    destruct Hchecks as [Hnil | [Hone Hsome]]; [by destruct previous'|].
    rewrite Hone, Hsome, andb_true_r.
    specialize (Hlevels q (last_snoc _ _)). split.
    + intros [Hno Hlt]%andb_prop.
      apply negb_true_iff in Hno. apply Z.ltb_lt in Hlt. rewrite Hno.
      split; [done|]. eapply Forall_impl; [exact Hlevels|].
      simpl. intros r Hr. lia.
    + intros [Hcount Hall]. apply andb_true_intro. split.
      * destruct (do_weight_check agg_param); [lia | done].
      * apply Z.ltb_lt. rewrite Forall_app, Forall_singleton in Hall.
        by destruct Hall.
Qed.

(** *** Facts about aggregation *)

Hypothesis Fth : ring_theory fzero fone fadd fmul fsub fopp eq.

Add Ring MasticFieldRing : Fth.

Lemma vec_add_comm (a b : list F) : vec_add a b = vec_add b a.
Proof. pointwise. Qed.

Lemma vec_add_assoc (a b c : list F) :
  vec_add (vec_add a b) c = vec_add a (vec_add b c).
Proof. pointwise. Qed.

Lemma foldl_vec_add_permutation (shares shares' : list (list F)) agg :
  shares ≡ₚ shares' → foldl vec_add agg shares = foldl vec_add agg shares'.
Proof.
  intros Hperm. revert agg.
  induction Hperm as [|x l l' _ IH|x y l|l l' l'' _ IH _ IH']; intros agg.
  - done.
  - simpl. apply IH.
  - simpl. f_equal.
    by rewrite !vec_add_assoc, (vec_add_comm y x).
  - by rewrite IH.
Qed.

(** C9. [agg_update] is commutative and associative over aggregate
    shares, [merge] gives the same result under any permutation of its
    list of aggregate shares, and both are componentwise field addition:
    [agg_update] of two shares, [merge] from the zero vector of
    [agg_init] on. *)
Theorem aggregation_commutative_associative agg_param :
  (∀ a b, agg_update agg_param a b = agg_update agg_param b a) ∧
  (∀ a b c,
     agg_update agg_param (agg_update agg_param a b) c
     = agg_update agg_param a (agg_update agg_param b c)) ∧
  (∀ shares shares', shares ≡ₚ shares' →
     merge agg_param shares = merge agg_param shares') ∧
  (∀ a b, agg_update agg_param a b = zip_with fadd a b) ∧
  merge agg_param [] = agg_init agg_param ∧
  (∀ shares a,
     merge agg_param (shares ++ [a])
     = agg_update agg_param (merge agg_param shares) a) ∧
  agg_init agg_param
  = replicate (length (prefixes agg_param) * (1 + OUTPUT_LEN)) fzero.
Proof.
  unfold agg_update, merge. repeat split.
  - intros a b. apply vec_add_comm.
  - intros a b c. apply vec_add_assoc.
  - intros shares shares' Hperm. by apply foldl_vec_add_permutation.
  - intros shares a. by rewrite foldl_app.
Qed.
(** *** Facts about [prep_shares_to_prep] *)

(** C5. [prep_shares_to_prep] raises when given other than two prep
    shares; otherwise raises when the two [eval_proof] byte strings
    differ; otherwise, if [do_weight_check] is false, returns [None]
    whatever the verifier shares and joint randomness parts are;
    otherwise raises when a verifier share is absent, raises when
    [FLP.decide] of the componentwise sum of the two verifier shares is
    false, returns [None] when [FLP.JOINT_RAND_LEN = 0], raises when a
    joint randomness part is absent, and otherwise returns the seed
    derived from the zero seed over the concatenation of the two parts. *)
Theorem prep_shares_to_prep_cases ctx agg_param prep_shares :
  (length prep_shares ≠ 2%nat →
   prep_shares_to_prep ctx agg_param prep_shares
   = Raise (ValueError "unexpected number of prep shares")) ∧
  ∀ eval_proof_0 verifier_share_0 joint_rand_part_0
    eval_proof_1 verifier_share_1 joint_rand_part_1,
    prep_shares = [(eval_proof_0, verifier_share_0, joint_rand_part_0);
                   (eval_proof_1, verifier_share_1, joint_rand_part_1)] →
    (eval_proof_0 ≠ eval_proof_1 →
     prep_shares_to_prep ctx agg_param prep_shares
     = Raise (Exception "VIDPF verification failed")) ∧
    (eval_proof_0 = eval_proof_1 →
     (do_weight_check agg_param = false →
      prep_shares_to_prep ctx agg_param prep_shares = Ok None) ∧
     (do_weight_check agg_param = true →
      (verifier_share_0 = None ∨ verifier_share_1 = None →
       prep_shares_to_prep ctx agg_param prep_shares
       = Raise (ValueError "expected FLP verifier shares")) ∧
      ∀ verifier_0 verifier_1,
        verifier_share_0 = Some verifier_0 →
        verifier_share_1 = Some verifier_1 →
        (flp_decide (zip_with fadd verifier_0 verifier_1) = false →
         prep_shares_to_prep ctx agg_param prep_shares
         = Raise (Exception "FLP verification failed")) ∧
        (flp_decide (zip_with fadd verifier_0 verifier_1) = true →
         (JOINT_RAND_LEN = 0%nat →
          prep_shares_to_prep ctx agg_param prep_shares = Ok None) ∧
         (JOINT_RAND_LEN ≠ 0%nat →
          (joint_rand_part_0 = None ∨ joint_rand_part_1 = None →
           prep_shares_to_prep ctx agg_param prep_shares
           = Raise (ValueError "expected FLP joint randomness parts")) ∧
          ∀ part_0 part_1,
            joint_rand_part_0 = Some part_0 →
            joint_rand_part_1 = Some part_1 →
            prep_shares_to_prep ctx agg_param prep_shares
            = Ok (Some (derive_seed (zeros SEED_SIZE)
                          (dst ctx USAGE_JOINT_RAND_SEED)
                          (part_0 ++ part_1))))))).
Proof.
  split.
  - intros Hlen. unfold prep_shares_to_prep.
    by rewrite (proj2 (Nat.eqb_neq _ _) Hlen).
  - intros e0 v0 j0 e1 v1 j1 ->. unfold prep_shares_to_prep.
    cbn [length Nat.eqb negb index lookup list_lookup mbind result_bind].
    split.
    { intros Hne. by rewrite bool_decide_eq_false_2. }
    intros <-. rewrite bool_decide_eq_true_2 by done. cbn [negb].
    split; [by intros ->|]. intros ->. cbn [negb]. split.
    { intros [-> | ->]; [done | by destruct v0]. }
    intros vs0 vs1 -> ->. fold (vec_add vs0 vs1). split; [by intros ->|].
    intros ->. cbn [negb]. split; [by intros ->|].
    intros Hjr. rewrite (proj2 (Nat.eqb_neq _ _) Hjr). split.
    { intros [-> | ->]; [done | by destruct j0]. }
    intros p0 p1 -> ->. unfold joint_rand_seed, concat. simpl.
    by rewrite app_nil_r.
Qed.

(** *** Facts about [shard] *)

Lemma front_rest_length {A} (n : nat) (vec : list A) :
  length (front n vec).2 = (length vec - n)%nat.
Proof. unfold front. simpl. apply length_drop. Qed.

(** [shard] takes [vidpf.RAND_SIZE] bytes and then three seeds, four with
    joint randomness, and asserts that nothing is left. *)
Lemma shard_leftover ctx measurement nonce rand :
  (vidpf_RAND_SIZE + 3 * SEED_SIZE
   + (if (0 <? JOINT_RAND_LEN)%nat then SEED_SIZE else 0)
   < length rand)%nat →
  shard ctx measurement nonce rand = Raise AssertionError.
Proof.
  intros Hlen. unfold shard.
  destruct (0 <? JOINT_RAND_LEN)%nat;
    unfold shard_with_joint_rand, shard_without_joint_rand, front;
    rewrite !length_drop;
    match goal with
    | |- context [(?n =? 0)%nat] =>
        replace (n =? 0)%nat with false
          by (symmetry; apply Nat.eqb_neq; lia)
    end; done.
Qed.

(** C3 (the defect). On an instance whose FLP measurement is longer than
    a seed ([MEAS_LEN > SEED_SIZE]), [shard] fails its assertion on every
    [rand] of exactly [RAND_SIZE] bytes: [RAND_SIZE] counts [MEAS_LEN]
    bytes where [shard] takes one more seed. *)
Theorem shard_fails_on_RAND_SIZE ctx measurement nonce rand :
  (SEED_SIZE < MEAS_LEN)%nat → length rand = RAND_SIZE →
  shard ctx measurement nonce rand = Raise AssertionError.
Proof.
  intros Hmeas Hlen. apply shard_leftover. rewrite Hlen. unfold RAND_SIZE.
  destruct (0 <? JOINT_RAND_LEN)%nat; lia.
Qed.
(** *** [prep_init] and the caller's public share *)

(** C6 (as amended). [prep_init] makes no copy of the list of joint
    randomness parts. It leaves the heap as it is when [do_weight_check]
    is false or [FLP.JOINT_RAND_LEN = 0]; otherwise, when it returns, it
    has overwritten entry [agg_id] of the caller's list, in place, with
    the part it recomputed (the one in the prep share it returns), and has
    written nothing else: the list holds the same bytes afterwards exactly
    when that entry was the recomputed part already. *)
Theorem prep_init_overwrites_in_place verify_key ctx agg_id agg_param nonce
    correction_words parts_at input_share (h : heap) :
  let run :=
    prep_init verify_key ctx agg_id agg_param nonce
      (correction_words, parts_at) input_share h in
  (do_weight_check agg_param = false ∨ JOINT_RAND_LEN = 0%nat →
   run.2 = h) ∧
  (run.2 = h ∨
   ∃ l parts key seed,
     parts_at = Some l ∧ h !! l = Some parts ∧
     run.2 = <[l := <[agg_id :=
                joint_rand_part ctx agg_id seed key correction_words nonce]>
              parts]> h) ∧
  (∀ prep_state eval_proof verifier_share part,
     run.1 = Ok (prep_state, (eval_proof, verifier_share, Some part)) →
     ∃ l parts,
       parts_at = Some l ∧ h !! l = Some parts ∧
       run.2 = <[l := <[agg_id := part]> parts]> h ∧
       (run.2 = h ↔ parts !! agg_id = Some part)).
Proof.
  intros run. subst run. unfold prep_init.
  unfold mbind, M_bind, mret, M_ret, lift, setitem, deref.
  destruct (expand_input_share ctx agg_id input_share)
    as [[[[key proof_share] seed] beta_share]|e]; cbn [fst snd];
    [|by (split; [done | split; [by left | done]])].
  destruct (vidpf_eval agg_id correction_words key (level agg_param)
              (prefixes agg_param) ctx nonce)
    as [[[truncated_beta_share out_share] eval_proof]|e]; cbn [fst snd];
    [|by (split; [done | split; [by left | done]])].
  destruct (do_weight_check agg_param); cbn [fst snd].
  2:{ destruct (truncate_out_share out_share); cbn [fst snd];
        by (split; [done | split; [by left | done]]). }
  destruct (query_rand verify_key ctx nonce (level agg_param)) as [qr|e];
    cbn [fst snd];
    [|split; [by intros [?|?] | by (split; [by left | done])]].
  destruct (0 <? JOINT_RAND_LEN)%nat eqn:Hjr; cbn [fst snd].
  2:{ destruct (truncate_out_share out_share); cbn [fst snd];
        by (split; [done | split; [by left | done]]). }
  apply Nat.ltb_lt in Hjr.
  destruct seed as [seed|]; cbn [fst snd];
    [|split; [by intros [?|?] | by (split; [by left | done])]].
  destruct parts_at as [l|]; cbn [fst snd];
    [|split; [by intros [?|?] | by (split; [by left | done])]].
  destruct (h !! l) as [parts|] eqn:Hparts; cbn [fst snd];
    [|split; [by intros [?|?] | by (split; [by left | done])]].
  destruct (agg_id <? length parts)%nat eqn:Hagg; cbn [fst snd];
    [|split; [by intros [?|?] | by (split; [by left | done])]].
  apply Nat.ltb_lt in Hagg.
  rewrite lookup_insert_eq. cbn [fst snd].
  set (part := joint_rand_part ctx agg_id seed key correction_words nonce).
  assert (<[l := <[agg_id := part]> parts]> h = h
          ↔ parts !! agg_id = Some part) as Hsame.
  { split.
    - intros Heq. apply (f_equal (λ m, m !! l)) in Heq.
      rewrite lookup_insert_eq, Hparts in Heq. injection Heq as Heq.
      rewrite <- Heq. by apply list_lookup_insert_eq.
    - intros Hpart. by rewrite list_insert_id, insert_id. }
  destruct (truncate_out_share out_share) as [truncated|e]; cbn [fst snd].
  - split; [intros [?|?]; [done | lia]|].
    split; [right; by exists l, parts, key, seed|].
    intros ? ? ? ? [= <- <- <- <-]. by exists l, parts.
  - split; [intros [?|?]; [done | lia]|].
    split; [right; by exists l, parts, key, seed | done].
Qed.
(** *** Facts about [encode_agg_param] *)

(** Bit [k] of a packed chunk: the bit of the chunk at position [7 - k],
    from the most significant bit down, and zero where the chunk ends. *)
Definition chunk_bit (bit_position : nat) (chunk : list bool) (k : Z)
    : bool :=
  if (0 <=? k) && (k <=? 7 - Z.of_nat bit_position)
  then default false (chunk !! (Z.to_nat (7 - k) - bit_position)%nat)
  else false.

Lemma testbit_b2z_shiftl (bit : bool) (s k : Z) :
  0 ≤ s → Z.testbit (Z.shiftl (Z.b2z bit) s) k = bit && (k =? s).
Proof.
  intros Hs. destruct (Z.ltb_spec k 0) as [Hneg|Hpos].
  { rewrite Z.testbit_neg_r by done.
    replace (k =? s) with false by lia. by rewrite andb_false_r. }
  rewrite Z.shiftl_spec by done.
  destruct (Z.eqb_spec k s) as [->|Hne].
  - by rewrite Z.sub_diag, Z.b2z_bit0, andb_true_r.
  - rewrite andb_false_r. destruct (Z.ltb_spec k s).
    + by rewrite Z.testbit_neg_r by lia.
    + destruct bit; simpl; [|apply Z.bits_0].
      destruct (k - s) eqn:Hks; [lia | done | lia].
Qed.

Lemma pack_bits_testbit chunk bit_position byte_out k :
  (bit_position + length chunk ≤ 8)%nat →
  Z.testbit (pack_bits bit_position chunk byte_out) k
  = Z.testbit byte_out k || chunk_bit bit_position chunk k.
Proof.
  revert bit_position byte_out.
  induction chunk as [|bit rest IH]; intros pos acc Hlen.
  - simpl. unfold chunk_bit. rewrite lookup_nil. simpl.
    destruct (_ && _); by rewrite orb_false_r.
  - cbn [pack_bits length] in *. rewrite IH by lia.
    rewrite Z.lor_spec, testbit_b2z_shiftl by lia.
    rewrite <- orb_assoc. f_equal. unfold chunk_bit.
    rewrite Nat2Z.inj_succ.
    destruct (Z.ltb_spec k 0) as [Hneg|Hpos].
    { replace (0 <=? k) with false by bool_lia.
      replace (k =? 7 - Z.of_nat pos) with false by bool_lia.
      by rewrite andb_false_r. }
    replace (0 <=? k) with true by bool_lia. cbn [andb].
    destruct (Z.eqb_spec k (7 - Z.of_nat pos)) as [->|Hne].
    + replace (7 - Z.of_nat pos <=? 7 - Z.succ (Z.of_nat pos)) with false
        by bool_lia.
      replace (7 - Z.of_nat pos <=? 7 - Z.of_nat pos) with true by bool_lia.
      replace (Z.to_nat (7 - (7 - Z.of_nat pos)) - pos)%nat with 0%nat by lia.
      simpl. by rewrite andb_true_r, orb_false_r.
    + rewrite andb_false_r. cbn [orb].
      destruct (Z.leb_spec k (7 - Z.succ (Z.of_nat pos))) as [Hle|Hgt].
      * replace (k <=? 7 - Z.of_nat pos) with true by bool_lia.
        replace (Z.to_nat (7 - k) - pos)%nat
          with (S (Z.to_nat (7 - k) - S pos)) by lia.
        done.
      * by replace (k <=? 7 - Z.of_nat pos) with false by bool_lia.
Qed.

(** A packed byte: bit [7 - i] is bit [i] of the chunk, the bits past the
    chunk are zero, and so is every bit above the eighth. *)
Lemma pack_bits_byte chunk k :
  (length chunk ≤ 8)%nat →
  Z.testbit (pack_bits 0 chunk 0) k
  = if (0 <=? k) && (k <=? 7)
    then default false (chunk !! Z.to_nat (7 - k)) else false.
Proof.
  intros Hlen. rewrite pack_bits_testbit, Z.bits_0 by lia. simpl.
  unfold chunk_bit. simpl. by rewrite Nat.sub_0_r.
Qed.

Lemma pack_bits_inj chunk chunk' :
  length chunk = length chunk' → (length chunk ≤ 8)%nat →
  pack_bits 0 chunk 0 = pack_bits 0 chunk' 0 → chunk = chunk'.
Proof.
  intros Hlen Hle Hpack. apply list_eq. intros i.
  destruct (decide (i < length chunk)%nat) as [Hi|Hi].
  - apply (f_equal (λ z, Z.testbit z (7 - Z.of_nat i))) in Hpack.
    rewrite !pack_bits_byte in Hpack by lia.
    replace ((0 <=? 7 - Z.of_nat i) && (7 - Z.of_nat i <=? 7)) with true
      in Hpack by lia.
    replace (Z.to_nat (7 - (7 - Z.of_nat i))) with i in Hpack by lia.
    destruct (lookup_lt_is_Some_2 chunk i Hi) as [b Hb].
    destruct (lookup_lt_is_Some_2 chunk' i ltac:(lia)) as [b' Hb'].
    rewrite Hb, Hb' in *. simpl in Hpack. by subst.
  - by rewrite !lookup_ge_None_2 by lia.
Qed.
Lemma batched_upto_length {A} fuel (l : list A) :
  (length l ≤ fuel)%nat →
  Z.of_nat (length (batched_upto fuel 8 l)) = (Z.of_nat (length l) + 7) / 8.
Proof.
  revert l. induction fuel as [|fuel IH]; intros l Hfuel.
  - destruct l; [done | simpl in Hfuel; lia].
  - destruct l as [|x l]; [done|].
    cbn [batched_upto]. rewrite length_cons, Nat2Z.inj_succ.
    rewrite IH by (rewrite length_drop; simpl in *; lia).
    rewrite length_drop. cbn [length].
    destruct (decide (length l < 8)%nat).
    + replace (Z.of_nat (S (length l) - 8)) with 0 by lia.
      replace (Z.of_nat (S (length l))) with (Z.of_nat (length l) + 1) by lia.
      change ((0 + 7) / 8) with 0.
      apply Z.div_unique with (r := Z.of_nat (length l)); lia.
    + replace (Z.of_nat (S (length l)) + 7)
        with (Z.of_nat (S (length l) - 8) + 7 + 1 * 8) by lia.
      rewrite Z.div_add by lia. lia.
Qed.

Lemma encode_prefix_length prefix :
  Z.of_nat (length (encode_prefix prefix))
  = (Z.of_nat (length prefix) + 7) / 8.
Proof.
  unfold encode_prefix, batched. rewrite length_fmap.
  by apply batched_upto_length.
Qed.

Lemma batched_upto_inj fuel (l l' : list bool) :
  length l = length l' → (length l ≤ fuel)%nat →
  (λ chunk, pack_bits 0 chunk 0) <$> batched_upto fuel 8 l
  = (λ chunk, pack_bits 0 chunk 0) <$> batched_upto fuel 8 l' →
  l = l'.
Proof.
  revert l l'. induction fuel as [|fuel IH]; intros l l' Hlen Hfuel.
  - destruct l, l'; simpl in *; (done || lia).
  - destruct l as [|x l], l' as [|x' l']; try done.
    cbn [batched_upto].
    set (c := take 8 (x :: l)). set (c' := take 8 (x' :: l')).
    set (d := drop 8 (x :: l)). set (d' := drop 8 (x' :: l')).
    rewrite !fmap_cons. intros [Hhead Htail]%cons_eq_both. subst c c' d d'.
    apply pack_bits_inj in Hhead.
    + apply IH in Htail.
      * by rewrite <- (take_drop 8 (x :: l)), <- (take_drop 8 (x' :: l')),
          Hhead, Htail.
      * by rewrite !length_drop, Hlen.
      * rewrite length_drop. simpl in *. lia.
    + by rewrite !length_take, Hlen.
    + rewrite length_take. lia.
Qed.

Lemma encode_prefix_inj prefix prefix' :
  length prefix = length prefix' →
  encode_prefix prefix = encode_prefix prefix' → prefix = prefix'.
Proof.
  intros Hlen. unfold encode_prefix, batched. rewrite <- Hlen.
  by apply batched_upto_inj.
Qed.

(** The input domain of [encode_agg_param]: a level that fits two bytes,
    a number of prefixes that fits four, every prefix of [level + 1]
    bits. *)
Definition in_domain (agg_param : MasticAggParam) : Prop :=
  0 ≤ level agg_param < 2 ^ 16 ∧
  Z.of_nat (length (prefixes agg_param)) < 2 ^ 32 ∧
  Forall (λ prefix, Z.of_nat (length prefix) = level agg_param + 1)
    (prefixes agg_param).

Lemma encoded_prefixes_length (prefixes : list (list bool)) (level : Z) :
  Forall (λ prefix, Z.of_nat (length prefix) = level + 1) prefixes →
  Z.of_nat (length (mjoin (encode_prefix <$> prefixes)))
  = (level + 1 + 7) / 8 * Z.of_nat (length prefixes).
Proof.
  induction 1 as [|prefix prefixes Hlen _ IH]; [simpl; lia|].
  rewrite fmap_cons, length_cons, mjoin_cons.
  rewrite length_app, Nat2Z.inj_add, IH, encode_prefix_length, Hlen. lia.
Qed.

Lemma encode_agg_param_Ok agg_param :
  in_domain agg_param →
  encode_agg_param agg_param
  = Ok (rev (le_digits (level agg_param) 2)
        ++ rev (le_digits (Z.of_nat (length (prefixes agg_param))) 4)
        ++ [Z.b2z (do_weight_check agg_param)]
        ++ mjoin (encode_prefix <$> prefixes agg_param)).
Proof.
  intros (Hlevel & Hcount & Hlen). unfold encode_agg_param.
  rewrite (proj2 (Z.leb_le 0 _)), (proj2 (Z.ltb_lt (level agg_param) _)),
    (proj2 (Z.ltb_lt (Z.of_nat _) _)) by lia.
  cbn [andb negb].
  rewrite !to_be_bytes_Ok
    by first [ change (256 ^ Z.of_nat 2) with (2 ^ 16); lia
             | change (256 ^ Z.of_nat 4) with (2 ^ 32); lia
             | by destruct (do_weight_check agg_param) ].
  cbn [mbind result_bind].
  rewrite (encoded_prefixes_length _ (level agg_param)), Z.eqb_refl by done.
  by destruct (do_weight_check agg_param).
Qed.

(** C7. [encode_agg_param] is injective on its input domain: two
    aggregation parameters of the domain with the same encoding are the
    same. And the encoding is what the claim says: the level in two bytes,
    big-endian, then the number of prefixes in four, then one byte for
    [do_weight_check], then every prefix in [(level + 1 + 7) / 8] bytes,
    bit [i] of a chunk of eight as bit [7 - i] of its byte and zeros
    after the last bit. *)
Theorem encode_agg_param_injective :
  (∀ agg_param agg_param',
     in_domain agg_param → in_domain agg_param' →
     encode_agg_param agg_param = encode_agg_param agg_param' →
     agg_param = agg_param') ∧
  (∀ agg_param, in_domain agg_param →
     encode_agg_param agg_param
     = Ok (rev (le_digits (level agg_param) 2)
           ++ rev (le_digits (Z.of_nat (length (prefixes agg_param))) 4)
           ++ [Z.b2z (do_weight_check agg_param)]
           ++ mjoin (encode_prefix <$> prefixes agg_param)) ∧
     Forall (λ prefix,
               Z.of_nat (length (encode_prefix prefix))
               = (level agg_param + 1 + 7) / 8)
       (prefixes agg_param)) ∧
  (∀ prefix, encode_prefix prefix
             = (λ chunk, pack_bits 0 chunk 0) <$> batched prefix 8) ∧
  (∀ chunk k, (length chunk ≤ 8)%nat →
     Z.testbit (pack_bits 0 chunk 0) k
     = if (0 <=? k) && (k <=? 7)
       then default false (chunk !! Z.to_nat (7 - k)) else false).
Proof.
  split; [|split; [|split]].
  - intros [level prefixes check] [level' prefixes' check'] Hdom Hdom'.
    rewrite !encode_agg_param_Ok by done. cbn [Mastic.level Mastic.prefixes
      Mastic.do_weight_check]. intros Henc%Ok_inj.
    destruct Hdom as (Hlevel & Hcount & Hlen).
    destruct Hdom' as (Hlevel' & Hcount' & Hlen').
    cbn [Mastic.level Mastic.prefixes Mastic.do_weight_check] in *.
    apply app_inj_1 in Henc as [Hl Henc];
      [|by rewrite !length_rev, !le_digits_length].
    apply app_inj_1 in Henc as [Hc Henc];
      [|by rewrite !length_rev, !le_digits_length].
    apply cons_eq_both in Henc as [Hcheck Hprefixes].
    apply (f_equal (λ l, rev l)) in Hl, Hc.
    rewrite !rev_involutive in Hl, Hc.
    apply le_digits_inj in Hl;
      [| change (256 ^ Z.of_nat 2) with (2 ^ 16); lia..].
    apply le_digits_inj in Hc;
      [| change (256 ^ Z.of_nat 4) with (2 ^ 32); lia..].
    apply Nat2Z.inj in Hc. subst level'.
    assert (check = check') as -> by (by destruct check, check').
    f_equal.
    assert (Forall2 (λ p p', length p = length p') prefixes prefixes')
      as Hsame.
    { apply Forall2_same_length_lookup. split; [done|].
      intros i p p' Hp Hp'.
      rewrite Forall_lookup in Hlen, Hlen'.
      specialize (Hlen i p Hp). specialize (Hlen' i p' Hp'). lia. }
    apply mjoin_inj in Hprefixes.
    + clear -Hsame Hprefixes.
      induction Hsame as [|p p' ps ps' Hp _ IH]; [done|].
      rewrite !fmap_cons in Hprefixes.
      apply cons_eq_both in Hprefixes as [Hhead Htail].
      f_equal; [by apply encode_prefix_inj | by apply IH].
    + apply Forall2_fmap. eapply Forall2_impl; [exact Hsame|].
      intros p p' Hp. simpl. apply Nat2Z.inj.
      by rewrite !encode_prefix_length, Hp.
  - intros agg_param Hdom. split; [by apply encode_agg_param_Ok|].
    destruct Hdom as (_ & _ & Hlen).
    eapply Forall_impl; [exact Hlen|]. intros prefix Hp. simpl in *.
    by rewrite encode_prefix_length, Hp.
  - done.
  - intros chunk k Hlen. by apply pack_bits_byte.
Qed.
(** *** Sequences of aggregation parameters that [is_valid] accepts *)

Lemma valid_history_app agg_params agg_param :
  valid_history agg_params → is_valid agg_param agg_params = true →
  valid_history (agg_params ++ [agg_param]).
Proof.
  intros Hvalid Hp i q Hq.
  destruct (decide (i < length agg_params)%nat).
  - rewrite lookup_app_l in Hq by done. rewrite take_app_le by lia.
    by apply Hvalid.
  - pose proof (lookup_lt_Some _ _ _ Hq) as Hi.
    rewrite length_app in Hi. simpl in Hi.
    assert (i = length agg_params) as -> by lia.
    rewrite lookup_app_r, Nat.sub_diag in Hq by lia. injection Hq as <-.
    by rewrite take_app_length.
Qed.

(** X13. The sequences of aggregation parameters that [is_valid] accepts
    one after the other are those in which the first parameter, and no
    other, asks for the weight check and the levels strictly increase. *)
Theorem valid_history_iff agg_params :
  valid_history agg_params ↔
  (∀ i p, agg_params !! i = Some p →
     (do_weight_check p = true ↔ i = 0%nat)) ∧
  (∀ i j p q, (i < j)%nat →
     agg_params !! i = Some p → agg_params !! j = Some q →
     level p < level q).
Proof.
  induction agg_params as [|q ps IH] using rev_ind.
  - split; [|by intros _ i p Hp]. intros _. by split; intros *; try done.
  - split.
    + intros [Hvalid Hq]%valid_history_snoc.
      destruct (proj1 IH Hvalid) as [Hchecks Hlevels]. clear IH.
      destruct ps as [|r ps' _] using rev_ind.
      * rewrite is_valid_first in Hq. split.
        -- intros [|i] p Hp; simpl in Hp; [|by destruct i].
           injection Hp as <-. done.
        -- intros [|i] [|j] p p' Hij Hp Hp'; simpl in *; try lia;
             by destruct j.
      * rewrite is_valid_later in Hq.
        apply andb_prop in Hq as [[Hno _]%andb_prop Hlt].
        apply negb_true_iff in Hno. apply Z.ltb_lt in Hlt.
        assert (∀ i p, (ps' ++ [r]) !! i = Some p → level p ≤ level r)
          as Hmax.
        { intros i p Hp. pose proof (lookup_lt_Some _ _ _ Hp) as Hi.
          rewrite length_app in Hi. simpl in Hi.
          destruct (decide (i = length ps')) as [->|Hne].
          - rewrite lookup_app_r, Nat.sub_diag in Hp by lia.
            injection Hp as <-. lia.
          - assert (level p < level r); [|lia].
            apply (Hlevels i (length ps') p r); [lia | done |].
            by rewrite lookup_app_r, Nat.sub_diag by lia. }
        split.
        -- intros i p Hp. pose proof (lookup_lt_Some _ _ _ Hp) as Hi.
           rewrite !length_app in Hi. simpl in Hi.
           destruct (decide (i < length (ps' ++ [r]))%nat) as [Hlt'|Hge].
           ++ rewrite lookup_app_l in Hp by done. by apply Hchecks.
           ++ rewrite length_app in Hge. simpl in Hge.
              rewrite lookup_app_r in Hp by (rewrite length_app; simpl; lia).
              rewrite length_app in Hp. simpl in Hp.
              replace (i - (length ps' + 1))%nat with 0%nat in Hp by lia.
              injection Hp as <-. rewrite Hno. split; [done | lia].
        -- intros i j p p' Hij Hp Hp'.
           pose proof (lookup_lt_Some _ _ _ Hp') as Hj.
           rewrite !length_app in Hj. simpl in Hj.
           assert (i < length (ps' ++ [r]))%nat as Hi
             by (rewrite length_app; simpl; lia).
           rewrite lookup_app_l in Hp by done.
           destruct (decide (j < length (ps' ++ [r]))%nat) as [Hlt'|Hge].
           ++ rewrite lookup_app_l in Hp' by done.
              by apply (Hlevels i j).
           ++ rewrite length_app in Hge. simpl in Hge.
              rewrite lookup_app_r in Hp'
                by (rewrite length_app; simpl; lia).
              rewrite length_app in Hp'. simpl in Hp'.
              replace (j - (length ps' + 1))%nat with 0%nat in Hp' by lia.
              injection Hp' as <-. specialize (Hmax i p Hp). lia.
    + intros [Hchecks Hlevels].
      assert (valid_history ps) as Hvalid.
      { apply IH. split.
        - intros i p Hp. apply Hchecks.
          by rewrite lookup_app_l by by eapply lookup_lt_Some.
        - intros i j p p' Hij Hp Hp'. apply (Hlevels i j); [done | |].
          + by rewrite lookup_app_l by by eapply lookup_lt_Some.
          + by rewrite lookup_app_l by by eapply lookup_lt_Some. }
      apply valid_history_app; [done|]. clear IH Hvalid.
      destruct ps as [|r ps' _] using rev_ind.
      * rewrite is_valid_first. by apply (Hchecks 0%nat q).
      * rewrite is_valid_later.
        assert ((ps' ++ [r] ++ [q]) !! length (ps' ++ [r]) = Some q) as Hq.
        { rewrite (assoc_L (++)).
          by rewrite lookup_app_r, Nat.sub_diag by lia. }
        rewrite <- (assoc_L (++)) in Hchecks, Hlevels.
        apply andb_true_intro. split; [apply andb_true_intro; split|].
        -- apply negb_true_iff.
           destruct (do_weight_check q) eqn:Hdwc; [exfalso|done].
           apply (Hchecks _ _ Hq) in Hdwc.
           rewrite length_app in Hdwc. simpl in Hdwc. lia.
        -- apply existsb_exists.
           destruct ps' as [|p0 ps'']; [exists r | exists p0];
             (split; [by left | by apply (Hchecks 0%nat)]).
        -- apply Z.ltb_lt.
           apply (Hlevels (length ps') (length (ps' ++ [r])) r q).
           ++ rewrite length_app. simpl. lia.
           ++ by rewrite lookup_app_r, Nat.sub_diag by lia.
           ++ done.
Qed.

(** *** The length of an aggregate *)

Lemma foldl_vec_add_length (agg : list F) (shares : list (list F)) n :
  length agg = n → Forall (λ a, length a = n) shares →
  length (foldl vec_add agg shares) = n.
Proof.
  intros Hagg Hshares. revert agg Hagg.
  induction Hshares as [|b shares Hb _ IH]; intros agg Hagg; simpl;
    [done|].
  apply IH. unfold vec_add. rewrite length_zip_with. lia.
Qed.

(** X14. Of aggregate shares that all have the length of [agg_init], one
    entry per prefix and output element, [merge] has that length; the
    zeros it starts from add nothing: merging one share gives that share,
    and merging a list gives the sum from its first share on. *)
Theorem merge_lengths agg_param agg_shares a :
  let n := (length (prefixes agg_param) * (1 + OUTPUT_LEN))%nat in
  Forall (λ a, length a = n) agg_shares → length a = n →
  length (merge agg_param agg_shares) = n ∧
  merge agg_param [a] = a ∧
  merge agg_param (a :: agg_shares) = foldl vec_add a agg_shares.
Proof.
  intros n Hshares Ha. unfold merge, agg_init. fold n. clearbody n.
  assert (length (fzeros (F:=F) n) = n) as Hn
    by (unfold fzeros; apply length_replicate).
  assert (vec_add (fzeros n) a = a) as Hzero by pointwise.
  split; [by apply foldl_vec_add_length|].
  cbn [foldl]. by rewrite Hzero.
Qed.

(** *** [encode_agg_param]: what it accepts *)

Lemma encoded_total (prefixes : list (list bool)) :
  Z.of_nat (length (mjoin (encode_prefix <$> prefixes)))
  = foldr (λ prefix total, (Z.of_nat (length prefix) + 7) / 8 + total) 0
      prefixes.
Proof.
  induction prefixes as [|prefix prefixes IH]; [done|].
  cbn [fmap list_fmap mjoin list_join foldr].
  rewrite length_app, Nat2Z.inj_add, encode_prefix_length.
  by rewrite <- IH.
Qed.

(** X15. [encode_agg_param] raises [ValueError] on a level outside
    [0, 2^16) and on [2^32] prefixes or more, and fails its assertion when
    the prefixes do not pack into [(level + 8) // 8] bytes each in total;
    otherwise it returns 7 bytes and the packed prefixes. It does not
    check that a prefix has [level + 1] bits. *)
Theorem encode_agg_param_cases agg_param :
  let packed :=
    foldr (λ prefix total, (Z.of_nat (length prefix) + 7) / 8 + total) 0
      (prefixes agg_param) in
  let expected :=
    (level agg_param + 1 + 7) / 8 * Z.of_nat (length (prefixes agg_param)) in
  (¬ 0 ≤ level agg_param < 2 ^ 16 →
   encode_agg_param agg_param = Raise (ValueError "level out of range")) ∧
  (0 ≤ level agg_param < 2 ^ 16 →
   2 ^ 32 ≤ Z.of_nat (length (prefixes agg_param)) →
   encode_agg_param agg_param
   = Raise (ValueError "number of prefixes out of range")) ∧
  (0 ≤ level agg_param < 2 ^ 16 →
   Z.of_nat (length (prefixes agg_param)) < 2 ^ 32 →
   packed ≠ expected →
   encode_agg_param agg_param = Raise AssertionError) ∧
  (0 ≤ level agg_param < 2 ^ 16 →
   Z.of_nat (length (prefixes agg_param)) < 2 ^ 32 →
   packed = expected →
   ∃ encoded,
     encode_agg_param agg_param = Ok encoded ∧
     Z.of_nat (length encoded) = 7 + expected).
Proof.
  intros packed expected. unfold encode_agg_param.
  split; [|split; [|split]].
  - intros Hlevel.
    destruct ((0 <=? level agg_param) && (level agg_param <? 2 ^ 16))
      eqn:Hin; [|done].
    apply andb_prop in Hin as [?%Z.leb_le ?%Z.ltb_lt]. lia.
  - intros Hlevel Hcount.
    rewrite (proj2 (Z.leb_le 0 _)), (proj2 (Z.ltb_lt (level agg_param) _))
      by lia.
    by rewrite (proj2 (Z.ltb_ge (Z.of_nat _) _)) by lia.
  - intros Hlevel Hcount Hpacked.
    rewrite (proj2 (Z.leb_le 0 _)), (proj2 (Z.ltb_lt (level agg_param) _)),
      (proj2 (Z.ltb_lt (Z.of_nat _) _)) by lia.
    cbn [andb negb].
    rewrite !to_be_bytes_Ok
      by first [ change (256 ^ Z.of_nat 2) with (2 ^ 16); lia
               | change (256 ^ Z.of_nat 4) with (2 ^ 32); lia
               | by destruct (do_weight_check agg_param) ].
    cbn [mbind result_bind]. rewrite encoded_total.
    by rewrite (proj2 (Z.eqb_neq _ _)) by done.
  - intros Hlevel Hcount Hpacked.
    rewrite (proj2 (Z.leb_le 0 _)), (proj2 (Z.ltb_lt (level agg_param) _)),
      (proj2 (Z.ltb_lt (Z.of_nat _) _)) by lia.
    cbn [andb negb].
    rewrite !to_be_bytes_Ok
      by first [ change (256 ^ Z.of_nat 2) with (2 ^ 16); lia
               | change (256 ^ Z.of_nat 4) with (2 ^ 32); lia
               | by destruct (do_weight_check agg_param) ].
    cbn [mbind result_bind]. rewrite encoded_total.
    rewrite (proj2 (Z.eqb_eq _ _)) by done.
    cbn [assert mbind result_bind mret result_ret]. eexists.
    split; [reflexivity|].
    rewrite !length_app, !length_rev, !le_digits_length, !Nat2Z.inj_add.
    rewrite encoded_total. fold packed. lia.
Qed.

Lemma pack_bits_snoc_false bit_position chunk byte_out :
  pack_bits bit_position (chunk ++ [false]) byte_out
  = pack_bits bit_position chunk byte_out.
Proof.
  revert bit_position byte_out.
  induction chunk as [|bit chunk IH]; intros bit_position byte_out.
  - cbn. by rewrite Z.shiftl_0_l, Z.lor_0_r.
  - cbn [app pack_bits]. apply IH.
Qed.

Lemma batched_upto_nil {A} fuel n : batched_upto (A:=A) fuel n [] = [].
Proof. by destruct fuel. Qed.

Lemma batched_upto_snoc_false fuel (l : list bool) :
  (length l ≤ fuel)%nat → Z.of_nat (length l) mod 8 ≠ 0 →
  (λ chunk, pack_bits 0 chunk 0) <$> batched_upto (S fuel) 8 (l ++ [false])
  = (λ chunk, pack_bits 0 chunk 0) <$> batched_upto fuel 8 l.
Proof.
  revert l. induction fuel as [|fuel IH]; intros l Hfuel Hmod.
  - destruct l; [done | simpl in Hfuel; lia].
  - destruct l as [|x l]; [done|].
    destruct (decide (length (x :: l) < 8)%nat) as [Hshort|Hlong].
    + cbn [app batched_upto].
      change (x :: l ++ [false]) with ((x :: l) ++ [false]).
      rewrite !drop_ge, !batched_upto_nil
        by (rewrite ?length_app; simpl in *; lia).
      rewrite !take_ge by (rewrite ?length_app; simpl in *; lia).
      cbn [fmap list_fmap]. by rewrite pack_bits_snoc_false.
    + assert (8 < length (x :: l))%nat as Hlen.
      { destruct (decide (length (x :: l) = 8%nat)) as [E|]; [|lia].
        rewrite E in Hmod. done. }
      change (batched_upto (S (S fuel)) 8 ((x :: l) ++ [false]))
        with (take 8 ((x :: l) ++ [false])
              :: batched_upto (S fuel) 8 (drop 8 ((x :: l) ++ [false]))).
      change (batched_upto (S fuel) 8 (x :: l))
        with (take 8 (x :: l) :: batched_upto fuel 8 (drop 8 (x :: l))).
      rewrite take_app_le, drop_app_le by lia.
      cbn [fmap list_fmap]. f_equal. apply IH.
      * rewrite length_drop. simpl in *. lia.
      * rewrite length_drop.
        replace (Z.of_nat (length (x :: l) - 8))
          with (Z.of_nat (length (x :: l)) + (-1) * 8) by lia.
        by rewrite Z.mod_add by lia.
Qed.

Lemma encode_prefix_padding prefix :
  Z.of_nat (length prefix) mod 8 ≠ 0 →
  encode_prefix (prefix ++ [false]) = encode_prefix prefix.
Proof.
  intros Hmod. unfold encode_prefix, batched.
  rewrite length_app. cbn [length]. rewrite Nat.add_1_r.
  by apply batched_upto_snoc_false.
Qed.

(** X16. Outside the domain of prefixes of [level + 1] bits the encoding
    is not injective: a [False] appended to a prefix whose length is no
    multiple of eight falls into the padding, and the aggregation parameter
    encodes as before. *)
Theorem encode_agg_param_padding level' before prefix after check :
  Z.of_nat (length prefix) mod 8 ≠ 0 →
  encode_agg_param
    {| level := level'; prefixes := before ++ (prefix ++ [false]) :: after;
       do_weight_check := check |}
  = encode_agg_param
      {| level := level'; prefixes := before ++ prefix :: after;
         do_weight_check := check |}.
Proof.
  intros Hmod. unfold encode_agg_param. cbn [level prefixes do_weight_check].
  rewrite !fmap_app, !fmap_cons, encode_prefix_padding by done.
  by rewrite !length_app.
Qed.
(** *** [shard]: what it takes and what it returns *)

(** The bytes of [rand] that [shard] takes. *)
Definition shard_takes : nat :=
  (vidpf_RAND_SIZE + 3 * SEED_SIZE
   + if (0 <? JOINT_RAND_LEN)%nat then SEED_SIZE else 0)%nat.

(** What [shard] returns, by the seeds it took and the keys of the
    VIDPF. *)
Definition shard_output (ctx : bytes) (weight : W) (nonce : bytes)
    (correction_words : list CW) (key_0 key_1 : bytes)
    (prove_rand_seed leader_seed helper_seed beta_helper_seed : bytes)
    : (list CW * option (list bytes)) * list (MasticInputShare F) :=
  let beta := flp_encode weight in
  let joint_rand_parts :=
    [joint_rand_part ctx 0 leader_seed key_0 correction_words nonce;
     joint_rand_part ctx 1 helper_seed key_1 correction_words nonce] in
  let with_joint_rand := (0 <? JOINT_RAND_LEN)%nat in
  let joint_rand :=
    if with_joint_rand
    then joint_rand ctx (joint_rand_seed ctx joint_rand_parts) else [] in
  let proof := flp_prove beta (prove_rand ctx prove_rand_seed) joint_rand in
  let beta_helper_share := beta_share_from_seed ctx beta_helper_seed in
  ((correction_words,
    if with_joint_rand then Some joint_rand_parts else None),
   [(key_0, Some (vec_sub proof (helper_proof_share ctx helper_seed)),
     if with_joint_rand then Some leader_seed else None,
     vec_sub beta beta_helper_share);
    (key_1, None, Some helper_seed, beta_helper_share)]).

Lemma shard_eq ctx alpha weight nonce rand :
  (length rand ≤ shard_takes)%nat →
  ∃ prove_rand_seed leader_seed helper_seed beta_helper_seed,
    shard ctx (alpha, weight) nonce rand
    = '(correction_words, keys) ←
        vidpf_gen alpha (flp_truncate (flp_encode weight)) ctx nonce
          (take vidpf_RAND_SIZE rand);
      key_0 ← index keys 0;
      key_1 ← index keys 1;
      mret (shard_output ctx weight nonce correction_words key_0 key_1
              prove_rand_seed leader_seed helper_seed beta_helper_seed).
Proof.
  unfold shard_takes, shard, shard_output. intros Hlen.
  destruct (0 <? JOINT_RAND_LEN)%nat;
    unfold shard_with_joint_rand, shard_without_joint_rand, front;
    match goal with
    | |- context [(length ?r =? 0)%nat] =>
        replace (length r =? 0)%nat with true
          by (symmetry; apply Nat.eqb_eq; rewrite !length_drop; lia)
    end; cbn [assert mbind result_bind].
  - eexists _, _, _, _.
    destruct (vidpf_gen _ _ _ _ _) as [[cws keys]|e]; [|done].
    cbn [mbind result_bind]. reflexivity.
  - eexists _, [], _, _.
    destruct (vidpf_gen _ _ _ _ _) as [[cws keys]|e]; [|done].
    cbn [mbind result_bind]. reflexivity.
Qed.

(** X17. [shard] fails its assertion, before it calls the VIDPF, on a
    [rand] longer than the bytes it takes: [vidpf.RAND_SIZE] and three
    seeds, four with joint randomness. When it returns, the VIDPF was
    given the first [vidpf.RAND_SIZE] bytes of [rand] and returned two
    keys or more, of which the first two are the keys of the Leader's and
    the Helper's input shares, and its correction words are in the public
    share; the list of joint randomness parts is there exactly with joint
    randomness. *)
Theorem shard_returns_only_if ctx alpha weight nonce rand :
  let takes :=
    (vidpf_RAND_SIZE + 3 * SEED_SIZE
     + if (0 <? JOINT_RAND_LEN)%nat then SEED_SIZE else 0)%nat in
  ((takes < length rand)%nat →
   shard ctx (alpha, weight) nonce rand = Raise AssertionError) ∧
  ∀ public_share input_shares,
    shard ctx (alpha, weight) nonce rand = Ok (public_share, input_shares) →
    (length rand ≤ takes)%nat ∧
    ∃ correction_words keys key_0 key_1,
      vidpf_gen alpha (flp_truncate (flp_encode weight)) ctx nonce
        (take vidpf_RAND_SIZE rand) = Ok (correction_words, keys) ∧
      keys !! 0%nat = Some key_0 ∧ keys !! 1%nat = Some key_1 ∧
      public_share.1 = correction_words ∧
      (is_Some public_share.2 ↔ (0 < JOINT_RAND_LEN)%nat) ∧
      (λ input_share : MasticInputShare F, input_share.1.1.1)
        <$> input_shares = [key_0; key_1].
Proof.
  intros takes. split; [apply shard_leftover|].
  intros public_share input_shares Hrun.
  destruct (decide (length rand ≤ shard_takes)%nat) as [Hlen|Hlen];
    [|by rewrite shard_leftover in Hrun
        by (unfold shard_takes in Hlen; lia)].
  split; [exact Hlen|].
  destruct (shard_eq ctx alpha weight nonce rand Hlen)
    as (s1 & s2 & s3 & s4 & Heq).
  rewrite Heq in Hrun. clear Heq.
  apply bind_Ok in Hrun as ([cws keys] & Hgen & Hrun).
  apply bind_Ok in Hrun as (key_0 & H0%index_Ok_inv & Hrun).
  apply bind_Ok in Hrun as (key_1 & H1%index_Ok_inv & Hrun).
  unfold shard_output in Hrun. injection Hrun as <- <-.
  exists cws, keys, key_0, key_1. cbn [fst snd fmap list_fmap].
  repeat (split; [done|]). split; [|done].
  destruct (0 <? JOINT_RAND_LEN)%nat eqn:Hjr.
  - apply Nat.ltb_lt in Hjr. split; [done | eauto].
  - apply Nat.ltb_ge in Hjr. split; [by intros [? ?] | lia].
Qed.

Section Contracts.

(** The contract of the XOF and of the FLP on lengths. *)
Hypothesis expand_into_vec_length :
  ∀ seed dst binder n, length (expand_into_vec seed dst binder n) = n.
Hypothesis flp_encode_length : ∀ w, length (flp_encode w) = MEAS_LEN.
Hypothesis flp_prove_length :
  ∀ meas prove_rand joint_rand,
    length meas = MEAS_LEN → length prove_rand = PROVE_RAND_LEN →
    length joint_rand = JOINT_RAND_LEN →
    length (flp_prove meas prove_rand joint_rand) = PROOF_LEN.

(** X18. The input shares that [shard] returns are two, the Leader's and
    the Helper's. [expand_input_share] accepts each for its Aggregator,
    the two shares of [beta] sum to the encoded weight, and the two proof
    shares sum to the proof that [FLP.prove] gave for it. *)
Theorem shard_shares ctx alpha weight nonce rand public_share input_shares :
  shard ctx (alpha, weight) nonce rand = Ok (public_share, input_shares) →
  ∃ input_0 input_1 key_0 proof_share_0 seed_0 beta_share_0
    key_1 proof_share_1 seed_1 beta_share_1 prove_rand_seed joint_rand,
    input_shares = [input_0; input_1] ∧
    expand_input_share ctx 0 input_0
    = Ok (key_0, proof_share_0, seed_0, beta_share_0) ∧
    expand_input_share ctx 1 input_1
    = Ok (key_1, proof_share_1, seed_1, beta_share_1) ∧
    vec_add beta_share_0 beta_share_1 = flp_encode weight ∧
    length joint_rand = JOINT_RAND_LEN ∧
    vec_add proof_share_0 proof_share_1
    = flp_prove (flp_encode weight) (prove_rand ctx prove_rand_seed)
        joint_rand.
Proof.
  intros Hrun.
  destruct (decide (length rand ≤ shard_takes)%nat) as [Hlen|Hlen];
    [|by rewrite shard_leftover in Hrun
        by (unfold shard_takes in Hlen; lia)].
  destruct (shard_eq ctx alpha weight nonce rand Hlen)
    as (s1 & s2 & s3 & s4 & Heq).
  rewrite Heq in Hrun. clear Heq.
  apply bind_Ok in Hrun as ([cws keys] & _ & Hrun).
  apply bind_Ok in Hrun as (key_0 & _ & Hrun).
  apply bind_Ok in Hrun as (key_1 & _ & Hrun).
  unfold shard_output in Hrun. injection Hrun as <- <-.
  set (jr := if (0 <? JOINT_RAND_LEN)%nat then _ else []).
  assert (length jr = JOINT_RAND_LEN) as Hjr.
  { subst jr. destruct (0 <? JOINT_RAND_LEN)%nat eqn:E.
    - apply expand_into_vec_length.
    - apply Nat.ltb_ge in E. simpl. lia. }
  pose proof (flp_prove_length (flp_encode weight) (prove_rand ctx s1) jr
                (flp_encode_length weight)
                (expand_into_vec_length _ _ _ _) Hjr) as Hproof.
  pose proof (flp_encode_length weight) as Hbeta.
  pose proof (expand_into_vec_length s3 (dst ctx USAGE_PROOF_SHARE) []
                PROOF_LEN) as Hhelper.
  pose proof (expand_into_vec_length s4 (dst ctx USAGE_PROOF_SHARE) []
                MEAS_LEN) as Hshare.
  eexists _, _, _, _, _, _, _, _, _, _, s1, jr.
  split; [reflexivity|].
  split; [reflexivity|]. split; [reflexivity|].
  unfold helper_proof_share, beta_share_from_seed.
  split; [|split; [done|]]; pointwise.
Qed.
End Contracts.
(** *** [prep_init]: when it returns, and what *)

Lemma truncate_out_share_Ok_inv out_share t :
  truncate_out_share out_share = Ok t →
  Forall (λ val_share, val_share ≠ []) out_share.
Proof.
  intros Hrun. apply Forall_forall. intros v Hv ->.
  by destruct (for_each_Ok_inv _ _ _ _ Hrun [] Hv) as (s & s' & Hs).
Qed.

Lemma query_rand_Ok verify_key ctx nonce level' :
  (∃ r, query_rand verify_key ctx nonce level' = Ok r) ↔
  0 ≤ level' < 2 ^ 16.
Proof.
  unfold query_rand, to_le_bytes, fits.
  change (256 ^ Z.of_nat 2) with (2 ^ 16).
  destruct (0 <=? level') eqn:E0; destruct (level' <? 2 ^ 16) eqn:E1;
    cbn [andb mbind result_bind mret result_ret];
    (split; [intros [r Hr] | intros Hl]); try done; try lia; eauto.
Qed.

(** A call of [prep_init] that returned. *)
Lemma prep_init_Ok_inv verify_key ctx agg_id agg_param nonce cws parts_at
    key proof_share seed beta_share (h h' : heap) state pshare :
  prep_init verify_key ctx agg_id agg_param nonce (cws, parts_at)
    (key, proof_share, seed, beta_share) h
  = (Ok (state, pshare), h') →
  (if (agg_id =? 0)%nat then is_Some proof_share else is_Some seed) ∧
  ∃ b out_share,
    vidpf_eval agg_id cws key (level agg_param) (prefixes agg_param) ctx
      nonce = Ok (b, out_share, pshare.1.1) ∧
    truncate_out_share out_share = Ok state.1 ∧
    ((do_weight_check agg_param = false ∧ h' = h ∧ state.2 = None ∧
      pshare.1.2 = None ∧ pshare.2 = None) ∨
     (do_weight_check agg_param = true ∧ 0 ≤ level agg_param < 2 ^ 16 ∧
      is_Some pshare.1.2 ∧
      ((JOINT_RAND_LEN = 0%nat ∧ h' = h ∧ state.2 = None ∧
        pshare.2 = None) ∨
       ((0 < JOINT_RAND_LEN)%nat ∧
        ∃ seed' l parts,
          seed = Some seed' ∧ parts_at = Some l ∧ h !! l = Some parts ∧
          (agg_id < length parts)%nat ∧
          h' = <[l := <[agg_id :=
                  joint_rand_part ctx agg_id seed' key cws nonce]> parts]> h
          ∧
          state.2
          = Some (joint_rand_seed ctx
                    (<[agg_id :=
                        joint_rand_part ctx agg_id seed' key cws nonce]>
                     parts)) ∧
          pshare.2
          = Some (joint_rand_part ctx agg_id seed' key cws nonce))))).
Proof.
  unfold prep_init.
  unfold mbind, M_bind, mret, M_ret, lift, setitem, deref.
  assert (∀ (ps : option (list F)) (s : option bytes),
            (∃ r, expand_input_share ctx agg_id (key, ps, s, beta_share)
                  = Ok r) →
            if (agg_id =? 0)%nat then is_Some ps else is_Some s) as Hexp.
  { intros ps s [r Hr]. unfold expand_input_share in Hr.
    destruct (agg_id =? 0)%nat; [by destruct ps | by destruct s]. }
  destruct (expand_input_share ctx agg_id (key, proof_share, seed,
              beta_share)) as [[[[key' proof_share'] seed'] beta_share']|e]
    eqn:Hexpand; cbn [fst snd]; [|done].
  assert (key' = key ∧ seed' = seed) as [-> ->].
  { unfold expand_input_share in Hexpand.
    destruct (agg_id =? 0)%nat; [destruct proof_share | destruct seed];
      by simplify_eq. }
  specialize (Hexp proof_share seed ltac:(eauto)).
  destruct (vidpf_eval agg_id cws key (level agg_param)
              (prefixes agg_param) ctx nonce)
    as [[[b out_share] eval_proof]|e]; cbn [fst snd]; [|done].
  destruct (do_weight_check agg_param); cbn [fst snd].
  2:{ destruct (truncate_out_share out_share) as [t|e] eqn:Ht;
        cbn [fst snd]; [|done].
      intros [= <- <- <-]. cbn [fst snd]. split; [done|].
      exists b, out_share. split; [done|]. split; [done|]. by left. }
  destruct (query_rand verify_key ctx nonce (level agg_param)) as [qr|e]
    eqn:Hqr; cbn [fst snd]; [|done].
  assert (0 ≤ level agg_param < 2 ^ 16) as Hlevel
    by (apply (query_rand_Ok verify_key ctx nonce); eauto).
  destruct (0 <? JOINT_RAND_LEN)%nat eqn:Hjr; cbn [fst snd].
  2:{ apply Nat.ltb_ge in Hjr.
      destruct (truncate_out_share out_share) as [t|e] eqn:Ht;
        cbn [fst snd]; [|done].
      intros [= <- <- <-]. cbn [fst snd]. split; [done|].
      exists b, out_share. split; [done|]. split; [done|]. right.
      split; [done|]. split; [done|]. split; [eauto|]. left.
      repeat split; (done || lia). }
  apply Nat.ltb_lt in Hjr.
  destruct seed as [seed'|]; cbn [fst snd]; [|done].
  destruct parts_at as [l|]; cbn [fst snd]; [|done].
  destruct (h !! l) as [parts|] eqn:Hl; cbn [fst snd]; [|done].
  destruct (agg_id <? length parts)%nat eqn:Hlt; cbn [fst snd]; [|done].
  apply Nat.ltb_lt in Hlt.
  rewrite lookup_insert_eq. cbn [fst snd].
  destruct (truncate_out_share out_share) as [t|e] eqn:Ht;
    cbn [fst snd]; [|done].
  intros [= <- <- <-]. cbn [fst snd]. split; [done|].
  exists b, out_share. split; [done|]. split; [done|]. right.
  split; [done|]. split; [done|]. split; [eauto|]. right.
  split; [done|]. by exists seed', l, parts.
Qed.

(** X19. When [prep_init] returns: the input share had the proof share
    (Aggregator 0) or the seed (any other) that [expand_input_share]
    asserts; the VIDPF evaluation returned, with no empty output share,
    and its proof is in the prep share. Without the weight check the prep
    share has no verifier share and no joint randomness part and the prep
    state no seed. With it, the level fits two bytes and there is a
    verifier share; part and seed are there exactly with joint
    randomness, and then the public share held a list of parts with an
    entry [agg_id]. *)
Theorem prep_init_returns_only_if verify_key ctx agg_id agg_param nonce cws
    parts_at key proof_share seed beta_share (h h' : heap) state pshare :
  prep_init verify_key ctx agg_id agg_param nonce (cws, parts_at)
    (key, proof_share, seed, beta_share) h
  = (Ok (state, pshare), h') →
  (if (agg_id =? 0)%nat then is_Some proof_share else is_Some seed) ∧
  (∃ b out_share,
     vidpf_eval agg_id cws key (level agg_param) (prefixes agg_param) ctx
       nonce = Ok (b, out_share, pshare.1.1) ∧
     Forall (λ val_share, val_share ≠ []) out_share) ∧
  (do_weight_check agg_param = false →
   pshare.1.2 = None ∧ pshare.2 = None ∧ state.2 = None) ∧
  (do_weight_check agg_param = true →
   0 ≤ level agg_param < 2 ^ 16 ∧ is_Some pshare.1.2 ∧
   (JOINT_RAND_LEN = 0%nat → pshare.2 = None ∧ state.2 = None) ∧
   ((0 < JOINT_RAND_LEN)%nat →
    is_Some seed ∧ is_Some pshare.2 ∧ is_Some state.2 ∧
    ∃ l parts, parts_at = Some l ∧ h !! l = Some parts ∧
               (agg_id < length parts)%nat)).
Proof.
  intros (Hshare & b & out_share & Heval & Ht & Hcases)%prep_init_Ok_inv.
  split; [done|]. split.
  { exists b, out_share. split; [done|].
    by eapply truncate_out_share_Ok_inv. }
  split.
  - intros Hno.
    by destruct Hcases as [(_ & _ & ? & ? & ?) | (Hcheck & _)];
      [|congruence].
  - intros Hcheck.
    destruct Hcases as [(Hno & _) | (_ & Hlevel & Hverifier & Hjoint)];
      [congruence|].
    split; [done|]. split; [done|]. split.
    + intros Hzero.
      by destruct Hjoint as [(_ & _ & ? & ?) | (Hjr & _)]; [|lia].
    + intros Hjr.
      destruct Hjoint as [(Hzero & _)
                         | (_ & seed' & l & parts & -> & -> & Hl & Hlt & _
                            & -> & ->)]; [lia|].
      split; [eauto|]. split; [eauto|]. split; [eauto|]. by exists l, parts.
Qed.

(** *** An honest report, from [shard] to [prep_next] *)

(** The list of parts of a public share, where [prep_init] finds it. *)
Definition held_at (h : heap) (parts : option (list bytes))
    (parts_at : option loc) : Prop :=
  match parts, parts_at with
  | Some parts, Some l => h !! l = Some parts
  | None, None => True
  | _, _ => False
  end.

(** X20. On the shares that [shard] returned, whenever both Aggregators'
    [prep_init] return, Aggregator 1 after Aggregator 0 on the same public
    share: the list of joint randomness parts holds what it held (each
    writes the part that was there), and a prep message that
    [prep_shares_to_prep] returns for the two prep shares passes
    [prep_next] on both prep states, which gives their output shares. *)
Theorem honest_round ctx alpha weight nonce rand cws parts input_shares :
  shard ctx (alpha, weight) nonce rand = Ok ((cws, parts), input_shares) →
  ∃ input_0 input_1,
    input_shares = [input_0; input_1] ∧
    ∀ verify_key agg_param parts_at (h h_0 h_1 : heap)
      state_0 pshare_0 state_1 pshare_1,
      held_at h parts parts_at →
      prep_init verify_key ctx 0 agg_param nonce (cws, parts_at) input_0 h
      = (Ok (state_0, pshare_0), h_0) →
      prep_init verify_key ctx 1 agg_param nonce (cws, parts_at) input_1 h_0
      = (Ok (state_1, pshare_1), h_1) →
      h_0 = h ∧ h_1 = h ∧
      ∀ prep_msg,
        prep_shares_to_prep ctx agg_param [pshare_0; pshare_1]
        = Ok prep_msg →
        prep_next ctx state_0 prep_msg = Ok state_0.1 ∧
        prep_next ctx state_1 prep_msg = Ok state_1.1.
Proof.
  intros Hrun.
  destruct (decide (length rand ≤ shard_takes)%nat) as [Hlen|Hlen];
    [|by rewrite shard_leftover in Hrun
        by (unfold shard_takes in Hlen; lia)].
  destruct (shard_eq ctx alpha weight nonce rand Hlen)
    as (s1 & s2 & s3 & s4 & Heq).
  rewrite Heq in Hrun. clear Heq.
  apply bind_Ok in Hrun as ([cws' keys] & _ & Hrun).
  apply bind_Ok in Hrun as (key_0 & _ & Hrun).
  apply bind_Ok in Hrun as (key_1 & _ & Hrun).
  unfold shard_output in Hrun. injection Hrun as -> <- <-.
  eexists _, _. split; [reflexivity|].
  intros verify_key agg_param parts_at h h_0 h_1 [t_0 seed_0] pshare_0
    [t_1 seed_1] pshare_1 Hheld Hrun_0 Hrun_1.
  apply prep_init_Ok_inv in Hrun_0 as (_ & b0 & o0 & _ & _ & Hcases_0).
  apply prep_init_Ok_inv in Hrun_1 as (_ & b1 & o1 & _ & _ & Hcases_1).
  cbn [fst snd] in *.
  assert (∀ msg, prep_next ctx (t_0, None) msg = Ok t_0) as Hnext_0 by done.
  assert (∀ msg, prep_next ctx (t_1, None) msg = Ok t_1) as Hnext_1 by done.
  destruct Hcases_0 as [(Hno & -> & -> & _)
                       | (Hcheck & _ & _ & Hjoint_0)].
  { destruct Hcases_1 as [(_ & -> & -> & _) | (Hcheck & _)];
      [done | congruence]. }
  destruct Hcases_1 as [(Hno & _) | (_ & _ & _ & Hjoint_1)]; [congruence|].
  destruct Hjoint_0 as [(Hzero & -> & -> & _)
                       | (Hjr & r0 & l & ps & Hr0 & -> & Hl & _ & -> & ->
                          & Hp0)].
  { destruct Hjoint_1 as [(_ & -> & -> & _) | (Hjr & _)]; [done | lia]. }
  destruct Hjoint_1 as [(Hzero & _)
                       | (_ & r1 & l' & ps' & Hr1 & Hl' & Hps' & _ & -> & ->
                          & Hp1)]; [lia|].
  injection Hl' as <-. injection Hr1 as <-.
  rewrite (proj2 (Nat.ltb_lt _ _) Hjr) in Hheld, Hr0. injection Hr0 as <-.
  cbn [held_at] in Hheld. rewrite Hheld in Hl. injection Hl as <-.
  cbn [insert list_insert] in *.
  rewrite insert_id in Hps' by done. rewrite Hheld in Hps'.
  injection Hps' as <-. cbn [insert list_insert].
  rewrite !insert_id by done. split; [done|]. split; [done|].
  intros prep_msg Hmsg. destruct pshare_0 as [[proof_0 v0] p0].
  destruct pshare_1 as [[proof_1 v1] p1]. cbn [fst snd] in Hp0, Hp1.
  subst p0 p1. unfold prep_shares_to_prep in Hmsg.
  cbn [length Nat.eqb negb index lookup list_lookup mbind result_bind]
    in Hmsg.
  destruct (bool_decide (proof_0 = proof_1)); [|done].
  rewrite Hcheck in Hmsg. cbn [negb] in Hmsg.
  destruct v0 as [v0|]; [|done]. destruct v1 as [v1|]; [|done].
  destruct (flp_decide (vec_add v0 v1)); [|done]. cbn [negb] in Hmsg.
  replace (JOINT_RAND_LEN =? 0)%nat with false in Hmsg
    by (symmetry; apply Nat.eqb_neq; lia).
  injection Hmsg as <-. unfold prep_next.
  by rewrite bool_decide_eq_true_2.
Qed.
(** *** [unshard] *)

Section Unshard.

(** [x.as_unsigned()] on a field element. *)
Variable as_unsigned : F → Z.

(** The loop [while len(agg) > 0] of [unshard]; [fuel] bounds the number
    of its iterations, and [None] says that it did not suffice. *)
Fixpoint unshard_loop (fuel : nat) (agg : list F) (agg_result : list R)
    : option (result (list R)) :=
  if (0 <? length agg)%nat then
    match fuel with
    | O => None
    | S fuel' =>
        let '(chunk, agg) := front (OUTPUT_LEN + 1) agg in
        match index chunk 0 with
        | Ok first =>
            let meas_count := as_unsigned first in
            unshard_loop fuel' agg
              (agg_result ++ [flp_decode (drop 1 chunk) meas_count])
        | Raise e => Some (Raise e)
        end
    end
  else Some (Ok agg_result).

Definition unshard (agg_param : MasticAggParam)
    (agg_shares : list (list F)) (_num_measurements : Z)
    : option (result (list R)) :=
  let agg := merge agg_param agg_shares in
  unshard_loop (length agg) agg [].

(** The result for the chunk [k] of an aggregate: none past its end. *)
Definition chunk_result (agg : list F) (k : nat) : option R :=
  first ← agg !! (k * (OUTPUT_LEN + 1))%nat;
  Some (flp_decode
          (take OUTPUT_LEN (drop (k * (OUTPUT_LEN + 1) + 1) agg))
          (as_unsigned first)).

Lemma unshard_loop_spec fuel agg agg_result :
  (length agg ≤ fuel)%nat →
  ∃ results,
    unshard_loop fuel agg agg_result = Some (Ok (agg_result ++ results)) ∧
    ∀ k, results !! k = chunk_result agg k.
Proof.
  revert agg agg_result.
  induction fuel as [|fuel IH]; intros agg agg_result Hfuel.
  - destruct agg; [|simpl in Hfuel; lia]. exists [].
    by rewrite app_nil_r.
  - destruct agg as [|x agg].
    { exists []. by rewrite app_nil_r. }
    cbn [unshard_loop length Nat.ltb Nat.leb front].
    replace (OUTPUT_LEN + 1)%nat with (S OUTPUT_LEN) by lia.
    cbn [take drop index lookup list_lookup]. rewrite drop_0.
    destruct (IH (drop OUTPUT_LEN agg)
                (agg_result ++ [flp_decode (take OUTPUT_LEN agg)
                                  (as_unsigned x)]))
      as (results & -> & Hresults).
    { rewrite length_drop. simpl in Hfuel. lia. }
    eexists (_ :: results). rewrite <- (assoc_L (++)).
    split; [reflexivity|]. intros [|k]; [done|].
    cbn [lookup list_lookup]. rewrite Hresults. unfold chunk_result.
    replace (OUTPUT_LEN + 1)%nat with (S OUTPUT_LEN) by lia.
    rewrite lookup_drop, drop_drop.
    replace (S k * S OUTPUT_LEN)%nat
      with (S (OUTPUT_LEN + k * S OUTPUT_LEN)) by lia.
    cbn [lookup list_lookup].
    replace (S (OUTPUT_LEN + k * S OUTPUT_LEN) + 1)%nat
      with (S (OUTPUT_LEN + (k * S OUTPUT_LEN + 1))) by lia.
    done.
Qed.

(** X21. On aggregate shares of the length of [agg_init], [unshard]
    returns one result per prefix, and takes no account of the number of
    measurements: result [k] decodes the [OUTPUT_LEN] elements after
    element [k * (OUTPUT_LEN + 1)] of the merged aggregate, with that
    element as the count. *)
Theorem unshard_results agg_param agg_shares num_measurements :
  Forall (λ a, length a
               = (length (prefixes agg_param) * (1 + OUTPUT_LEN))%nat)
    agg_shares →
  let agg := merge agg_param agg_shares in
  ∃ results,
    unshard agg_param agg_shares num_measurements = Some (Ok results) ∧
    length results = length (prefixes agg_param) ∧
    ∀ k, (k < length (prefixes agg_param))%nat →
      ∃ first,
        agg !! (k * (OUTPUT_LEN + 1))%nat = Some first ∧
        results !! k
        = Some (flp_decode
                  (take OUTPUT_LEN (drop (k * (OUTPUT_LEN + 1) + 1) agg))
                  (as_unsigned first)).
Proof.
  intros Hshares agg. unfold unshard. fold agg.
  destruct (unshard_loop_spec (length agg) agg []) as (results & -> & Hk);
    [done|].
  exists results. split; [done|].
  assert (length agg = (length (prefixes agg_param) * (1 + OUTPUT_LEN))%nat)
    as Hagg.
  { subst agg. unfold merge, agg_init. apply foldl_vec_add_length; [|done].
    unfold fzeros. apply length_replicate. }
  assert (∀ k, is_Some (results !! k) ↔ (k < length (prefixes agg_param))%nat)
    as Hsome.
  { intros k. rewrite Hk. unfold chunk_result.
    destruct (agg !! (k * (OUTPUT_LEN + 1))%nat) as [first|] eqn:Hfirst;
      cbn [mbind option_bind].
    - apply lookup_lt_Some in Hfirst. split; [intros _; nia | eauto].
    - apply lookup_ge_None in Hfirst. split; [by intros [? ?] | nia]. }
  split.
  - destruct (decide (length results < length (prefixes agg_param))%nat)
      as [Hlt|Hge].
    + apply Hsome in Hlt as [r Hr]. apply lookup_lt_Some in Hr. lia.
    + destruct (decide (length results = length (prefixes agg_param)))
        as [|Hne]; [done|].
      assert (is_Some (results !! length (prefixes agg_param))) as Hs
        by (apply lookup_lt_is_Some_2; lia).
      apply Hsome in Hs. lia.
  - intros k Hlt.
    destruct (lookup_lt_is_Some_2 agg (k * (OUTPUT_LEN + 1))%nat) as [first Hfirst];
      [nia|].
    exists first. split; [done|]. rewrite Hk. unfold chunk_result.
    by rewrite Hfirst.
Qed.
End Unshard.
End WithValid.
End Mastic.

(** ** Concrete instances

    The primitives below stand in for AES, SHA3 and TurboSHAKE (they keep
    the sizes of the real ones, not their strength), over the field of
    [Field64]; they serve to run the definitions on concrete inputs. *)

Module Instances.

(** The modulus of [Field64], [2^32 * 4294967295 + 1]. *)
Definition MODULUS : Z := 18446744069414584321.

#[global] Instance Field64 : FieldOps (Zmod.Zmod MODULUS) := {|
  fzero := Zmod.zero;
  fone := Zmod.one;
  fadd := Zmod.add;
  fmul := Zmod.mul;
  fsub := Zmod.sub;
  fopp := Zmod.opp;
|}.

Definition mix (data : bytes) (i : Z) : Z :=
  foldl (λ a b, (a * 31 + b + 7) mod 65537) (i + 1) data.

Definition toy_stream (seed dst binder : bytes) (i : nat) : Z :=
  mix (seed ++ dst ++ binder) (Z.of_nat i) mod 256.

Definition toy_vec (seed dst binder : bytes) (pos n : nat)
    : list (Zmod.Zmod MODULUS) :=
  (λ i, Zmod.of_Z MODULUS (toy_stream seed dst binder i)) <$> seq pos n.

Definition toy_format_dst (algo_class algo usage : Z) : bytes :=
  [algo_class; algo; usage].

Definition toy_sha3_256 (data : bytes) : bytes :=
  (λ i, mix data (Z.of_nat i) mod 256) <$> seq 0 32.

Definition toy_str (n : Z) : bytes := [n].

Definition toy_encode_vec (vec : list (Zmod.Zmod MODULUS)) : bytes :=
  Zmod.to_Z <$> vec.

(** [Vidpf.with_params(Field64, 2, 1)] *)
Definition gen :=
  Vidpf.gen 2 1 toy_stream toy_vec toy_format_dst toy_sha3_256 toy_str.

Definition eval :=
  Vidpf.eval 2 1 toy_stream toy_vec toy_format_dst toy_sha3_256 toy_str
    toy_encode_vec.

Lemma toy_vec_length seed dst binder pos n :
  length (toy_vec seed dst binder pos n) = n.
Proof. unfold toy_vec. by rewrite length_fmap, length_seq. Qed.

Lemma toy_sha3_256_length m : length (toy_sha3_256 m) = 32%nat.
Proof. done. Qed.

(** A stand-in for the FLP of [Sum] over 40-bit measurements (no joint
    randomness), and one for an FLP with joint randomness. *)
#[global] Instance toy_sum : Mastic.Flp (Zmod.Zmod MODULUS) Z Z := {|
  Mastic.MEAS_LEN := 40;
  Mastic.OUTPUT_LEN := 1;
  Mastic.PROOF_LEN := 2;
  Mastic.PROVE_RAND_LEN := 1;
  Mastic.QUERY_RAND_LEN := 1;
  Mastic.JOINT_RAND_LEN := 0;
  Mastic.flp_encode := λ w,
    (λ i, Zmod.of_Z MODULUS (Z.b2z (Z.testbit w (Z.of_nat i)))) <$> seq 0 40;
  Mastic.flp_truncate := λ meas, [foldr Zmod.add Zmod.zero meas];
  Mastic.flp_prove := λ meas prove_rand joint_rand, prove_rand ++ prove_rand;
  Mastic.flp_query := λ meas proof query_rand joint_rand num_shares, take 1 meas;
  Mastic.flp_decide := λ verifier, forallb (λ x, Zmod.eqb x Zmod.zero) verifier;
  Mastic.flp_decode := λ output num, default 0 (Zmod.to_Z <$> head output);
|}.

Definition toy_joint : Mastic.Flp (Zmod.Zmod MODULUS) Z Z := {|
  Mastic.MEAS_LEN := 1;
  Mastic.OUTPUT_LEN := 1;
  Mastic.PROOF_LEN := 2;
  Mastic.PROVE_RAND_LEN := 1;
  Mastic.QUERY_RAND_LEN := 1;
  Mastic.JOINT_RAND_LEN := 1;
  Mastic.flp_encode := λ w, [Zmod.of_Z MODULUS w];
  Mastic.flp_truncate := λ meas, meas;
  Mastic.flp_prove := λ meas prove_rand joint_rand, prove_rand ++ joint_rand;
  Mastic.flp_query := λ meas proof query_rand joint_rand num_shares, take 1 meas;
  Mastic.flp_decide := λ verifier, forallb (λ x, Zmod.eqb x Zmod.zero) verifier;
  Mastic.flp_decode := λ output num, default 0 (Zmod.to_Z <$> head output);
|}.

#[global] Instance toy_xof : Mastic.Xof (Zmod.Zmod MODULUS) := {|
  Mastic.SEED_SIZE := 32;
  Mastic.derive_seed := λ seed dst binder, toy_sha3_256 (seed ++ dst ++ binder);
  Mastic.expand_into_vec := λ seed dst binder n, toy_vec seed dst binder 0 n;
|}.

(** A stand-in for the VIDPF that [mastic.py] is written against: it
    evaluates to nothing. *)
#[global] Instance toy_vidpf : Mastic.VidpfApi (Zmod.Zmod MODULUS) bytes := {|
  Mastic.vidpf_RAND_SIZE := 32;
  Mastic.vidpf_gen := λ alpha beta ctx nonce rand,
    Ok ([], [take 16 rand; drop 16 rand]);
  Mastic.vidpf_eval := λ agg_id correction_words key level prefixes ctx nonce,
    Ok ([], [], key);
  Mastic.encode_public_share := λ correction_words, mjoin correction_words;
|}.

Definition toy_dst (ctx : bytes) (u : Mastic.usage) : bytes :=
  match u with
  | Mastic.USAGE_PROVE_RAND => 1
  | Mastic.USAGE_PROOF_SHARE => 2
  | Mastic.USAGE_QUERY_RAND => 3
  | Mastic.USAGE_JOINT_RAND_SEED => 4
  | Mastic.USAGE_JOINT_RAND_PART => 5
  | Mastic.USAGE_JOINT_RAND => 6
  end :: ctx.

(** *** The claims about [Vidpf], on a report of [alpha = 0b10] *)

Definition rand32 : bytes := Z.of_nat <$> seq 0 32.
Definition beta5 : list (Zmod.Zmod MODULUS) := [Zmod.of_Z MODULUS 5].

Lemma both_prefixes_in_range (level : nat) p :
  p ∈ [0; 1] → 0 ≤ p < 2 ^ Z.of_nat (level + 1).
Proof.
  pose proof (proj1 (Z.pow_gt_1 2 (Z.of_nat (level + 1)) ltac:(lia))
                ltac:(lia)) as Hpow.
  rewrite !elem_of_cons, elem_of_nil. intros [-> | [-> | []]]; lia.
Qed.

Lemma NoDup_both_prefixes : NoDup [0; 1].
Proof. apply (bool_decide_unpack (NoDup [0; 1])). exact I. Qed.

(** C1 at [alpha = 0b10], level 0 and the prefixes 0 and 1. *)
Lemma out_shares_sum_witness :
  ∃ init_seed cws cs beta_share_0 out_share_0 proof_0
    beta_share_1 out_share_1 proof_1,
    gen 2 beta5 [1; 2; 3] rand32 = Ok (init_seed, cws, cs) ∧
    eval 0 cws cs init_seed.1 0 [0; 1] [1; 2; 3]
    = Ok (beta_share_0, out_share_0, proof_0) ∧
    eval 1 cws cs init_seed.2 0 [0; 1] [1; 2; 3]
    = Ok (beta_share_1, out_share_1, proof_1) ∧
    length out_share_0 = 2%nat ∧ length out_share_1 = 2%nat ∧
    ∀ k prefix y_0 y_1,
      [0; 1] !! k = Some prefix →
      out_share_0 !! k = Some y_0 → out_share_1 !! k = Some y_1 →
      vec_add y_0 y_1
      = if decide (prefix = Z.shiftr 2 (Z.of_nat (2 - 0 - 1)))
        then beta5 else fzeros 1.
Proof.
  apply (Vidpf.out_shares_sum_to_beta_on_path (H:=Field64) 2 1 toy_stream toy_vec
           toy_format_dst toy_sha3_256 toy_str toy_encode_vec
           (Zmod.ring_theory MODULUS) toy_vec_length toy_sha3_256_length
           2 beta5 [1; 2; 3] rand32 0 [0; 1]).
  - lia.
  - reflexivity.
  - reflexivity.
  - lia.
  - lia.
  - exact NoDup_both_prefixes.
  - discriminate.
  - exact (both_prefixes_in_range 0).
Defined.

(** C2 on the same report. *)
Lemma eval_proofs_agree_witness :
  ∃ init_seed cws cs beta_share_0 out_share_0 proof_0
    beta_share_1 out_share_1 proof_1,
    gen 2 beta5 [1; 2; 3] rand32 = Ok (init_seed, cws, cs) ∧
    eval 0 cws cs init_seed.1 1 [0; 1] [1; 2; 3]
    = Ok (beta_share_0, out_share_0, proof_0) ∧
    eval 1 cws cs init_seed.2 1 [0; 1] [1; 2; 3]
    = Ok (beta_share_1, out_share_1, proof_1) ∧
    proof_0 = proof_1 ∧ Vidpf.verify proof_0 proof_1 = true.
Proof.
  apply (Vidpf.eval_proofs_agree (H:=Field64) 2 1 toy_stream toy_vec toy_format_dst
           toy_sha3_256 toy_str toy_encode_vec
           (Zmod.ring_theory MODULUS) toy_vec_length toy_sha3_256_length
           2 beta5 [1; 2; 3] rand32 1 [0; 1]).
  - lia.
  - reflexivity.
  - reflexivity.
  - lia.
  - lia.
  - exact NoDup_both_prefixes.
  - discriminate.
  - exact (both_prefixes_in_range 1).
Defined.

(** What the two [eval]s return on that report: the sums, and the proofs
    compared. *)
Example honest_report_runs :
  match gen 2 beta5 [1; 2; 3] rand32 with
  | Ok (init_seed, cws, cs) =>
      match eval 0 cws cs init_seed.1 1 [0; 1; 2; 3] [1; 2; 3],
            eval 1 cws cs init_seed.2 1 [0; 1; 2; 3] [1; 2; 3] with
      | Ok (_, out_share_0, proof_0), Ok (_, out_share_1, proof_1) =>
          Some (toy_encode_vec <$> zip_with vec_add out_share_0 out_share_1,
                bool_decide (proof_0 = proof_1))
      | _, _ => None
      end
  | Raise _ => None
  end = Some ([[0]; [0]; [5]; [0]], true).
Proof. vm_compute. reflexivity. Qed.

(** A public share of one level, long enough for level 0. *)
Definition one_level : list (Vidpf.CorrectionWord (Zmod.Zmod MODULUS)) :=
  [([], (false, false), [Zmod.zero])].

Lemma one_level_long_enough : Vidpf.long_enough 1 one_level [[]] 0.
Proof.
  repeat split; simpl; try lia.
  intros [|l] cw Hl; [|lia]. intros [= <-]. simpl. lia.
Qed.



(** C10 at aggregator 0 and level 0. *)
Lemma eval_needs_a_prefix_witness :
  eval 0 one_level [[]] [] 0 [] [] = Raise KeyError ∧
  eval 0 one_level [[]] [] 0 [0] [] ≠ Raise KeyError ∧
  ∃ r, eval 0 one_level [[]] [] 0 [0] [] = Ok r.
Proof.
  destruct (Vidpf.eval_needs_a_prefix (H:=Field64) 2 1 toy_stream toy_vec toy_format_dst
              toy_sha3_256 toy_str toy_encode_vec toy_vec_length
              0 one_level [[]] [] 0%nat [])
    as [Hempty Hsome]; [unfold Vidpf.SHARES; lia | lia |].
  destruct (Hsome [0] 0) as (_ & Hkey & _ & Hreturns).
  - apply elem_of_cons. by left.
  - simpl. lia.
  - split; [exact Hempty|]. split; [exact Hkey|].
    apply Hreturns.
    + exact one_level_long_enough.
    + apply NoDup_singleton.
    + intros q [->|[]%elem_of_nil]%elem_of_cons. simpl. lia.
Defined.
(** *** More of [Vidpf], on the same report *)

Definition report := gen 2 beta5 [1; 2; 3] rand32.

Definition report_keys : bytes * bytes :=
  match report with Ok (keys, _, _) => keys | Raise _ => ([], []) end.

Definition report_cws : list (Vidpf.CorrectionWord (Zmod.Zmod MODULUS)) :=
  match report with Ok (_, cws, _) => cws | Raise _ => [] end.

Definition report_cs : list bytes :=
  match report with Ok (_, _, cs) => cs | Raise _ => [] end.

(** Aggregator 0 on the report, at level 0 and the prefixes 0 and 1. *)
Definition leader_run :=
  eval 0 report_cws report_cs report_keys.1 0 [0; 1] [1; 2; 3].

Definition leader_beta : list (Zmod.Zmod MODULUS) :=
  match leader_run with Ok (b, _, _) => b | Raise _ => [] end.

Definition leader_out : list (list (Zmod.Zmod MODULUS)) :=
  match leader_run with Ok (_, out, _) => out | Raise _ => [] end.

Definition leader_proof : bytes :=
  match leader_run with Ok (_, _, proof) => proof | Raise _ => [] end.



(** X3 on the report. *)
Lemma gen_shape_witness :
  report_keys = (take Vidpf.SEED_SIZE rand32, drop Vidpf.SEED_SIZE rand32) ∧
  length report_keys.1 = Vidpf.SEED_SIZE ∧
  length report_keys.2 = Vidpf.SEED_SIZE ∧
  length report_cws = 2%nat ∧ length report_cs = 2%nat ∧
  Forall (λ cw : Vidpf.CorrectionWord (Zmod.Zmod MODULUS),
            length cw.1.1 = Vidpf.SEED_SIZE ∧
            length cw.2 = (length beta5 `min` 1)%nat) report_cws ∧
  Forall (λ c : bytes, length c = 32%nat) report_cs.
Proof.
  apply (Vidpf.gen_shape (H:=Field64) 2 1 toy_stream toy_vec toy_format_dst
           toy_sha3_256 toy_str toy_vec_length toy_sha3_256_length
           2 beta5 [1; 2; 3] rand32).
  vm_compute. reflexivity.
Defined.

Lemma report_well_sized :
  Vidpf.well_sized report_keys.1 report_cws report_cs 0.
Proof.
  split; [reflexivity|].
  split; intros [|l] x Hl Hx; try lia; vm_compute in Hx;
    injection Hx as <-; reflexivity.
Qed.

(** X4 on the report, level 0 and both prefixes. *)
Lemma eval_returns_iff_witness :
  ∃ r, eval 0 report_cws report_cs report_keys.1 0 [0; 1] [1; 2; 3] = Ok r.
Proof.
  apply (proj2 (Vidpf.eval_returns_iff (H:=Field64) 2 1 toy_stream toy_vec
                  toy_format_dst toy_sha3_256 toy_str toy_encode_vec
                  toy_vec_length 0 report_cws report_cs report_keys.1 0%nat
                  [0; 1] [1; 2; 3] ltac:(lia) report_well_sized)).
  split; [reflexivity|]. split; [lia|].
  split; [exact NoDup_both_prefixes|].
  split; [intros p Hp; by apply (both_prefixes_in_range 0)|].
  split; [exists 0; split; [apply elem_of_cons; by left | lia]|].
  split; [vm_compute; lia|]. split; [vm_compute; lia|]. split; [simpl; lia|].
  intros [|l] cw Hl Hcw; [|lia]. vm_compute in Hcw. injection Hcw as <-.
  vm_compute. lia.
Defined.

(** A public share of one level and of the right sizes. *)
Definition sized_level : list (Vidpf.CorrectionWord (Zmod.Zmod MODULUS)) :=
  [(replicate 16 0, (false, false), [Zmod.zero])].

Lemma sized_level_well_sized :
  Vidpf.well_sized (replicate 16 0) sized_level [replicate 32 0] 0.
Proof.
  split; [reflexivity|].
  split; intros [|l] x Hl; try lia; intros [= <-]; reflexivity.
Qed.

Lemma sized_level_long_enough :
  Vidpf.long_enough 1 sized_level [replicate 32 0] 0.
Proof.
  repeat split; simpl; try lia.
  intros [|l] cw Hl; [|lia]. intros [= <-]. simpl. lia.
Qed.

(** X5 on the prefix [-1]. *)
Lemma eval_negative_prefixes_witness :
  eval 0 sized_level [replicate 32 0] (replicate 16 0) 0 [-1] []
  = Raise KeyError.
Proof.
  apply (Vidpf.eval_negative_prefixes (H:=Field64) 2 1 toy_stream toy_vec
           toy_format_dst toy_sha3_256 toy_str toy_encode_vec toy_vec_length
           0 sized_level [replicate 32 0] (replicate 16 0) 0%nat [-1] []).
  - split; [lia | reflexivity].
  - lia.
  - apply NoDup_singleton.
  - exact sized_level_well_sized.
  - exact sized_level_long_enough.
  - intros p [->|[]%elem_of_nil]%elem_of_cons. lia.
Defined.

(** X6: the second prefix of Aggregator 0's run, alone. *)
Lemma eval_prefix_by_prefix_witness :
  ∃ y proof',
    leader_out !! 1%nat = Some y ∧
    eval 0 report_cws report_cs report_keys.1 0 [1] [1; 2; 3]
    = Ok (leader_beta, [y], proof').
Proof.
  apply (Vidpf.eval_prefix_by_prefix (H:=Field64) 2 1 toy_stream toy_vec
           toy_format_dst toy_sha3_256 toy_str toy_encode_vec toy_vec_length
           0 report_cws report_cs report_keys.1 0%nat [0; 1] [1; 2; 3]
           leader_beta leader_out leader_proof).
  - lia.
  - vm_compute. reflexivity.
  - intros p Hp. by apply (both_prefixes_in_range 0).
  - reflexivity.
Defined.

(** X7: the two prefixes of Aggregator 0's run, the other way round. *)
Lemma eval_permutation_witness :
  ∃ out_share' proof',
    eval 0 report_cws report_cs report_keys.1 0 [1; 0] [1; 2; 3]
    = Ok (leader_beta, out_share', proof') ∧
    ∀ k k' p, [0; 1] !! k = Some p → [1; 0] !! k' = Some p →
      leader_out !! k = out_share' !! k'.
Proof.
  apply (Vidpf.eval_permutation (H:=Field64) 2 1 toy_stream toy_vec
           toy_format_dst toy_sha3_256 toy_str toy_encode_vec toy_vec_length
           0 report_cws report_cs report_keys.1 0%nat [0; 1] [1; 0]
           [1; 2; 3] leader_beta leader_out leader_proof).
  - lia.
  - apply Permutation_swap.
  - vm_compute. reflexivity.
  - intros p Hp. by apply (both_prefixes_in_range 0).
Defined.

(** X8 on Aggregator 0's run. *)
Lemma eval_sizes_witness :
  length leader_out = length [0; 1] ∧
  Forall (λ y, length y = 1%nat) leader_out ∧
  length leader_beta = 1%nat ∧ length leader_proof = 64%nat.
Proof.
  apply (Vidpf.eval_sizes (H:=Field64) 2 1 toy_stream toy_vec
           toy_format_dst toy_sha3_256 toy_str toy_encode_vec toy_vec_length
           toy_sha3_256_length 0 report_cws report_cs report_keys.1 0%nat
           [0; 1] [1; 2; 3] leader_beta leader_out leader_proof).
  - lia.
  - vm_compute. reflexivity.
  - intros p Hp. by apply (both_prefixes_in_range 0).
Defined.

(** X9 on the report, at level 1. *)
Lemma beta_shares_sum_witness :
  ∃ init_seed cws cs beta_share_0 out_share_0 proof_0
    beta_share_1 out_share_1 proof_1,
    gen 2 beta5 [1; 2; 3] rand32 = Ok (init_seed, cws, cs) ∧
    eval 0 cws cs init_seed.1 1 [0; 1] [1; 2; 3]
    = Ok (beta_share_0, out_share_0, proof_0) ∧
    eval 1 cws cs init_seed.2 1 [0; 1] [1; 2; 3]
    = Ok (beta_share_1, out_share_1, proof_1) ∧
    vec_add beta_share_0 beta_share_1 = beta5.
Proof.
  apply (Vidpf.beta_shares_sum_to_beta (H:=Field64) 2 1 toy_stream toy_vec
           toy_format_dst toy_sha3_256 toy_str toy_encode_vec
           (Zmod.ring_theory MODULUS) toy_vec_length toy_sha3_256_length
           2 beta5 [1; 2; 3] rand32 1 [0; 1]).
  - lia.
  - reflexivity.
  - reflexivity.
  - lia.
  - lia.
  - exact NoDup_both_prefixes.
  - discriminate.
  - exact (both_prefixes_in_range 1).
Defined.

(** X10 on two bytes. *)
Lemma correct_cases_witness :
  Vidpf.correct (Vidpf.correct [1; 2] [3; 4] true) [3; 4] true = [1; 2].
Proof.
  destruct (Vidpf.correct_cases [1; 2] [3; 4] true eq_refl)
    as (_ & _ & Htwice & _).
  exact Htwice.
Defined.

(** X11 on two measurements. *)
Lemma main_run_aggregates_witness :
  Vidpf.main_run 2 1 toy_stream toy_vec toy_format_dst toy_sha3_256 toy_str
    toy_encode_vec beta5 [1; 2; 3] 0 [0; 1] [2; 0] [rand32; rand32]
  = Ok ((λ p, foldl (λ acc alpha,
                       vec_add acc
                         (if decide (p = Z.shiftr alpha
                                            (Z.of_nat (2 - 0 - 1)))
                          then beta5 else fzeros 1))
                (fzeros 1) [2; 0])
        <$> [0; 1]).
Proof.
  apply (Vidpf.main_run_aggregates (H:=Field64) 2 1 toy_stream toy_vec
           toy_format_dst toy_sha3_256 toy_str toy_encode_vec
           (Zmod.ring_theory MODULUS) toy_vec_length toy_sha3_256_length
           beta5 [1; 2; 3] 0%nat [0; 1] [2; 0] [rand32; rand32]).
  - repeat constructor; simpl; lia.
  - reflexivity.
  - repeat constructor.
  - reflexivity.
  - lia.
  - lia.
  - exact NoDup_both_prefixes.
  - discriminate.
  - exact (both_prefixes_in_range 0).
Defined.

(** X12 with the same 32 bytes from every call of [gen_rand]. *)
Lemma main_assertions_witness :
  Vidpf.main_first toy_stream toy_vec toy_format_dst toy_sha3_256 toy_str
    toy_encode_vec (replicate 5 rand32)
  = Ok [[fadd fone fone]; [fadd (fadd fone fone) fone]] ∧
  Vidpf.main_second toy_stream toy_vec toy_format_dst toy_sha3_256 toy_str
    toy_encode_vec (replicate 4 rand32)
  = Ok [[fone]; [fadd (fadd fone fone) fone]; [fzero]].
Proof.
  apply (Vidpf.main_assertions_hold (H:=Field64) toy_stream toy_vec
           toy_format_dst toy_sha3_256 toy_str toy_encode_vec
           (Zmod.ring_theory MODULUS) toy_vec_length toy_sha3_256_length
           (replicate 5 rand32) (replicate 4 rand32)).
  - reflexivity.
  - repeat constructor.
  - reflexivity.
  - repeat constructor.
Defined.
(** *** The claims about [Mastic] *)

Definition first_param : Mastic.MasticAggParam :=
  {| Mastic.level := 0; Mastic.prefixes := [];
     Mastic.do_weight_check := true |}.

Definition unchecked_param : Mastic.MasticAggParam :=
  {| Mastic.level := 0; Mastic.prefixes := [];
     Mastic.do_weight_check := false |}.

Definition late_check_param : Mastic.MasticAggParam :=
  {| Mastic.level := 1; Mastic.prefixes := [];
     Mastic.do_weight_check := true |}.

Definition second_param : Mastic.MasticAggParam :=
  {| Mastic.level := 1; Mastic.prefixes := [[true; false]];
     Mastic.do_weight_check := false |}.

Lemma valid_history_first : Mastic.valid_history [first_param].
Proof.
  intros [|i] p Hp; simpl in Hp.
  - injection Hp as <-. reflexivity.
  - destruct i; discriminate.
Qed.

(** C4 (as amended) after one parameter that asked for the weight check. *)
Lemma is_valid_iff_witness :
  Mastic.is_valid second_param [first_param] = true ↔
  Mastic.weight_checks ([first_param] ++ [second_param]) = 1%nat ∧
  Forall (λ q, Mastic.level q < Mastic.level second_param) [first_param].
Proof.
  apply (Mastic.is_valid_iff second_param [first_param]).
  exact valid_history_first.
Defined.

(** C4 as the claim states it fails: the weight check asked for once, by
    the second parameter, at a greater level, and [is_valid] refuses it. *)
Lemma is_valid_refuses_late_weight_check :
  ¬ (Mastic.is_valid late_check_param [unchecked_param] = true ↔
     Mastic.weight_checks ([unchecked_param] ++ [late_check_param]) = 1%nat ∧
     Forall (λ q, Mastic.level q < Mastic.level late_check_param)
       [unchecked_param]).
Proof.
  intros [_ Hback].
  assert (Mastic.is_valid late_check_param [unchecked_param] = true) as Hvalid.
  { apply Hback. split; [reflexivity|]. repeat constructor. }
  discriminate Hvalid.
Qed.

(** C9 over [Field64]. *)
Lemma aggregation_witness :
  (∀ a b : list (Zmod.Zmod MODULUS),
     Mastic.agg_update second_param a b = Mastic.agg_update second_param b a) ∧
  (∀ shares shares' : list (list (Zmod.Zmod MODULUS)),
     shares ≡ₚ shares' →
     Mastic.merge (flp:=toy_sum) second_param shares
     = Mastic.merge (flp:=toy_sum) second_param shares').
Proof.
  destruct (Mastic.aggregation_commutative_associative (H:=Field64)
              (flp:=toy_sum) (Zmod.ring_theory MODULUS) second_param)
    as (Hcomm & _ & Hperm & _).
  split; [exact Hcomm | exact Hperm].
Defined.

(** C3 (the defect) on the stand-in for [Sum] over 40 bits: [RAND_SIZE] is
    136 and [shard] takes 128. *)
Lemma shard_fails_witness :
  Mastic.RAND_SIZE (flp:=toy_sum) (xof:=toy_xof) (vidpf:=toy_vidpf) = 136%nat ∧
  Mastic.shard (flp:=toy_sum) (xof:=toy_xof) (vidpf:=toy_vidpf) toy_dst []
    ([true; false], 42) (replicate 16 0) (replicate 136 0)
  = Raise AssertionError.
Proof.
  split; [reflexivity|].
  apply (Mastic.shard_fails_on_RAND_SIZE (flp:=toy_sum) (xof:=toy_xof)
           (vidpf:=toy_vidpf) toy_dst).
  - simpl. lia.
  - reflexivity.
Defined.

(** C5 on two prep shares whose proofs differ. *)
Lemma prep_shares_to_prep_witness :
  Mastic.prep_shares_to_prep (flp:=toy_sum) (xof:=toy_xof) toy_dst []
    first_param [([1], None, None); ([2], None, None)]
  = Raise (Exception "VIDPF verification failed").
Proof.
  destruct (Mastic.prep_shares_to_prep_cases (flp:=toy_sum) (xof:=toy_xof)
              toy_dst [] first_param [([1], None, None); ([2], None, None)])
    as [_ Hcases].
  destruct (Hcases [1] None None [2] None None eq_refl) as [Hdiffer _].
  apply Hdiffer. discriminate.
Defined.

(** C7 on a parameter of level 1 and one prefix. *)
Lemma encode_agg_param_witness :
  Mastic.encode_agg_param second_param = Ok [0; 1; 0; 0; 0; 1; 0; 128].
Proof.
  destruct Mastic.encode_agg_param_injective as (_ & Hformat & _).
  destruct (Hformat second_param) as [-> _]; [|reflexivity].
  repeat split; simpl; try lia. repeat constructor.
Defined.

(** The heap of the counter-example to C6: the list of joint randomness
    parts of a public share, at location 0, with parts that are not the
    ones the seeds give. *)
Definition parts_heap : Mastic.heap := {[ 0%nat := [[0]; [0]] ]}.

Definition leader_share : Mastic.MasticInputShare (Zmod.Zmod MODULUS) :=
  ([7], Some [Zmod.one; Zmod.one], Some [9], [Zmod.one]).

Definition leader_prep_init :=
  Mastic.prep_init (flp:=toy_joint) (xof:=toy_xof) (vidpf:=toy_vidpf) toy_dst
    [1] [2] 0 first_param [3] ([], Some 0%nat) leader_share parts_heap.

(** C6 as the claim states it fails: [prep_init] returns, and the list in
    the caller's public share holds other bytes than before. *)
Lemma prep_init_changes_public_share :
  (∃ r, leader_prep_init.1 = Ok r) ∧
  leader_prep_init.2 !! 0%nat ≠ parts_heap !! 0%nat.
Proof.
  split.
  - eexists. vm_compute. reflexivity.
  - vm_compute. discriminate.
Qed.

(** C6 (as amended) on that call: entry 0 of the list is the recomputed
    part afterwards. *)
Lemma prep_init_overwrites_witness :
  leader_prep_init.2
  = <[0%nat := <[0%nat := Mastic.joint_rand_part (xof:=toy_xof)
                           (vidpf:=toy_vidpf) toy_dst [2] 0 [9] [7] [] [3]]>
                [[0]; [0]]]> parts_heap.
Proof.
  destruct (Mastic.prep_init_overwrites_in_place (flp:=toy_joint)
              (xof:=toy_xof) (vidpf:=toy_vidpf) toy_dst [1] [2] 0 first_param
              [3] [] (Some 0%nat) leader_share parts_heap)
    as (_ & _ & Hreturned).
  cbv zeta in Hreturned. fold leader_prep_init in Hreturned.
  destruct (Hreturned ([], Some (Mastic.joint_rand_seed (xof:=toy_xof) toy_dst [2]
               [Mastic.joint_rand_part (xof:=toy_xof) (vidpf:=toy_vidpf)
                  toy_dst [2] 0 [9] [7] [] [3]; [0]]))
              [7] (Some [Zmod.one])
              (Mastic.joint_rand_part (xof:=toy_xof) (vidpf:=toy_vidpf)
                 toy_dst [2] 0 [9] [7] [] [3]))
    as (l & parts & [= <-] & [= <-] & Hheap & _).
  - vm_compute. reflexivity.
  - exact Hheap.
Defined.
(** *** More of [Mastic] *)

(** X13 on a sequence of two parameters. *)
Lemma valid_history_iff_witness :
  Mastic.valid_history [first_param; second_param].
Proof.
  apply (proj2 (Mastic.valid_history_iff [first_param; second_param])).
  split.
  - intros [|[|[|i]]] p [= <-]; simpl; split; (done || lia).
  - intros [|[|[|i]]] [|[|[|j]]] p q Hij [= <-] [= <-]; simpl; lia.
Defined.

(** X14 on one aggregate share of two elements. *)
Lemma merge_lengths_witness :
  Mastic.merge (flp:=toy_sum) second_param [[Zmod.one; Zmod.one]]
  = [Zmod.one; Zmod.one].
Proof.
  destruct (Mastic.merge_lengths (H:=Field64) (flp:=toy_sum)
              (Zmod.ring_theory MODULUS) second_param []
              [Zmod.one; Zmod.one]) as (_ & Hone & _).
  - constructor.
  - reflexivity.
  - exact Hone.
Defined.

(** X15 on a parameter of level 1 and one prefix. *)
Lemma encode_agg_param_cases_witness :
  ∃ encoded,
    Mastic.encode_agg_param second_param = Ok encoded ∧
    Z.of_nat (length encoded)
    = 7 + (Mastic.level second_param + 1 + 7) / 8
          * Z.of_nat (length (Mastic.prefixes second_param)).
Proof.
  destruct (Mastic.encode_agg_param_cases second_param)
    as (_ & _ & _ & Hreturns).
  apply Hreturns; [simpl; lia | simpl; lia | reflexivity].
Defined.

(** X16 on the prefixes [(True,)] and [(True, False)] at level 0. *)
Lemma encode_agg_param_padding_witness :
  Mastic.encode_agg_param
    {| Mastic.level := 0; Mastic.prefixes := [[true; false]];
       Mastic.do_weight_check := false |}
  = Mastic.encode_agg_param
      {| Mastic.level := 0; Mastic.prefixes := [[true]];
         Mastic.do_weight_check := false |}.
Proof.
  apply (Mastic.encode_agg_param_padding 0 [] [true] [] false).
  by vm_compute.
Defined.

(** The shares of a weight of 42, from 128 bytes. *)
Definition sum_shard :=
  Mastic.shard (flp:=toy_sum) (xof:=toy_xof) (vidpf:=toy_vidpf) toy_dst []
    ([true; false], 42) (replicate 16 0) (replicate 128 0).

Definition sum_public : list bytes * option (list bytes) :=
  match sum_shard with Ok (public, _) => public | Raise _ => ([], None) end.

Definition sum_inputs : list (Mastic.MasticInputShare (Zmod.Zmod MODULUS)) :=
  match sum_shard with Ok (_, inputs) => inputs | Raise _ => [] end.

(** X17 on these shares. *)
Lemma shard_returns_only_if_witness :
  ∃ correction_words keys key_0 key_1,
    Mastic.vidpf_gen (VidpfApi:=toy_vidpf) [true; false]
      (Mastic.flp_truncate (Flp:=toy_sum) (Mastic.flp_encode (Flp:=toy_sum) 42))
      [] (replicate 16 0) (take 32 (replicate 128 0))
    = Ok (correction_words, keys) ∧
    keys !! 0%nat = Some key_0 ∧ keys !! 1%nat = Some key_1 ∧
    sum_public.1 = correction_words ∧
    (is_Some sum_public.2 ↔ (0 < 0)%nat) ∧
    (λ input_share : Mastic.MasticInputShare (Zmod.Zmod MODULUS),
       input_share.1.1.1) <$> sum_inputs = [key_0; key_1].
Proof.
  destruct (Mastic.shard_returns_only_if (H:=Field64) (flp:=toy_sum)
              (xof:=toy_xof) (vidpf:=toy_vidpf) toy_dst [] [true; false]
              42 (replicate 16 0) (replicate 128 0)) as [_ Honly].
  destruct (Honly sum_public sum_inputs) as [_ Hgen];
    [vm_compute; reflexivity | exact Hgen].
Defined.
(** X18 on these shares. *)
Lemma shard_shares_witness :
  ∃ input_0 input_1 key_0 proof_share_0 seed_0 beta_share_0
    key_1 proof_share_1 seed_1 beta_share_1 prove_rand_seed joint_rand,
    sum_inputs = [input_0; input_1] ∧
    Mastic.expand_input_share (flp:=toy_sum) (xof:=toy_xof) toy_dst [] 0
      input_0
    = Ok (key_0, proof_share_0, seed_0, beta_share_0) ∧
    Mastic.expand_input_share (flp:=toy_sum) (xof:=toy_xof) toy_dst [] 1
      input_1
    = Ok (key_1, proof_share_1, seed_1, beta_share_1) ∧
    vec_add beta_share_0 beta_share_1 = Mastic.flp_encode (Flp:=toy_sum) 42 ∧
    length joint_rand = 0%nat ∧
    vec_add proof_share_0 proof_share_1
    = Mastic.flp_prove (Flp:=toy_sum) (Mastic.flp_encode (Flp:=toy_sum) 42)
        (Mastic.prove_rand (flp:=toy_sum) (xof:=toy_xof) toy_dst []
           prove_rand_seed)
        joint_rand.
Proof.
  apply (Mastic.shard_shares (H:=Field64) (flp:=toy_sum) (xof:=toy_xof)
           (vidpf:=toy_vidpf) toy_dst (Zmod.ring_theory MODULUS)
           (λ seed dst binder n, toy_vec_length seed dst binder 0 n)
           (λ w, eq_refl)
           (λ meas prove_rand joint_rand _ Hprove _,
              eq_trans (length_app prove_rand prove_rand)
                (f_equal2 Nat.add Hprove Hprove))
           [] [true; false] 42 (replicate 16 0) (replicate 128 0)
           sum_public sum_inputs).
  vm_compute. reflexivity.
Defined.

(** X19 on the call of [prep_init] above: the Leader's share and a list
    of two parts. *)
Lemma prep_init_returns_only_if_witness :
  ∃ l parts,
    Some 0%nat = Some l ∧ parts_heap !! l = Some parts ∧
    (0 < length parts)%nat.
Proof.
  destruct leader_prep_init as [[[state pshare]|e] h'] eqn:Hrun;
    [|by vm_compute in Hrun].
  destruct (Mastic.prep_init_returns_only_if (flp:=toy_joint) (xof:=toy_xof)
              (vidpf:=toy_vidpf) toy_dst [1] [2] 0 first_param [3] []
              (Some 0%nat) [7] (Some [Zmod.one; Zmod.one]) (Some [9])
              [Zmod.one] parts_heap h' state pshare Hrun)
    as (_ & _ & _ & Hcheck).
  destruct (Hcheck eq_refl) as (_ & _ & _ & Hjoint).
  destruct Hjoint as (_ & _ & _ & Hparts); [simpl; lia|]. exact Hparts.
Defined.

(** A stand-in for the VIDPF whose two evaluations agree on the proof. *)
Definition agreeing_vidpf : Mastic.VidpfApi (Zmod.Zmod MODULUS) bytes := {|
  Mastic.vidpf_RAND_SIZE := 32;
  Mastic.vidpf_gen := λ alpha beta ctx nonce rand,
    Ok ([], [take 16 rand; drop 16 rand]);
  Mastic.vidpf_eval := λ agg_id correction_words key level prefixes ctx nonce,
    Ok ([], [[Zmod.one; Zmod.one]], [7]);
  Mastic.encode_public_share := λ correction_words, mjoin correction_words;
|}.

(** The shares of a weight of 0 under joint randomness, from 160 bytes. *)
Definition joint_shard :=
  Mastic.shard (flp:=toy_joint) (xof:=toy_xof) (vidpf:=agreeing_vidpf)
    toy_dst [] ([true], 0) (replicate 16 0) (replicate 160 0).

Definition joint_cws : list bytes :=
  match joint_shard with Ok ((cws, _), _) => cws | Raise _ => [] end.

Definition joint_parts : option (list bytes) :=
  match joint_shard with Ok ((_, parts), _) => parts | Raise _ => None end.

Definition joint_inputs : list (Mastic.MasticInputShare (Zmod.Zmod MODULUS)) :=
  match joint_shard with Ok (_, inputs) => inputs | Raise _ => [] end.

(** X20 on these shares. *)
Lemma honest_round_witness :
  ∃ input_0 input_1,
    joint_inputs = [input_0; input_1] ∧
    ∀ verify_key agg_param parts_at (h h_0 h_1 : Mastic.heap)
      state_0 pshare_0 state_1 pshare_1,
      Mastic.held_at h joint_parts parts_at →
      Mastic.prep_init (flp:=toy_joint) (xof:=toy_xof)
        (vidpf:=agreeing_vidpf) toy_dst verify_key [] 0 agg_param
        (replicate 16 0) (joint_cws, parts_at) input_0 h
      = (Ok (state_0, pshare_0), h_0) →
      Mastic.prep_init (flp:=toy_joint) (xof:=toy_xof)
        (vidpf:=agreeing_vidpf) toy_dst verify_key [] 1 agg_param
        (replicate 16 0) (joint_cws, parts_at) input_1 h_0
      = (Ok (state_1, pshare_1), h_1) →
      h_0 = h ∧ h_1 = h ∧
      ∀ prep_msg,
        Mastic.prep_shares_to_prep (flp:=toy_joint) (xof:=toy_xof) toy_dst
          [] agg_param [pshare_0; pshare_1] = Ok prep_msg →
        Mastic.prep_next [] state_0 prep_msg = Ok state_0.1 ∧
        Mastic.prep_next [] state_1 prep_msg = Ok state_1.1.
Proof.
  apply (Mastic.honest_round (H:=Field64) (flp:=toy_joint) (xof:=toy_xof)
           (vidpf:=agreeing_vidpf) toy_dst [] [true] 0 (replicate 16 0)
           (replicate 160 0) joint_cws joint_parts joint_inputs).
  vm_compute. reflexivity.
Defined.

(** The round that X20 is about, run with the list of parts at location
    0: both [prep_init], the prep message and both [prep_next]. *)
Definition joint_heap : Mastic.heap :=
  {[ 0%nat := default [] joint_parts ]}.

Definition joint_init (agg_id : nat) (h : Mastic.heap) :=
  Mastic.prep_init (flp:=toy_joint) (xof:=toy_xof) (vidpf:=agreeing_vidpf)
    toy_dst [1] [] agg_id first_param (replicate 16 0)
    (joint_cws, Some 0%nat)
    (default ([], None, None, []) (joint_inputs !! agg_id)) h.

Definition joint_round : option (bool * list bytes) :=
  match joint_init 0 joint_heap with
  | (Ok (state_0, pshare_0), h_0) =>
      match joint_init 1 h_0 with
      | (Ok (state_1, pshare_1), h_1) =>
          match Mastic.prep_shares_to_prep (flp:=toy_joint) (xof:=toy_xof)
                  toy_dst [] first_param [pshare_0; pshare_1] with
          | Ok prep_msg =>
              match Mastic.prep_next [] state_0 prep_msg,
                    Mastic.prep_next [] state_1 prep_msg with
              | Ok out_0, Ok out_1 =>
                  Some (bool_decide (h_1 = joint_heap),
                        [toy_encode_vec out_0; toy_encode_vec out_1])
              | _, _ => None
              end
          | Raise _ => None
          end
      | (Raise _, _) => None
      end
  | (Raise _, _) => None
  end.

Example honest_round_runs : joint_round = Some (true, [[1; 1]; [1; 1]]).
Proof. vm_compute. reflexivity. Qed.

(** X21 on one aggregate share of two elements. *)
Lemma unshard_results_witness :
  ∃ results,
    Mastic.unshard (flp:=toy_sum) Zmod.to_Z second_param
      [[Zmod.one; Zmod.one]] 1 = Some (Ok results) ∧
    length results = 1%nat.
Proof.
  destruct (Mastic.unshard_results (H:=Field64) (flp:=toy_sum) Zmod.to_Z
              second_param [[Zmod.one; Zmod.one]] 1)
    as (results & Hrun & Hlen & _).
  - repeat constructor.
  - exists results. split; [exact Hrun | exact Hlen].
Defined.
End Instances.
